(** * WalkPlanner: the route optimizer of [RouteOptimizer.tsx]

    A shallow embedding of the edge-coverage optimizer: the graph model of
    [types/Route.ts], the Dijkstra helper [findShortestPath], the walk
    builder [traverseEdgesInOrder], the edge-order generators and the driver
    [optimizeRoute].  The definitions follow the source function by
    function; the vocabulary of the specification (paths, reachability, closed
    walks, coverage) and the loop invariants come next, then the proofs.

    Numbers.  A TypeScript [number] that holds an identifier is a [Z].  A
    route's [distance] is modelled as an exact integer: rounding of IEEE
    doubles is outside this development.  The table [distances] of the
    Dijkstra helper also holds [Infinity], hence the type [num].  Where the
    rounding of the additions decides, the module [Doubles] has the walk
    builder over IEEE doubles.

    The node labels of [utils/labelUtils.ts], the test of [draw] for the
    routes of the optimized path and the graph editor of [CanvasDrawer.tsx]
    (clicks, route splitting, the undo history) follow the optimizer. *)

From Stdlib Require Import ZArith Lia Permutation Floats.
From stdpp Require Import gmap strings list fin_maps sorting.

Local Open Scope Z_scope.

(** ** Data model ([types/Route.ts]) *)

Record Node := mkNode {
  node_id : Z;
  node_x : Z;
  node_y : Z;
  label : string
}.

(** [points] (the drawn poly-line of a route) is never read by the
    optimizer and is left out. *)
Record Route := mkRoute {
  route_id : Z;
  startNodeId : Z;
  endNodeId : Z;
  distance : Z
}.

#[global] Instance Route_eq_dec : EqDecision Route.
Proof. solve_decision. Defined.

(** ** Numbers with [Infinity] *)

Inductive num := Fin (z : Z) | Infinity.

#[global] Instance num_eq_dec : EqDecision num.
Proof. solve_decision. Defined.

(** [a < b] on numbers. *)
Definition num_ltb (a b : num) : bool :=
  match a, b with
  | Fin x, Fin y => x <? y
  | Fin _, Infinity => true
  | Infinity, _ => false
  end.

(** [a + z] where [z] is a finite number. *)
Definition num_add (a : num) (z : Z) : num :=
  match a with
  | Fin x => Fin (x + z)
  | Infinity => Infinity
  end.

Definition num_le (a b : num) : Prop :=
  match a, b with
  | Fin x, Fin y => x <= y
  | _, Infinity => True
  | Infinity, Fin _ => False
  end.

(** ** Possibly non-terminating computations

    The [while] loops of [findShortestPath] are run with fuel; [Spin] is the
    outcome of a loop that is still running when the fuel is gone.  Theorem
    [findShortestPath_terminates] shows that the fuel handed out by the model
    always suffices. *)

Inductive res (A : Type) : Type :=
| Done (a : A)
| Spin.
Arguments Done {A} a.
Arguments Spin {A}.

#[global] Instance res_ret : MRet res := fun A a => Done a.
#[global] Instance res_bind : MBind res := fun A B f m =>
  match m with
  | Done a => f a
  | Spin => Spin
  end.

(** ** [Set<number>] in insertion order *)

Definition set_add (x : Z) (s : list Z) : list Z :=
  if bool_decide (x ∈ s) then s else s ++ [x].

Definition set_delete (x : Z) (s : list Z) : list Z :=
  filter (fun y => y ≠ x) s.

Definition set_has (x : Z) (s : list Z) : bool := bool_decide (x ∈ s).

(** ** The shortest-path helper [findShortestPath] *)

Record ShortestPath := mkShortestPath {
  sp_path : list Z;
  sp_distance : num
}.

Record dijkstra := mkDijkstra {
  distances : gmap Z num;
  previous : gmap Z (option Z);
  unvisited : list Z
}.

(** The body of [nodes.forEach(node => ...)]. *)
Definition init_node (st : dijkstra) (node : Node) : dijkstra :=
  {| distances := <[node_id node := Infinity]> (distances st);
     previous := <[node_id node := None]> (previous st);
     unvisited := set_add (node_id node) (unvisited st) |}.

Definition dijkstra_init (nodes : list Node) (startId : Z) : dijkstra :=
  let st := foldl init_node (mkDijkstra ∅ ∅ []) nodes in
  {| distances := <[startId := Fin 0]> (distances st);
     previous := previous st;
     unvisited := unvisited st |}.

(** One turn of [for (const nodeId of unvisited)]: the pair is
    ([current], [minDistance]).  A key absent from [distances] reads
    [undefined], and [undefined < minDistance] is false. *)
Definition scan_step (dist : gmap Z num) (acc : option Z * num) (nodeId : Z)
  : option Z * num :=
  match dist !! nodeId with
  | Some d => if num_ltb d (snd acc) then (Some nodeId, d) else acc
  | None => acc
  end.

Definition find_smallest (dist : gmap Z num) (unv : list Z) : option Z * num :=
  foldl (scan_step dist) (None, Infinity) unv.

(** The body of [routes.forEach(route => ...)], the check of one route out
    of [current].  [dcur] is [distances[current]]. *)
Definition relax (current : Z) (dcur : num) (st : dijkstra) (route : Route)
  : dijkstra :=
  let neighbor :=
    if bool_decide (startNodeId route = current) then Some (endNodeId route)
    else if bool_decide (endNodeId route = current) then Some (startNodeId route)
    else None in
  match neighbor with
  | Some nb =>
      if set_has nb (unvisited st) then
        let altDistance := num_add dcur (distance route) in
        match distances st !! nb with
        | Some dn =>
            if num_ltb altDistance dn then
              {| distances := <[nb := altDistance]> (distances st);
                 previous := <[nb := Some current]> (previous st);
                 unvisited := unvisited st |}
            else st
        | None => st
        end
      else st
  | None => st
  end.

(** [while (node !== null) { path.unshift(node); node = previous[node] }].
    A key absent from [previous] reads [undefined], which is not [null]:
    the source loop would then go on for ever. *)
Fixpoint reconstruct (fuel : nat) (prev : gmap Z (option Z)) (node : Z)
  (path : list Z) : res (list Z) :=
  match fuel with
  | O => Spin
  | S fuel' =>
      match prev !! node with
      | Some None => Done (node :: path)
      | Some (Some p) => reconstruct fuel' prev p (node :: path)
      | None => Spin
      end
  end.

(** The main [while (unvisited.size > 0)] loop.  [minDistance] is the value
    of [distances[current]] read by the scan; the table is not written
    between the scan and the later reads of [distances[current]], so the
    model uses [minDistance] for them. *)
Fixpoint dijkstra_loop (fuel rfuel : nat) (routes : list Route) (endId : Z)
  (st : dijkstra) : res (option ShortestPath) :=
  match unvisited st with
  | [] => Done None
  | _ :: _ =>
      match fuel with
      | O => Spin
      | S fuel' =>
          match find_smallest (distances st) (unvisited st) with
          | (None, _) => Done None
          | (Some current, minDistance) =>
              if bool_decide (minDistance = Infinity) then Done None
              else
                let st1 := {| distances := distances st;
                              previous := previous st;
                              unvisited := set_delete current (unvisited st) |} in
                if bool_decide (current = endId) then
                  path ← reconstruct rfuel (previous st1) endId [];
                  Done (Some (mkShortestPath path minDistance))
                else
                  dijkstra_loop fuel' rfuel routes endId
                    (foldl (relax current minDistance) st1 routes)
          end
      end
  end.

Definition findShortestPath (nodes : list Node) (routes : list Route)
  (startId endId : Z) : res (option ShortestPath) :=
  if bool_decide (startId = endId) then
    Done (Some (mkShortestPath [startId] (Fin 0)))
  else
    dijkstra_loop (S (length nodes)) (S (length nodes)) routes endId
      (dijkstra_init nodes startId).

(** ** [getDistanceBetweenNodes] *)

Definition connects (nodeId1 nodeId2 : Z) (r : Route) : bool :=
  (bool_decide (startNodeId r = nodeId1) && bool_decide (endNodeId r = nodeId2))
  || (bool_decide (startNodeId r = nodeId2) && bool_decide (endNodeId r = nodeId1)).

Definition getDistanceBetweenNodes (routes : list Route) (nodeId1 nodeId2 : Z) : Z :=
  match List.find (connects nodeId1 nodeId2) routes with
  | Some route => distance route
  | None => 0
  end.

(** [routeExists] of [CanvasDrawer.tsx]: is there a route between the two
    nodes, in either direction. *)
Definition routeExists (routes : list Route) (nodeId1 nodeId2 : Z) : bool :=
  existsb (connects nodeId1 nodeId2) routes.

(** ** The walk builder [traverseEdgesInOrder] *)

Record Walk := mkWalk {
  path : list Z;
  totalDistance : Z
}.

(** The local variables of the builder. *)
Record builder := mkBuilder {
  walk : Walk;
  currentNode : Z;
  edgesCovered : gset Z
}.

(** [for (let i = 1; i < p.length; i++)]: push [p[i]] and add the distance
    between [p[i - 1]] and [p[i]].  [from] is [p[i - 1]], [rest] is
    [p[i..]]. *)
Fixpoint append_hops (routes : list Route) (from : Z) (rest : list Z) (w : Walk)
  : Walk :=
  match rest with
  | [] => w
  | x :: rest' =>
      append_hops routes x rest'
        {| path := path w ++ [x];
           totalDistance := totalDistance w + getDistanceBetweenNodes routes from x |}
  end.

Definition follow (routes : list Route) (p : list Z) (w : Walk) : Walk :=
  match p with
  | [] => w
  | p0 :: rest => append_hops routes p0 rest w
  end.

(** [pathToStart], unless [pathToEnd] exists and is strictly shorter (or
    [pathToStart] is [null]). *)
Definition choose_path (pathToStart pathToEnd : option ShortestPath)
  : option ShortestPath :=
  match pathToEnd with
  | Some pe =>
      match pathToStart with
      | None => pathToEnd
      | Some ps =>
          if num_ltb (sp_distance pe) (sp_distance ps) then pathToEnd
          else pathToStart
      end
  | None => pathToStart
  end.

(** The stitching block: walk to the nearer endpoint of [edge]. *)
Definition stitch (nodes : list Node) (routes : list Route) (st : builder)
  (edge : Route) : res builder :=
  if bool_decide (currentNode st ≠ startNodeId edge)
     && bool_decide (currentNode st ≠ endNodeId edge) then
    pathToStart ← findShortestPath nodes routes (currentNode st) (startNodeId edge);
    pathToEnd ← findShortestPath nodes routes (currentNode st) (endNodeId edge);
    match choose_path pathToStart pathToEnd with
    | Some chosenPath =>
        if (1 <? length (sp_path chosenPath))%nat then
          Done {| walk := follow routes (sp_path chosenPath) (walk st);
                  currentNode := List.last (sp_path chosenPath) (currentNode st);
                  edgesCovered := edgesCovered st |}
        else Done st
    | None => Done st
    end
  else Done st.

(** The body of [for (const edge of edgeOrder)]. *)
Definition traverse_edge (nodes : list Node) (routes : list Route)
  (st : builder) (edge : Route) : res builder :=
  if bool_decide (route_id edge ∈ edgesCovered st) then Done st
  else
    st1 ← stitch nodes routes st edge;
    let next :=
      if bool_decide (currentNode st1 = startNodeId edge) then endNodeId edge
      else startNodeId edge in
    Done {| walk := {| path := path (walk st1) ++ [next];
                       totalDistance := totalDistance (walk st1) + distance edge |};
            currentNode := next;
            edgesCovered := {[route_id edge]} ∪ edgesCovered st1 |}.

Fixpoint traverse_edges (nodes : list Node) (routes : list Route)
  (st : builder) (edgeOrder : list Route) : res builder :=
  match edgeOrder with
  | [] => Done st
  | edge :: rest =>
      st1 ← traverse_edge nodes routes st edge;
      traverse_edges nodes routes st1 rest
  end.

(** The result type is [{ path, totalDistance } | null]. *)
Definition traverseEdgesInOrder (nodes : list Node) (routes : list Route)
  (startNodeId : Z) (edgeOrder : list Route) : res (option Walk) :=
  st ← traverse_edges nodes routes
         {| walk := {| path := [startNodeId]; totalDistance := 0 |};
            currentNode := startNodeId;
            edgesCovered := ∅ |} edgeOrder;
  returnPath ← findShortestPath nodes routes (currentNode st) startNodeId;
  match returnPath with
  | Some rp =>
      if (1 <? length (sp_path rp))%nat then
        Done (Some (follow routes (sp_path rp) (walk st)))
      else Done (Some (walk st))
  | None => Done (Some (walk st))
  end.

(** ** Edge orders *)

(** [getEdgePermutations]: the recursion is on a strictly shorter array;
    [fuel] bounds its depth. *)
Fixpoint getEdgePermutations_fuel (fuel : nat) (edges : list Route)
  : list (list Route) :=
  if (length edges <=? 1)%nat then [edges]
  else
    match fuel with
    | O => []
    | S fuel' =>
        flat_map
          (fun i =>
             match edges !! i with
             | Some current =>
                 let remaining := take i edges ++ drop (S i) edges in
                 map (cons current) (getEdgePermutations_fuel fuel' remaining)
             | None => []
             end)
          (seq 0 (length edges))
    end.

Definition getEdgePermutations (edges : list Route) : list (list Route) :=
  getEdgePermutations_fuel (length edges) edges.

(** [Array.prototype.sort] with a comparator: a stable sort, here by
    insertion. *)
Fixpoint insert_by (cmp : Route → Route → Z) (x : Route) (l : list Route)
  : list Route :=
  match l with
  | [] => [x]
  | y :: l' => if cmp x y <=? 0 then x :: l else y :: insert_by cmp x l'
  end.

Definition sort_by (cmp : Route → Route → Z) (l : list Route) : list Route :=
  foldr (insert_by cmp) [] l.

(** [generateSmartEdgeOrders].  [shuffle i edges] stands for the [i]-th
    evaluation of [[...edges].sort(() => Math.random() - 0.5)]. *)
Definition generateSmartEdgeOrders (shuffle : nat → list Route → list Route)
  (edges : list Route) : list (list Route) :=
  [sort_by (fun a b => distance a - distance b) edges;
   sort_by (fun a b => distance b - distance a) edges]
  ++ map (fun i => shuffle i edges) (seq 0 10).

Definition getAllEdgePermutations (shuffle : nat → list Route → list Route)
  (edges : list Route) : list (list Route) :=
  if (length edges <=? 1)%nat then [edges]
  else if (8 <? length edges)%nat then generateSmartEdgeOrders shuffle edges
  else getEdgePermutations edges.

(** ** The optimizer *)

Record BestPath := mkBestPath {
  best_path : list Z;
  best_distance : num
}.

(** [if (result && result.totalDistance < bestDistance) ...] *)
Definition keep_best (best : BestPath) (result : option Walk) : BestPath :=
  match result with
  | Some w =>
      if num_ltb (Fin (totalDistance w)) (best_distance best) then
        {| best_path := path w; best_distance := Fin (totalDistance w) |}
      else best
  | None => best
  end.

Fixpoint try_orders (nodes : list Node) (routes : list Route) (startNodeId : Z)
  (best : BestPath) (edgeOrders : list (list Route)) : res BestPath :=
  match edgeOrders with
  | [] => Done best
  | edgeOrder :: rest =>
      result ← traverseEdgesInOrder nodes routes startNodeId edgeOrder;
      try_orders nodes routes startNodeId (keep_best best result) rest
  end.

Definition findOptimalPathFromStart (shuffle : nat → list Route → list Route)
  (nodes : list Node) (routes : list Route) (startNodeId : Z)
  : res (option BestPath) :=
  best ← try_orders nodes routes startNodeId (mkBestPath [] Infinity)
           (getAllEdgePermutations shuffle routes);
  if (0 <? length (best_path best))%nat then Done (Some best) else Done None.

(** [if (result && result.totalDistance < globalMinDistance) ...] *)
Definition keep_global (best : BestPath) (result : option BestPath) : BestPath :=
  match result with
  | Some r => if num_ltb (best_distance r) (best_distance best) then r else best
  | None => best
  end.

Fixpoint try_starts (shuffle : nat → list Route → list Route)
  (nodes : list Node) (routes : list Route) (best : BestPath)
  (starts : list Node) : res BestPath :=
  match starts with
  | [] => Done best
  | startNode :: rest =>
      result ← findOptimalPathFromStart shuffle nodes routes (node_id startNode);
      try_starts shuffle nodes routes (keep_global best result) rest
  end.

(** What a call of [optimizeRoute] does: an [alert] and nothing else, or
    [setOptimizationResult(result)] and [onOptimize(result.path)]. *)
Inductive outcome :=
| Alert (message : string)
| Optimized (result : BestPath).

Definition optimizeRoute (shuffle : nat → list Route → list Route)
  (nodes : list Node) (routes : list Route) : res outcome :=
  if (length routes <? 1)%nat then
    Done (Alert "Please add at least 1 route to optimize the path")
  else if (12 <? length routes)%nat then
    Done (Alert "Optimization is limited to 12 or fewer routes to ensure reasonable computation time.")
  else
    result ← try_starts shuffle nodes routes (mkBestPath [] Infinity) nodes;
    Done (Optimized result).

(** ** Node labels ([utils/labelUtils.ts])

    A JavaScript string is a sequence of 16-bit code units, here a list of
    integers; [String.fromCharCode] reduces its argument modulo 2^16. *)

Definition fromCharCode (c : Z) : list Z := [c mod 65536].

(** [getNodeLabel], on an integer index.  [%] is the remainder that has the
    sign of the dividend, [Math.floor(x / y)] the floor of the quotient. *)
Definition getNodeLabel (index : Z) : list Z :=
  if index <? 26 then fromCharCode (97 + index)
  else if index <? 702 then
    let adjustedIndex := index - 26 in
    let firstLetter := adjustedIndex / 26 in
    let secondLetter := Z.rem adjustedIndex 26 in
    fromCharCode (97 + firstLetter) ++ fromCharCode (97 + secondLetter)
  else
    let adjustedIndex := index - 702 in
    let firstLetter := adjustedIndex / 676 in
    let remaining := Z.rem adjustedIndex 676 in
    let secondLetter := remaining / 26 in
    let thirdLetter := Z.rem remaining 26 in
    fromCharCode (97 + firstLetter) ++ fromCharCode (97 + secondLetter)
    ++ fromCharCode (97 + thirdLetter).

(** A code unit from [a] to [z]. *)
Definition lowercase (c : Z) : Prop := 97 <= c <= 122.

(** ** Drawing and enabling ([CanvasDrawer.tsx], [RouteOptimizer.tsx]) *)

(** [array.some((element, i) => ...)]. *)
Definition some_indexed {A} (f : A → nat → bool) (l : list A) : bool :=
  existsb (fun p => f (snd p) (fst p)) (imap pair l).

(** [x === array[i]], where [array[i]] is [undefined] out of range. *)
Definition equals_at (x : Z) (l : list Z) (i : nat) : bool :=
  match l !! i with
  | Some y => bool_decide (x = y)
  | None => false
  end.

(** [isOptimizedRoute] of [draw]: is the route drawn as a part of the
    optimized path. *)
Definition isOptimizedRoute (optimizedPath : list Z) (route : Route) : bool :=
  (0 <? length optimizedPath)%nat
  && some_indexed
       (fun nodeId i =>
          (Z.of_nat i <? Z.of_nat (length optimizedPath) - 1)
          && ((bool_decide (nodeId = startNodeId route)
               && equals_at (endNodeId route) optimizedPath (i + 1))
              || (bool_decide (nodeId = endNodeId route)
                  && equals_at (startNodeId route) optimizedPath (i + 1))))
       optimizedPath.

(** [canOptimize]: the optimize button is shown. *)
Definition canOptimize (nodes : list Node) (routes : list Route) : bool :=
  (2 <=? length nodes)%nat && (1 <=? length routes)%nat.

(** ** The graph editor ([CanvasDrawer.tsx])

    The editor keeps the nodes, the routes, the selected node and a history
    of snapshots for [undo].  Its geometry (the square root in
    [calculateDistance], the projection of the click onto a route in
    [findNearestRoute]) is floating-point arithmetic and is a parameter of
    the model: what is proved holds whatever these functions return.
    Coordinates and distances are integers, as the distances of the routes
    are.  The calls of [onRoutesUpdate], which hand the new routes and nodes
    to the parent component, and the canvas are not part of the state. *)

Record geometry := mkGeometry {
  (** [calculateDistance(x1, y1, x2, y2)] *)
  calculateDistance : Z → Z → Z → Z → Z;
  (** The body of the loop of [findNearestRoute] for one route whose two
      nodes exist: the insert point on the segment between the two nodes, if
      the click at [(x, y)] is near enough to it. *)
  insert_point : Z → Z → Node → Node → option (Z * Z)
}.

Record snapshot := mkSnapshot {
  snap_nodes : list Node;
  snap_routes : list Route
}.

Record editor := mkEditor {
  ed_nodes : list Node;
  ed_routes : list Route;
  selectedNode : option Z;
  history : list snapshot;
  currentStep : Z;
  isDrawingEnabled : bool
}.

(** A handler either runs to its end, and the component is rendered with the
    new state, or throws a [TypeError] at a property read from
    [undefined]. *)
Inductive handled :=
| Rendered (st : editor)
| TypeError.

(** [Math.max(...ids, 0) + 1] *)
Definition next_id (ids : list Z) : Z := foldr Z.max 0 ids + 1.

(** [nodes.find(n => n.id === id)] *)
Definition find_node (nodes : list Node) (id : Z) : option Node :=
  List.find (fun n => bool_decide (node_id n = id)) nodes.

(** The label of a node as a string of the model: one character for each
    code unit (code units are below 256 for fewer than 108186 nodes). *)
Definition label_text (units : list Z) : string :=
  String.string_of_list_ascii
    (map (fun c => Ascii.ascii_of_N (Z.to_N c)) units).

Definition findNearestNode (geo : geometry) (nodes : list Node) (x y : Z)
  : option Node :=
  fst (foldl
         (fun acc node =>
            let distance :=
              calculateDistance geo x y (node_x node) (node_y node) in
            if distance <? snd acc then (Some node, distance) else acc)
         (None, 10) nodes).

Definition isTooCloseToExistingNodes (geo : geometry) (nodes : list Node)
  (x y : Z) : bool :=
  existsb
    (fun node => calculateDistance geo x y (node_x node) (node_y node) <? 16)
    nodes.

Fixpoint findNearestRoute (geo : geometry) (nodes : list Node)
  (routes : list Route) (x y : Z) : option (Route * (Z * Z)) :=
  match routes with
  | [] => None
  | route :: rest =>
      match find_node nodes (startNodeId route),
            find_node nodes (endNodeId route) with
      | Some startNode, Some endNode =>
          match insert_point geo x y startNode endNode with
          | Some insertPoint => Some (route, insertPoint)
          | None => findNearestRoute geo nodes rest x y
          end
      | _, _ => findNearestRoute geo nodes rest x y
      end
  end.

(** [splitRoute]; [None] stands for the [TypeError] at [startNode.x] or
    [endNode.x] when the node is not found. *)
Definition splitRoute (geo : geometry) (nodes : list Node) (routes : list Route)
  (routeToSplit : Route) (newNode : Node) : option (list Route) :=
  match find_node nodes (startNodeId routeToSplit),
        find_node nodes (endNodeId routeToSplit) with
  | Some startNode, Some endNode =>
      let updatedRoutes :=
        filter (fun r => route_id r ≠ route_id routeToSplit) routes in
      let route1 :=
        {| route_id := next_id (map route_id routes);
           startNodeId := startNodeId routeToSplit;
           endNodeId := node_id newNode;
           distance := calculateDistance geo (node_x startNode) (node_y startNode)
                         (node_x newNode) (node_y newNode) |} in
      let route2 :=
        {| route_id := next_id (map route_id routes) + 1;
           startNodeId := node_id newNode;
           endNodeId := endNodeId routeToSplit;
           distance := calculateDistance geo (node_x newNode) (node_y newNode)
                         (node_x endNode) (node_y endNode) |} in
      Some (updatedRoutes ++ [route1; route2])
  | _, _ => None
  end.

(** [array.slice(0, end)]: a negative [end] counts from the end of the
    array. *)
Definition slice_to {A} (l : list A) (e : Z) : list A :=
  take (Z.to_nat (if e <? 0 then Z.of_nat (length l) + e else e)) l.

(** [saveToHistory]: the new [history] and the new [currentStep]. *)
Definition saveToHistory (st : editor) (newNodes : list Node)
  (newRoutes : list Route) : list snapshot * Z :=
  let newHistory :=
    slice_to (history st) (currentStep st + 1)
    ++ [mkSnapshot newNodes newRoutes] in
  (newHistory, Z.of_nat (length newHistory) - 1).

(** The new node of a click at [(x, y)]. *)
Definition new_node (nodes : list Node) (x y : Z) : Node :=
  {| node_id := next_id (map node_id nodes);
     node_x := x;
     node_y := y;
     label := label_text (getNodeLabel (Z.of_nat (length nodes))) |}.

(** The new route from the selected node, [None] when the selected node is
    not found (a [TypeError] at [startNode.x]). *)
Definition new_route (geo : geometry) (nodes : list Node) (routes : list Route)
  (selected : Z) (target : Node) : option Route :=
  match find_node nodes selected with
  | Some startNode =>
      Some {| route_id := next_id (map route_id routes);
              startNodeId := selected;
              endNodeId := node_id target;
              distance := calculateDistance geo (node_x startNode)
                            (node_y startNode) (node_x target) (node_y target) |}
  | None => None
  end.

(** [handleCanvasClick] for a click at [(x, y)] of the canvas (which exists,
    since it was clicked). *)
Definition handleCanvasClick (geo : geometry) (st : editor) (x y : Z)
  : handled :=
  if negb (isDrawingEnabled st) then Rendered st
  else
    let nodes := ed_nodes st in
    let routes := ed_routes st in
    match findNearestNode geo nodes x y with
    | Some clickedNode =>
        match selectedNode st with
        | None =>
            Rendered (mkEditor nodes routes (Some (node_id clickedNode))
                        (history st) (currentStep st) (isDrawingEnabled st))
        | Some selected =>
            if bool_decide (selected = node_id clickedNode) then
              Rendered (mkEditor nodes routes None
                          (history st) (currentStep st) (isDrawingEnabled st))
            else if negb (routeExists routes selected (node_id clickedNode)) then
              match new_route geo nodes routes selected clickedNode with
              | Some newRoute =>
                  let updatedRoutes := routes ++ [newRoute] in
                  let saved := saveToHistory st nodes updatedRoutes in
                  Rendered (mkEditor nodes updatedRoutes None
                              (fst saved) (snd saved) (isDrawingEnabled st))
              | None => TypeError
              end
            else
              Rendered (mkEditor nodes routes None
                          (history st) (currentStep st) (isDrawingEnabled st))
        end
    | None =>
        match findNearestRoute geo nodes routes x y with
        | Some (route, insertPoint) =>
            if negb (isTooCloseToExistingNodes geo nodes
                       (fst insertPoint) (snd insertPoint)) then
              let newNode := new_node nodes (fst insertPoint) (snd insertPoint) in
              let updatedNodes := nodes ++ [newNode] in
              match splitRoute geo nodes routes route newNode with
              | Some updatedRoutes =>
                  let saved := saveToHistory st updatedNodes updatedRoutes in
                  match selectedNode st with
                  | None =>
                      Rendered (mkEditor updatedNodes updatedRoutes
                                  (Some (node_id newNode))
                                  (fst saved) (snd saved) (isDrawingEnabled st))
                  | Some selected =>
                      if negb (routeExists routes selected (node_id newNode)) then
                        match new_route geo nodes updatedRoutes selected newNode with
                        | Some newRoute =>
                            Rendered (mkEditor updatedNodes
                                        (updatedRoutes ++ [newRoute]) None
                                        (fst saved) (snd saved)
                                        (isDrawingEnabled st))
                        | None => TypeError
                        end
                      else
                        Rendered (mkEditor updatedNodes updatedRoutes None
                                    (fst saved) (snd saved) (isDrawingEnabled st))
                  end
              | None => TypeError
              end
            else Rendered st
        | None =>
            match selectedNode st with
            | None =>
                if negb (isTooCloseToExistingNodes geo nodes x y) then
                  let newNode := new_node nodes x y in
                  let updatedNodes := nodes ++ [newNode] in
                  let saved := saveToHistory st updatedNodes routes in
                  Rendered (mkEditor updatedNodes routes (Some (node_id newNode))
                              (fst saved) (snd saved) (isDrawingEnabled st))
                else Rendered st
            | Some selected =>
                if negb (isTooCloseToExistingNodes geo nodes x y) then
                  let newNode := new_node nodes x y in
                  match new_route geo nodes routes selected newNode with
                  | Some newRoute =>
                      let updatedNodes := nodes ++ [newNode] in
                      let updatedRoutes := routes ++ [newRoute] in
                      let saved := saveToHistory st updatedNodes updatedRoutes in
                      Rendered (mkEditor updatedNodes updatedRoutes None
                                  (fst saved) (snd saved) (isDrawingEnabled st))
                  | None => TypeError
                  end
                else
                  Rendered (mkEditor nodes routes None
                              (history st) (currentStep st) (isDrawingEnabled st))
            end
        end
    end.

(** [undo]; [history[currentStep - 1]] is [undefined] out of range, and the
    read of its [nodes] then throws. *)
Definition undo (st : editor) : handled :=
  if 0 <? currentStep st then
    match history st !! Z.to_nat (currentStep st - 1) with
    | Some previousState =>
        Rendered (mkEditor (snap_nodes previousState) (snap_routes previousState)
                    None (history st) (currentStep st - 1) (isDrawingEnabled st))
    | None => TypeError
    end
  else Rendered st.

Definition clearAll (st : editor) : editor :=
  mkEditor [] [] None [] (-1) true.

Definition toggleDrawing (st : editor) : editor :=
  mkEditor (ed_nodes st) (ed_routes st)
    (if isDrawingEnabled st then None else selectedNode st)
    (history st) (currentStep st) (negb (isDrawingEnabled st)).

(** The effect that runs after a render when [history.length] has changed:
    an empty history is replaced by the history of the empty graph.  It is a
    no-operation on any other history, so the model runs it after every
    event. *)
Definition init_history (st : editor) : editor :=
  if (length (history st) =? 0)%nat then
    mkEditor (ed_nodes st) (ed_routes st) (selectedNode st)
      [mkSnapshot [] []] 0 (isDrawingEnabled st)
  else st.

(** The component after it is mounted. *)
Definition mounted : editor := init_history (mkEditor [] [] None [] (-1) true).

Inductive event :=
| Click (x y : Z)
| Undo
| ClearAll
| ToggleDrawing.

(** One event: the handler, then the effect.  The undo button is disabled
    while [currentStep <= 0 || !isDrawingEnabled]. *)
Definition dispatch (geo : geometry) (st : editor) (ev : event) : handled :=
  let after :=
    match ev with
    | Click x y => handleCanvasClick geo st x y
    | Undo =>
        if (currentStep st <=? 0) || negb (isDrawingEnabled st) then Rendered st
        else undo st
    | ClearAll => Rendered (clearAll st)
    | ToggleDrawing => Rendered (toggleDrawing st)
    end in
  match after with
  | Rendered st' => Rendered (init_history st')
  | TypeError => TypeError
  end.

(** The states of the editor that a sequence of events leads to. *)
Inductive editable (geo : geometry) : editor → Prop :=
| editable_mounted : editable geo mounted
| editable_event st ev st' :
    editable geo st → dispatch geo st ev = Rendered st' → editable geo st'.

(** ** Vocabulary of the specification *)

(** Route [r] joins [a] and [b], in either direction. *)
Definition joins (r : Route) (a b : Z) : Prop :=
  (startNodeId r = a ∧ endNodeId r = b) ∨ (endNodeId r = a ∧ startNodeId r = b).

(** [wpath routes s l t w]: the node sequence [l] leads from [s] to [t]
    along routes of [routes] whose distances add up to [w]. *)
Inductive wpath (routes : list Route) (s : Z) : list Z → Z → Z → Prop :=
| wpath_nil : wpath routes s [s] s 0
| wpath_snoc l x w r y :
    wpath routes s l x w → r ∈ routes → joins r x y →
    wpath routes s (l ++ [y]) y (w + distance r).

Definition reachable (routes : list Route) (s t : Z) : Prop :=
  ∃ l w, wpath routes s l t w.

(** The invariants of the data model (section 3 of the specification): every
    route end is the identifier of a node, distances are not negative. *)
Definition endpoints_known (nodes : list Node) (routes : list Route) : Prop :=
  Forall (fun r => startNodeId r ∈ map node_id nodes
                   ∧ endNodeId r ∈ map node_id nodes) routes.

Definition nonneg_distances (routes : list Route) : Prop :=
  Forall (fun r => 0 <= distance r) routes.

(** [prev_chain prev x l]: following [previous] back from [x] up to a [null]
    entry visits the nodes of [l], listed from the root to [x]. *)
Inductive prev_chain (prev : gmap Z (option Z)) : Z → list Z → Prop :=
| prev_chain_root x : prev !! x = Some None → prev_chain prev x [x]
| prev_chain_step x p l :
    prev !! x = Some (Some p) → prev_chain prev p l →
    prev_chain prev x (l ++ [x]).

(** One full turn of the main loop that neither breaks nor returns. *)
Definition visit (routes : list Route) (st : dijkstra) (current : Z)
  (minDistance : num) : dijkstra :=
  foldl (relax current minDistance)
    {| distances := distances st;
       previous := previous st;
       unvisited := set_delete current (unvisited st) |} routes.

Definition step (routes : list Route) (endId : Z) (st st' : dijkstra) : Prop :=
  ∃ current d,
    find_smallest (distances st) (unvisited st) = (Some current, Fin d)
    ∧ current ≠ endId
    ∧ st' = visit routes st current (Fin d).

(** What is known about a node with a finite tentative distance [d]. *)
Definition good_chain (nodes : list Node) (routes : list Route) (startId : Z)
  (st : dijkstra) (x : Z) (d : Z) (l : list Z) : Prop :=
  prev_chain (previous st) x l
  ∧ wpath routes startId l x d
  ∧ NoDup l
  ∧ (∀ y, y ∈ l → y ∈ map node_id nodes)
  ∧ (∀ y, y ∈ l → y ≠ x → y ∉ unvisited st).

(** The part of the loop invariant that holds on every graph, also in the
    middle of the scan of the routes out of [current]. *)
Record Inv0 (nodes : list Node) (routes : list Route) (startId endId : Z)
  (st : dijkstra) : Prop := mkInv0 {
  inv_unv : ∀ x, x ∈ unvisited st → x ∈ map node_id nodes;
  inv_dom : ∀ x, x ∈ map node_id nodes → is_Some (distances st !! x);
  inv_chain : ∀ x d, x ∈ map node_id nodes → distances st !! x = Some (Fin d) →
                     ∃ l, good_chain nodes routes startId st x d l;
  inv_fresh : startId ∈ unvisited st →
              ∀ x, x ≠ startId → x ∈ map node_id nodes →
                   distances st !! x = Some Infinity;
  inv_start : startId ∈ map node_id nodes → distances st !! startId = Some (Fin 0);
  inv_fin : ∀ v, v ∈ map node_id nodes → v ∉ unvisited st →
                 ∃ dv, distances st !! v = Some (Fin dv);
  inv_end : endId ∈ map node_id nodes → endId ∈ unvisited st
}.

(** Every route from a visited node [v] to an unvisited node [u] has been
    checked, except those that are still [pending]. *)
Definition Relaxed (nodes : list Node) (routes : list Route)
  (pending : Z → Route → Prop) (st : dijkstra) : Prop :=
  ∀ v dv r u, v ∈ map node_id nodes → v ∉ unvisited st →
              distances st !! v = Some (Fin dv) →
              r ∈ routes → joins r v u → u ∈ unvisited st →
              pending v r
              ∨ ∃ du, distances st !! u = Some (Fin du) ∧ du <= dv + distance r.

(** The loop invariant between two turns of the main loop. *)
Definition Inv (nodes : list Node) (routes : list Route) (startId endId : Z)
  (st : dijkstra) : Prop :=
  Inv0 nodes routes startId endId st
  ∧ Relaxed nodes routes (fun _ _ => False) st.

(** What holds during the scan of the routes out of [current]. *)
Definition Scanning (nodes : list Node) (startId current : Z) (dc : Z)
  (st : dijkstra) : Prop :=
  (startId ∉ unvisited st)
  ∧ (current ∉ unvisited st)
  ∧ current ∈ map node_id nodes
  ∧ distances st !! current = Some (Fin dc).

(** Visited nodes carry their final, smallest distance. *)
Definition Settled (nodes : list Node) (routes : list Route) (startId : Z)
  (st : dijkstra) : Prop :=
  ∀ v dv l w, v ∈ map node_id nodes → v ∉ unvisited st →
              distances st !! v = Some (Fin dv) →
              wpath routes startId l v w → dv <= w.

(** The edges of an order that the walk builder does not skip: the first
    edge of each identifier not yet in [covered]. *)
Fixpoint distinct_edges (covered : gset Z) (edgeOrder : list Route)
  : list Route :=
  match edgeOrder with
  | [] => []
  | edge :: rest =>
      if bool_decide (route_id edge ∈ covered) then distinct_edges covered rest
      else edge :: distinct_edges ({[route_id edge]} ∪ covered) rest
  end.

Definition total_weight (edges : list Route) : Z :=
  foldr (fun edge acc => distance edge + acc) 0 edges.

(** The sum of the distances as the walk builder adds them up: to the total
    so far, from the first edge to the last. *)
Definition weight_in_order (edges : list Route) : Z :=
  foldl (fun total edge => total + distance edge) 0 edges.

(** A graph the optimizer is meant for (sections 3 and 4.4 of the
    specification). *)
Definition valid_graph (nodes : list Node) (routes : list Route) : Prop :=
  endpoints_known nodes routes
  ∧ nonneg_distances routes
  ∧ (1 ≤ length routes ≤ 12)%nat.

(** A node sequence that begins and ends at the same node. *)
Definition closed_walk (p : list Z) : Prop :=
  ∃ x, head p = Some x ∧ last p = Some x.

(** Two consecutive nodes of [p] are the two ends of [r]. *)
Definition traverses (p : list Z) (r : Route) : Prop :=
  ∃ i a b, p !! i = Some a ∧ p !! S i = Some b ∧ joins r a b.

Definition covers (p : list Z) (routes : list Route) : Prop :=
  ∀ r, r ∈ routes → traverses p r.

(** Every node can be reached from every node. *)
Definition connected (nodes : list Node) (routes : list Route) : Prop :=
  ∀ a b, a ∈ map node_id nodes → b ∈ map node_id nodes → reachable routes a b.

(** The walk of the builder starts at [startNodeId] and ends at the current
    node, which is a node of the graph. *)
Definition at_current (nodes : list Node) (startNodeId : Z) (st : builder)
  : Prop :=
  currentNode st ∈ map node_id nodes
  ∧ last (path (walk st)) = Some (currentNode st)
  ∧ head (path (walk st)) = Some startNodeId.

(** Each two consecutive nodes of [p] are joined by a route. *)
Definition linked (routes : list Route) (p : list Z) : Prop :=
  ∀ i a b, p !! i = Some a → p !! S i = Some b →
           ∃ r, r ∈ routes ∧ joins r a b.

(** Every node is at least 16 away from the nodes that were added before it
    (the test of [isTooCloseToExistingNodes]). *)
Definition spaced (geo : geometry) (nodes : list Node) : Prop :=
  ∀ i j a b, (i < j)%nat → nodes !! i = Some a → nodes !! j = Some b →
    16 <= calculateDistance geo (node_x b) (node_y b) (node_x a) (node_y a).

(** What every graph of the editor satisfies; [P] is any property that all
    values of [calculateDistance] have. *)
Definition graph_ok (geo : geometry) (P : Z → Prop) (nodes : list Node)
  (routes : list Route) : Prop :=
  map node_id nodes = seqZ 1 (Z.of_nat (length nodes))
  ∧ map label nodes
    = map (fun k => label_text (getNodeLabel k)) (seqZ 0 (Z.of_nat (length nodes)))
  ∧ NoDup (map route_id routes)
  ∧ endpoints_known nodes routes
  ∧ Forall (fun r => startNodeId r ≠ endNodeId r) routes
  ∧ Forall (fun r => P (distance r)) routes
  ∧ spaced geo nodes.

Definition editor_ok (geo : geometry) (P : Z → Prop) (st : editor) : Prop :=
  graph_ok geo P (ed_nodes st) (ed_routes st)
  ∧ (∀ s, selectedNode st = Some s → s ∈ map node_id (ed_nodes st))
  ∧ 0 <= currentStep st < Z.of_nat (length (history st))
  ∧ Forall (fun h => graph_ok geo P (snap_nodes h) (snap_routes h)) (history st).

(** The entry of the history at [currentStep] is the graph on the screen. *)
Definition history_current (st : editor) : Prop :=
  history st !! Z.to_nat (currentStep st)
  = Some (mkSnapshot (ed_nodes st) (ed_routes st)).

(** The click at [(x, y)] splits a route while a node is selected. *)
Definition splits_with_selection (geo : geometry) (st : editor) (x y : Z)
  : Prop :=
  isDrawingEnabled st = true
  ∧ is_Some (selectedNode st)
  ∧ findNearestNode geo (ed_nodes st) x y = None
  ∧ ∃ route insertPoint,
      findNearestRoute geo (ed_nodes st) (ed_routes st) x y
      = Some (route, insertPoint)
      ∧ isTooCloseToExistingNodes geo (ed_nodes st)
          (fst insertPoint) (snd insertPoint) = false.

(** The optimizer shows an [alert] and returns. *)
Definition rejected (o : res outcome) : Prop :=
  ∃ message, o = Done (Alert message).

(** ** Sample graphs *)

(** One possible behaviour of the sort under the random comparator: the
    array is left as it is. *)
Definition no_shuffle (i : nat) (edges : list Route) : list Route := edges.

(** Two routes that share no node: [a-b] and [c-d] (section 8 of the
    specification). *)
Definition apart_nodes : list Node :=
  [mkNode 1 0 0 "a"; mkNode 2 10 0 "b"; mkNode 3 0 20 "c"; mkNode 4 10 20 "d"].

Definition apart_routes : list Route :=
  [mkRoute 1 1 2 10; mkRoute 2 3 4 10].

(** A triangle [a-b], [b-c], [a-c]. *)
Definition triangle_nodes : list Node :=
  [mkNode 1 0 0 "a"; mkNode 2 10 0 "b"; mkNode 3 10 10 "c"].

Definition triangle_routes : list Route :=
  [mkRoute 1 1 2 10; mkRoute 2 2 3 10; mkRoute 3 1 3 14].

(** One route [a-b]. *)
Definition pair_nodes : list Node := [mkNode 1 0 0 "a"; mkNode 2 10 0 "b"].

(** A route of negative distance, and a route to a node that does not
    exist. *)
Definition negative_routes : list Route := [mkRoute 1 1 2 (-5)].
Definition dangling_routes : list Route := [mkRoute 1 1 7 10].

(** ** The walk builder in double arithmetic

    The optimizer again, with the [number]s of the distances as IEEE doubles
    (the primitive floats of the kernel) instead of exact integers:
    [Infinity] is the double [infinity], [+] and [<] are the operations of
    doubles.  Apart from the numbers the definitions are those above; they
    show where the rounding of the additions matters. *)
Module Doubles.

Record Route := mkRoute {
  route_id : Z;
  startNodeId : Z;
  endNodeId : Z;
  distance : float
}.

(** [calculateDistance] of [CanvasDrawer.tsx], which gives the routes of the
    editor their distances.  [Math.pow(d, 2)] is the product [d * d]. *)
Definition calculateDistance (x1 y1 x2 y2 : float) : float :=
  PrimFloat.sqrt
    (PrimFloat.add (PrimFloat.mul (PrimFloat.sub x2 x1) (PrimFloat.sub x2 x1))
       (PrimFloat.mul (PrimFloat.sub y2 y1) (PrimFloat.sub y2 y1))).

Record ShortestPath := mkShortestPath {
  sp_path : list Z;
  sp_distance : float
}.

Record dijkstra := mkDijkstra {
  distances : gmap Z float;
  previous : gmap Z (option Z);
  unvisited : list Z
}.

Definition init_node (st : dijkstra) (node : Node) : dijkstra :=
  {| distances := <[node_id node := PrimFloat.infinity]> (distances st);
     previous := <[node_id node := None]> (previous st);
     unvisited := set_add (node_id node) (unvisited st) |}.

Definition dijkstra_init (nodes : list Node) (startId : Z) : dijkstra :=
  let st := foldl init_node (mkDijkstra ∅ ∅ []) nodes in
  {| distances := <[startId := 0%float]> (distances st);
     previous := previous st;
     unvisited := unvisited st |}.

Definition scan_step (dist : gmap Z float) (acc : option Z * float) (nodeId : Z)
  : option Z * float :=
  match dist !! nodeId with
  | Some d => if PrimFloat.ltb d (snd acc) then (Some nodeId, d) else acc
  | None => acc
  end.

Definition find_smallest (dist : gmap Z float) (unv : list Z)
  : option Z * float :=
  foldl (scan_step dist) (None, PrimFloat.infinity) unv.

Definition relax (current : Z) (dcur : float) (st : dijkstra) (route : Route)
  : dijkstra :=
  let neighbor :=
    if bool_decide (startNodeId route = current) then Some (endNodeId route)
    else if bool_decide (endNodeId route = current) then Some (startNodeId route)
    else None in
  match neighbor with
  | Some nb =>
      if set_has nb (unvisited st) then
        let altDistance := PrimFloat.add dcur (distance route) in
        match distances st !! nb with
        | Some dn =>
            if PrimFloat.ltb altDistance dn then
              {| distances := <[nb := altDistance]> (distances st);
                 previous := <[nb := Some current]> (previous st);
                 unvisited := unvisited st |}
            else st
        | None => st
        end
      else st
  | None => st
  end.

Fixpoint dijkstra_loop (fuel rfuel : nat) (routes : list Route) (endId : Z)
  (st : dijkstra) : res (option ShortestPath) :=
  match unvisited st with
  | [] => Done None
  | _ :: _ =>
      match fuel with
      | O => Spin
      | S fuel' =>
          match find_smallest (distances st) (unvisited st) with
          | (None, _) => Done None
          | (Some current, minDistance) =>
              if PrimFloat.eqb minDistance PrimFloat.infinity then Done None
              else
                let st1 := {| distances := distances st;
                              previous := previous st;
                              unvisited := set_delete current (unvisited st) |} in
                if bool_decide (current = endId) then
                  path ← reconstruct rfuel (previous st1) endId [];
                  Done (Some (mkShortestPath path minDistance))
                else
                  dijkstra_loop fuel' rfuel routes endId
                    (foldl (relax current minDistance) st1 routes)
          end
      end
  end.

Definition findShortestPath (nodes : list Node) (routes : list Route)
  (startId endId : Z) : res (option ShortestPath) :=
  if bool_decide (startId = endId) then
    Done (Some (mkShortestPath [startId] 0%float))
  else
    dijkstra_loop (S (length nodes)) (S (length nodes)) routes endId
      (dijkstra_init nodes startId).

Definition connects (nodeId1 nodeId2 : Z) (r : Route) : bool :=
  (bool_decide (startNodeId r = nodeId1) && bool_decide (endNodeId r = nodeId2))
  || (bool_decide (startNodeId r = nodeId2) && bool_decide (endNodeId r = nodeId1)).

Definition getDistanceBetweenNodes (routes : list Route) (nodeId1 nodeId2 : Z)
  : float :=
  match List.find (connects nodeId1 nodeId2) routes with
  | Some route => distance route
  | None => 0%float
  end.

Record Walk := mkWalk {
  path : list Z;
  totalDistance : float
}.

Record builder := mkBuilder {
  walk : Walk;
  currentNode : Z;
  edgesCovered : gset Z
}.

Fixpoint append_hops (routes : list Route) (from : Z) (rest : list Z) (w : Walk)
  : Walk :=
  match rest with
  | [] => w
  | x :: rest' =>
      append_hops routes x rest'
        {| path := path w ++ [x];
           totalDistance :=
             PrimFloat.add (totalDistance w)
               (getDistanceBetweenNodes routes from x) |}
  end.

Definition follow (routes : list Route) (p : list Z) (w : Walk) : Walk :=
  match p with
  | [] => w
  | p0 :: rest => append_hops routes p0 rest w
  end.

Definition choose_path (pathToStart pathToEnd : option ShortestPath)
  : option ShortestPath :=
  match pathToEnd with
  | Some pe =>
      match pathToStart with
      | None => pathToEnd
      | Some ps =>
          if PrimFloat.ltb (sp_distance pe) (sp_distance ps) then pathToEnd
          else pathToStart
      end
  | None => pathToStart
  end.

Definition stitch (nodes : list Node) (routes : list Route) (st : builder)
  (edge : Route) : res builder :=
  if bool_decide (currentNode st ≠ startNodeId edge)
     && bool_decide (currentNode st ≠ endNodeId edge) then
    pathToStart ← findShortestPath nodes routes (currentNode st) (startNodeId edge);
    pathToEnd ← findShortestPath nodes routes (currentNode st) (endNodeId edge);
    match choose_path pathToStart pathToEnd with
    | Some chosenPath =>
        if (1 <? length (sp_path chosenPath))%nat then
          Done {| walk := follow routes (sp_path chosenPath) (walk st);
                  currentNode := List.last (sp_path chosenPath) (currentNode st);
                  edgesCovered := edgesCovered st |}
        else Done st
    | None => Done st
    end
  else Done st.

Definition traverse_edge (nodes : list Node) (routes : list Route)
  (st : builder) (edge : Route) : res builder :=
  if bool_decide (route_id edge ∈ edgesCovered st) then Done st
  else
    st1 ← stitch nodes routes st edge;
    let next :=
      if bool_decide (currentNode st1 = startNodeId edge) then endNodeId edge
      else startNodeId edge in
    Done {| walk := {| path := path (walk st1) ++ [next];
                       totalDistance :=
                         PrimFloat.add (totalDistance (walk st1)) (distance edge) |};
            currentNode := next;
            edgesCovered := {[route_id edge]} ∪ edgesCovered st1 |}.

Fixpoint traverse_edges (nodes : list Node) (routes : list Route)
  (st : builder) (edgeOrder : list Route) : res builder :=
  match edgeOrder with
  | [] => Done st
  | edge :: rest =>
      st1 ← traverse_edge nodes routes st edge;
      traverse_edges nodes routes st1 rest
  end.

Definition traverseEdgesInOrder (nodes : list Node) (routes : list Route)
  (startNodeId : Z) (edgeOrder : list Route) : res (option Walk) :=
  st ← traverse_edges nodes routes
         {| walk := {| path := [startNodeId]; totalDistance := 0%float |};
            currentNode := startNodeId;
            edgesCovered := ∅ |} edgeOrder;
  returnPath ← findShortestPath nodes routes (currentNode st) startNodeId;
  match returnPath with
  | Some rp =>
      if (1 <? length (sp_path rp))%nat then
        Done (Some (follow routes (sp_path rp) (walk st)))
      else Done (Some (walk st))
  | None => Done (Some (walk st))
  end.

(** The value of a finite double, as an integer: the value times [2 ^ 1074]
    (the smallest positive double is [2 ^ -1074]). *)
Definition exact (x : float) : Z :=
  match FloatOps.Prim2SF x with
  | SpecFloat.S754_finite s m e =>
      (if s then Z.neg m else Z.pos m) * 2 ^ (e + 1074)
  | _ => 0
  end.


(** The sum of the distances, each added with the [+] of doubles, from the
    last to the first and from the first to the last. *)
Definition total_weight (edges : list Route) : float :=
  foldr (fun edge acc => PrimFloat.add (distance edge) acc) 0%float edges.

Definition weight_in_order (edges : list Route) : float :=
  foldl (fun total edge => PrimFloat.add total (distance edge)) 0%float edges.

End Doubles.



(** ** Sample drawings *)

(** A geometry on integer coordinates: the distance is the Euclidean
    distance rounded down, and a click is projected onto a route when the
    route is horizontal and the click lies at most 15 above or below it,
    between its two ends. *)
Definition sample_geometry : geometry :=
  {| calculateDistance := fun x1 y1 x2 y2 =>
       Z.sqrt ((x2 - x1) * (x2 - x1) + (y2 - y1) * (y2 - y1));
     insert_point := fun x y startNode endNode =>
       if (node_y startNode =? node_y endNode)
          && negb (node_x startNode =? node_x endNode)
          && (Z.min (node_x startNode) (node_x endNode) <=? x)
          && (x <=? Z.max (node_x startNode) (node_x endNode))
          && (Z.abs (y - node_y startNode) <=? 15)
       then Some (x, node_y startNode)
       else None |}.

(** A sequence of events, one after the other. *)
Fixpoint run_events (geo : geometry) (st : editor) (events : list event)
  : handled :=
  match events with
  | [] => Rendered st
  | ev :: events =>
      match dispatch geo st ev with
      | Rendered st' => run_events geo st' events
      | TypeError => TypeError
      end
  end.

(** The editor after a sequence of events on the mounted component, in the
    sample geometry. *)
Definition drawn (events : list event) : editor :=
  match run_events sample_geometry mounted events with
  | Rendered st => st
  | TypeError => mounted
  end.

(** Two nodes [a] at (0, 0) and [b] at (100, 0) and the route between them;
    the same with [a] selected; and with a third node [c] at (50, 50). *)
Definition line_drawn : editor := drawn [Click 0 0; Click 100 0].
Definition line_selected : editor := drawn [Click 0 0; Click 100 0; Click 0 0].
Definition line_and_node : editor :=
  drawn [Click 0 0; Click 100 0; Click 50 50].

Definition line_route : Route := mkRoute 1 1 2 100.


(** * Proofs *)

(** ** Numbers *)

Lemma num_ltb_Fin a b : num_ltb (Fin a) (Fin b) = true ↔ a < b.
Proof. simpl. apply Z.ltb_lt. Qed.

Lemma num_ltb_false_le a b : num_ltb a b = false → num_le b a.
Proof.
  destruct a, b; simpl; try done.
  intros H. apply Z.ltb_ge in H. lia.
Qed.

Lemma num_ltb_true_le a b : num_ltb a b = true → num_le a b.
Proof.
  destruct a, b; simpl; try done.
  intros H. apply Z.ltb_lt in H. lia.
Qed.

Lemma num_le_trans a b c : num_le a b → num_le b c → num_le a c.
Proof. destruct a, b, c; simpl; try done. lia. Qed.

Lemma num_le_refl a : num_le a a.
Proof. destruct a; simpl; [lia | done]. Qed.

(** ** The insertion-ordered set *)

Lemma elem_of_set_add x y s : x ∈ set_add y s ↔ x = y ∨ x ∈ s.
Proof.
  unfold set_add. case_bool_decide.
  - split; [auto | intros [-> | ?]; done].
  - rewrite elem_of_app, elem_of_cons, elem_of_nil. tauto.
Qed.

Lemma length_set_add y s : (length (set_add y s) ≤ S (length s))%nat.
Proof.
  unfold set_add. case_bool_decide; [lia |].
  rewrite length_app. simpl. lia.
Qed.

Lemma elem_of_set_delete x y s : x ∈ set_delete y s ↔ x ≠ y ∧ x ∈ s.
Proof. unfold set_delete. by rewrite list_elem_of_filter. Qed.

Lemma length_set_delete y s :
  y ∈ s → (length (set_delete y s) < length s)%nat.
Proof.
  intros Hy. unfold set_delete.
  apply (length_filter_lt _ _ y); [done | tauto].
Qed.

(** ** The scan for the smallest tentative distance *)

Lemma scan_fold dist unv c0 m0 c m :
  foldl (scan_step dist) (c0, m0) unv = (c, m) →
  num_le m m0
  ∧ (∀ y dy, y ∈ unv → dist !! y = Some dy → num_le m dy)
  ∧ ((c = c0 ∧ m = m0)
     ∨ (∃ x, c = Some x ∧ x ∈ unv ∧ dist !! x = Some m ∧ num_ltb m m0 = true)).
Proof.
  revert c0 m0. induction unv as [|a unv IH]; intros c0 m0 Hf; simpl in Hf.
  - inversion Hf; subst. split; [apply num_le_refl |].
    split; [intros y dy Hy; by apply elem_of_nil in Hy | by left].
  - unfold scan_step at 2 in Hf. simpl in Hf.
    destruct (dist !! a) as [da|] eqn:Ha.
    + destruct (num_ltb da m0) eqn:Hlt.
      * apply IH in Hf as (Hle & Hmin & Hsel).
        split; [eapply num_le_trans; [done | by apply num_ltb_true_le] |].
        split.
        -- intros y dy Hy Hdy. apply elem_of_cons in Hy as [-> | Hy].
           ++ rewrite Ha in Hdy. by inversion Hdy; subst.
           ++ by eapply Hmin.
        -- right. destruct Hsel as [[-> ->] | (x & -> & Hx & Hdx & Hxlt)].
           ++ exists a. repeat split; [apply list_elem_of_here | done | done].
           ++ exists x. repeat split; [by apply list_elem_of_further | done |].
              destruct m, da, m0; simpl in *; try done.
              apply Z.ltb_lt in Hxlt, Hlt. apply Z.ltb_lt. lia.
      * apply IH in Hf as (Hle & Hmin & Hsel).
        split; [done |]. split.
        -- intros y dy Hy Hdy. apply elem_of_cons in Hy as [-> | Hy].
           ++ rewrite Ha in Hdy. inversion Hdy; subst.
              eapply num_le_trans; [done | by apply num_ltb_false_le].
           ++ by eapply Hmin.
        -- destruct Hsel as [? | (x & -> & Hx & Hdx & Hxlt)]; [by left |].
           right. exists x. repeat split; [by apply list_elem_of_further | done | done].
    + apply IH in Hf as (Hle & Hmin & Hsel).
      split; [done |]. split.
      * intros y dy Hy Hdy. apply elem_of_cons in Hy as [-> | Hy].
        -- rewrite Ha in Hdy. done.
        -- by eapply Hmin.
      * destruct Hsel as [? | (x & -> & Hx & Hdx & Hxlt)]; [by left |].
        right. exists x. repeat split; [by apply list_elem_of_further | done | done].
Qed.

Lemma find_smallest_Some dist unv c m :
  find_smallest dist unv = (Some c, m) →
  ∃ d, m = Fin d ∧ c ∈ unv ∧ dist !! c = Some (Fin d)
       ∧ ∀ y dy, y ∈ unv → dist !! y = Some dy → num_le (Fin d) dy.
Proof.
  intros Hf. apply scan_fold in Hf as (_ & Hmin & [[? _] | (x & Hc & Hx & Hdx & Hlt)]);
    [done |].
  inversion Hc; subst x. destruct m as [d|]; [| done].
  exists d. done.
Qed.

Lemma find_smallest_None dist unv m :
  find_smallest dist unv = (None, m) →
  ∀ y dy, y ∈ unv → dist !! y = Some dy → dy = Infinity.
Proof.
  intros Hf. apply scan_fold in Hf as (_ & Hmin & [[_ ->] | (x & ? & _)]);
    [| done].
  intros y dy Hy Hdy. specialize (Hmin y dy Hy Hdy). by destruct dy.
Qed.

(** ** Initialisation *)

Lemma init_unvisited nodes st x :
  x ∈ unvisited (foldl init_node st nodes)
  ↔ x ∈ unvisited st ∨ x ∈ map node_id nodes.
Proof.
  revert st. induction nodes as [|a nodes IH]; intros st; simpl.
  - rewrite elem_of_nil. tauto.
  - rewrite IH. simpl. rewrite elem_of_set_add, elem_of_cons. tauto.
Qed.

Lemma init_unvisited_length nodes st :
  (length (unvisited (foldl init_node st nodes))
   ≤ length (unvisited st) + length nodes)%nat.
Proof.
  revert st. induction nodes as [|a nodes IH]; intros st; simpl; [lia |].
  etrans; [apply IH |]. simpl.
  pose proof (length_set_add (node_id a) (unvisited st)). lia.
Qed.

Lemma init_distances nodes st x :
  distances (foldl init_node st nodes) !! x
  = if bool_decide (x ∈ map node_id nodes) then Some Infinity
    else distances st !! x.
Proof.
  revert st. induction nodes as [|a nodes IH]; intros st; [done |].
  change (foldl init_node st (a :: nodes))
    with (foldl init_node (init_node st a) nodes).
  change (map node_id (a :: nodes)) with (node_id a :: map node_id nodes).
  rewrite IH. unfold init_node; cbn [distances].
  - destruct (decide (x = node_id a)) as [-> | Hne].
    + rewrite lookup_insert_eq.
      rewrite (bool_decide_true (_ ∈ _ :: _)) by apply list_elem_of_here.
      by case_bool_decide.
    + rewrite lookup_insert_ne by done.
      case_bool_decide as H1; case_bool_decide as H2; try done;
        exfalso; rewrite elem_of_cons in H2; tauto.
Qed.

Lemma init_previous nodes st x :
  previous (foldl init_node st nodes) !! x
  = if bool_decide (x ∈ map node_id nodes) then Some None
    else previous st !! x.
Proof.
  revert st. induction nodes as [|a nodes IH]; intros st; [done |].
  change (foldl init_node st (a :: nodes))
    with (foldl init_node (init_node st a) nodes).
  change (map node_id (a :: nodes)) with (node_id a :: map node_id nodes).
  rewrite IH. unfold init_node; cbn [previous].
  - destruct (decide (x = node_id a)) as [-> | Hne].
    + rewrite lookup_insert_eq.
      rewrite (bool_decide_true (_ ∈ _ :: _)) by apply list_elem_of_here.
      by case_bool_decide.
    + rewrite lookup_insert_ne by done.
      case_bool_decide as H1; case_bool_decide as H2; try done;
        exfalso; rewrite elem_of_cons in H2; tauto.
Qed.

(** ** Paths and chains of [previous] entries *)

Lemma wpath_last routes s l t w : wpath routes s l t w → last l = Some t.
Proof. induction 1; [done | apply last_snoc]. Qed.

Lemma wpath_head routes s l t w : wpath routes s l t w → head l = Some s.
Proof.
  induction 1 as [|l x w r y Hp IH Hr Hj]; [done |].
  destruct l; [done | by simpl in *].
Qed.

Lemma wpath_nonneg routes s l t w :
  nonneg_distances routes → wpath routes s l t w → 0 <= w.
Proof.
  intros Hnn. induction 1 as [|l x w r y Hp IH Hr Hj]; [lia |].
  pose proof (proj1 (Forall_forall _ _) Hnn r Hr) as Hr0. simpl in Hr0. lia.
Qed.

Lemma wpath_linked routes s l t w :
  wpath routes s l t w →
  ∀ i a b, l !! i = Some a → l !! S i = Some b →
           ∃ r, r ∈ routes ∧ joins r a b.
Proof.
  induction 1 as [|l x w r y Hp IH Hr Hj]; intros i a b Ha Hb.
  - by destruct i.
  - assert (Hlen : (S i < length (l ++ [y]))%nat) by by eapply lookup_lt_Some.
    rewrite length_app in Hlen. simpl in Hlen.
    destruct (decide (S i = length l)) as [Heq | Hne].
    + rewrite lookup_app_l in Ha by lia.
      rewrite lookup_app_r in Hb by lia.
      rewrite Heq, Nat.sub_diag in Hb. simpl in Hb. inversion Hb; subst b.
      apply wpath_last in Hp. rewrite last_lookup in Hp.
      replace (pred (length l)) with i in Hp by lia.
      rewrite Ha in Hp. inversion Hp; subst a. eauto.
    + rewrite lookup_app_l in Ha by lia.
      rewrite lookup_app_l in Hb by lia. eauto.
Qed.

Lemma prev_chain_insert prev x l k v :
  prev_chain prev x l → k ∉ l → prev_chain (<[k := v]> prev) x l.
Proof.
  induction 1 as [x Hx | x p l Hx Hp IH]; intros Hk.
  - apply prev_chain_root. rewrite lookup_insert_ne; [done |].
    intros ->. apply Hk, list_elem_of_here.
  - rewrite elem_of_app, elem_of_cons, elem_of_nil in Hk.
    apply prev_chain_step with p.
    + rewrite lookup_insert_ne; [done |]. intros ->. tauto.
    + apply IH. tauto.
Qed.

Lemma prev_chain_reconstruct prev x l :
  prev_chain prev x l →
  ∀ fuel acc, (length l ≤ fuel)%nat →
              reconstruct fuel prev x acc = Done (l ++ acc).
Proof.
  induction 1 as [x Hx | x p l Hx Hp IH]; intros fuel acc Hlen.
  - destruct fuel; simpl in Hlen; [lia |]. simpl. by rewrite Hx.
  - rewrite length_app in Hlen. simpl in Hlen.
    destruct fuel; [lia |]. simpl. rewrite Hx.
    rewrite IH by lia. by rewrite <- app_assoc.
Qed.

(** ** The check of one route *)

Lemma relax_cases current dc st r :
  relax current (Fin dc) st r = st
  ∨ ∃ nb dn,
      joins r current nb ∧ nb ∈ unvisited st
      ∧ distances st !! nb = Some dn
      ∧ num_ltb (Fin (dc + distance r)) dn = true
      ∧ relax current (Fin dc) st r
        = {| distances := <[nb := Fin (dc + distance r)]> (distances st);
             previous := <[nb := Some current]> (previous st);
             unvisited := unvisited st |}.
Proof.
  unfold relax, set_has. cbn [num_add].
  case_bool_decide as Hs.
  - case_bool_decide as Hu; [| by left].
    destruct (distances st !! endNodeId r) as [dn|] eqn:Hd; [| by left].
    destruct (num_ltb (Fin (dc + distance r)) dn) eqn:Hlt; [| by left].
    right. exists (endNodeId r), dn. repeat split; try done. by left.
  - case_bool_decide as He; [| by left].
    case_bool_decide as Hu; [| by left].
    destruct (distances st !! startNodeId r) as [dn|] eqn:Hd; [| by left].
    destruct (num_ltb (Fin (dc + distance r)) dn) eqn:Hlt; [| by left].
    right. exists (startNodeId r), dn. repeat split; try done. by right.
Qed.

Lemma relax_unvisited current dc st r :
  unvisited (relax current (Fin dc) st r) = unvisited st.
Proof.
  destruct (relax_cases current dc st r) as [-> | (nb & dn & _ & _ & _ & _ & ->)];
    done.
Qed.

(** A distance never grows, and only the distance of an unvisited node
    changes. *)
Lemma relax_distances current dc st r x :
  (x ∉ unvisited st →
   distances (relax current (Fin dc) st r) !! x = distances st !! x)
  ∧ (∀ d, distances st !! x = Some (Fin d) →
          ∃ d', distances (relax current (Fin dc) st r) !! x = Some (Fin d')
                ∧ d' <= d).
Proof.
  destruct (relax_cases current dc st r)
    as [-> | (nb & dn & Hj & Hnb & Hdn & Hlt & ->)].
  - split; [done |]. intros d Hd. exists d. split; [done | lia].
  - cbn [distances]. split.
    + intros Hx. rewrite lookup_insert_ne; [done |]. by intros ->.
    + intros d Hd. destruct (decide (nb = x)) as [-> | Hne].
      * rewrite lookup_insert_eq. rewrite Hd in Hdn. inversion Hdn; subst dn.
        apply num_ltb_Fin in Hlt. eexists. split; [done | lia].
      * rewrite lookup_insert_ne by done. exists d. split; [done | lia].
Qed.

(** After the check of [r], the far end of [r] is at most one hop away. *)
Lemma relax_done current dc st r u :
  joins r current u → u ∈ unvisited st → current ∉ unvisited st →
  is_Some (distances st !! u) →
  ∃ du, distances (relax current (Fin dc) st r) !! u = Some (Fin du)
        ∧ du <= dc + distance r.
Proof.
  intros Hj Hu Hc [du0 Hdu0].
  assert (Hcu : u ≠ current) by (by intros ->).
  unfold relax, set_has. cbn [num_add].
  assert (Hnb : (if bool_decide (startNodeId r = current)
                 then Some (endNodeId r)
                 else if bool_decide (endNodeId r = current)
                      then Some (startNodeId r) else None) = Some u).
  { destruct Hj as [[Hs He] | [He Hs]].
    - by rewrite bool_decide_true, He by done.
    - rewrite bool_decide_false by congruence.
      by rewrite bool_decide_true, Hs by done. }
  rewrite Hnb. rewrite bool_decide_true by done. rewrite Hdu0.
  destruct (num_ltb (Fin (dc + distance r)) du0) eqn:Hlt.
  - cbn [distances]. rewrite lookup_insert_eq. eexists. split; [done | lia].
  - rewrite Hdu0. apply num_ltb_false_le in Hlt.
    destruct du0 as [d|]; [| done]. simpl in Hlt. eauto.
Qed.

(** ** Preservation of the invariants *)

Section Preservation.
Variables (nodes : list Node) (routes : list Route) (startId endId : Z).

Lemma relax_Inv0 current dc st r :
  r ∈ routes →
  Inv0 nodes routes startId endId st →
  Scanning nodes startId current dc st →
  Inv0 nodes routes startId endId (relax current (Fin dc) st r)
  ∧ Scanning nodes startId current dc (relax current (Fin dc) st r).
Proof.
  intros Hr HI (Hs & Hc & Hcid & Hdc).
  destruct (relax_cases current dc st r)
    as [-> | (nb & dn & Hj & Hnb & Hdn & Hlt & ->)]; [done |].
  assert (Hnbc : nb ≠ current) by (by intros ->).
  assert (Hnbs : nb ≠ startId) by (by intros ->).
  destruct HI as [Hunv Hdom Hchain Hfresh Hstart Hfin Hend].
  split; [| unfold Scanning; cbn [distances unvisited];
            split_and!; try done; by rewrite lookup_insert_ne].
  constructor; cbn [distances previous unvisited].
  - done.
  - intros x Hx. destruct (decide (nb = x)) as [-> | ?].
    + rewrite lookup_insert_eq. eauto.
    + rewrite lookup_insert_ne by done. eauto.
  - intros x d Hx Hd. destruct (decide (nb = x)) as [-> | Hne].
    + rewrite lookup_insert_eq in Hd. inversion Hd; subst d.
      destruct (Hchain current dc Hcid Hdc) as (l & Hpc & Hw & Hnd & Hids & Hvis).
      assert (Hxl : x ∉ l).
      { intros Hin. by apply (Hvis x Hin). }
      exists (l ++ [x]). unfold good_chain; cbn [previous unvisited].
      split_and!.
      * apply prev_chain_step with current; [by rewrite lookup_insert_eq |].
        by apply prev_chain_insert.
      * by apply wpath_snoc with current.
      * apply NoDup_app. split_and!; [done | | apply NoDup_singleton].
        intros y Hy Hy'. apply list_elem_of_singleton in Hy'. by subst.
      * intros y Hy. apply elem_of_app in Hy as [Hy | Hy]; [by apply Hids |].
        apply list_elem_of_singleton in Hy; subst. by apply Hunv.
      * intros y Hy Hyx. apply elem_of_app in Hy as [Hy | Hy].
        -- destruct (decide (y = current)) as [-> | ?]; [done | by apply Hvis].
        -- by apply list_elem_of_singleton in Hy.
    + rewrite lookup_insert_ne in Hd by done.
      destruct (Hchain x d Hx Hd) as (l & Hpc & Hw & Hnd & Hids & Hvis).
      exists l. unfold good_chain; cbn [previous unvisited].
      split_and!; try done.
      apply prev_chain_insert; [done |]. intros Hin.
      by apply (Hvis nb Hin).
  - done.
  - intros Hsid. rewrite lookup_insert_ne by done. auto.
  - intros v Hv Hvu. rewrite lookup_insert_ne; [auto |]. by intros ->.
  - done.
Qed.

Lemma visit_fold current dc rs st :
  (∀ r, r ∈ rs → r ∈ routes) →
  Inv0 nodes routes startId endId st →
  Scanning nodes startId current dc st →
  Relaxed nodes routes (fun v r => v = current ∧ r ∈ rs) st →
  Inv0 nodes routes startId endId (foldl (relax current (Fin dc)) st rs)
  ∧ Relaxed nodes routes (fun _ _ => False) (foldl (relax current (Fin dc)) st rs)
  ∧ unvisited (foldl (relax current (Fin dc)) st rs) = unvisited st
  ∧ (∀ x, x ∉ unvisited st →
          distances (foldl (relax current (Fin dc)) st rs) !! x
          = distances st !! x).
Proof.
  revert st. induction rs as [|r0 rs IH]; intros st Hsub HI HS HR.
  - cbn [foldl]. split_and!; try done.
    intros v dv r u Hv Hvu Hdv Hr Hj Hu.
    destruct (HR v dv r u Hv Hvu Hdv Hr Hj Hu) as [[_ Hin] | ?]; [| by right].
    by apply elem_of_nil in Hin.
  - cbn [foldl].
    assert (Hr0 : r0 ∈ routes) by apply Hsub, list_elem_of_here.
    destruct (relax_Inv0 current dc st r0 Hr0 HI HS) as [HI1 HS1].
    pose proof (relax_unvisited current dc st r0) as Hu1.
    destruct (IH (relax current (Fin dc) st r0)) as (HI' & HR' & Hu' & Hd');
      try done.
    + intros r Hr. by apply Hsub, list_elem_of_further.
    + intros v dv r u Hv Hvu Hdv Hr Hj Hu.
      rewrite Hu1 in Hvu, Hu.
      rewrite (proj1 (relax_distances current dc st r0 v) Hvu) in Hdv.
      destruct (HR v dv r u Hv Hvu Hdv Hr Hj Hu)
        as [[-> Hin] | (du & Hdu & Hle)].
      * apply elem_of_cons in Hin as [-> | Hin]; [| by left].
        right. destruct HS as (_ & Hc & _ & Hdc).
        rewrite Hdc in Hdv. inversion Hdv; subst dv.
        apply relax_done; try done.
        apply (inv_dom _ _ _ _ _ HI), (inv_unv _ _ _ _ _ HI), Hu.
      * right.
        destruct (proj2 (relax_distances current dc st r0 u) du Hdu)
          as (d' & Hd1 & Hle').
        exists d'. split; [done | lia].
    + split_and!; try done.
      * by rewrite Hu'.
      * intros x Hx. rewrite Hd' by by rewrite Hu1.
        by apply relax_distances.
Qed.

(** Deleting the selected node from [unvisited]. *)
Lemma select_Inv0 st current dc :
  Inv nodes routes startId endId st →
  find_smallest (distances st) (unvisited st) = (Some current, Fin dc) →
  current ≠ endId →
  let st1 := {| distances := distances st;
                previous := previous st;
                unvisited := set_delete current (unvisited st) |} in
  Inv0 nodes routes startId endId st1
  ∧ Scanning nodes startId current dc st1
  ∧ Relaxed nodes routes (fun v r => v = current ∧ r ∈ routes) st1.
Proof.
  intros [HI HR] Hfs Hne st1.
  apply find_smallest_Some in Hfs as (d & Hd & Hcu & Hdc & Hmin).
  inversion Hd; subst d; clear Hd.
  destruct HI as [Hunv Hdom Hchain Hfresh Hstart Hfin Hend].
  assert (Hcid : current ∈ map node_id nodes) by by apply Hunv.
  assert (Hs : startId ∉ unvisited st1).
  { subst st1; cbn [unvisited]. rewrite elem_of_set_delete.
    intros [Hsc Hsu].
    rewrite (Hfresh Hsu current) in Hdc by done. done. }
  split_and!.
  - constructor; subst st1; cbn [distances previous unvisited].
    + intros x Hx. apply elem_of_set_delete in Hx. apply Hunv. tauto.
    + done.
    + intros x d Hx Hdx.
      destruct (Hchain x d Hx Hdx) as (l & Hpc & Hw & Hnd & Hids & Hvis).
      exists l. unfold good_chain; cbn [previous unvisited].
      split_and!; try done.
      intros y Hy Hyx. rewrite elem_of_set_delete.
      intros [_ Hyu]. by apply (Hvis y Hy Hyx).
    + intros Hsu. by exfalso.
    + done.
    + intros v Hv Hvu. rewrite elem_of_set_delete in Hvu.
      destruct (decide (v = current)) as [-> | Hvc]; [eauto |].
      apply Hfin; [done |]. tauto.
    + intros He. rewrite elem_of_set_delete. split; [congruence | auto].
  - unfold Scanning; subst st1; cbn [distances unvisited] in *.
    split_and!; try done.
    rewrite elem_of_set_delete. tauto.
  - intros v dv r u Hv Hvu Hdv Hr Hj Hu.
    subst st1; cbn [distances unvisited] in *.
    rewrite elem_of_set_delete in Hvu, Hu.
    destruct (decide (v = current)) as [-> | Hvc]; [by left |].
    right. destruct (HR v dv r u) as [[] | ?]; try done; tauto.
Qed.

Lemma step_Inv st st' :
  Inv nodes routes startId endId st →
  step routes endId st st' →
  Inv nodes routes startId endId st'.
Proof.
  intros HInv (current & dc & Hfs & Hne & ->).
  destruct (select_Inv0 st current dc HInv Hfs Hne) as (HI1 & HS1 & HR1).
  destruct (visit_fold current dc routes _ (fun r H => H) HI1 HS1 HR1)
    as (HI' & HR' & _ & _).
  by split.
Qed.

Lemma steps_Inv st st' :
  Inv nodes routes startId endId st →
  rtc (step routes endId) st st' →
  Inv nodes routes startId endId st'.
Proof. intros HInv Hsteps. induction Hsteps; eauto using step_Inv. Qed.

Lemma init_Inv : Inv nodes routes startId endId (dijkstra_init nodes startId).
Proof.
  unfold dijkstra_init.
  set (st0 := foldl init_node (mkDijkstra ∅ ∅ []) nodes).
  assert (Hu : ∀ x, x ∈ unvisited st0 ↔ x ∈ map node_id nodes).
  { intros x. unfold st0. rewrite init_unvisited. cbn [unvisited].
    rewrite elem_of_nil. tauto. }
  assert (Hd : ∀ x, x ∈ map node_id nodes → distances st0 !! x = Some Infinity).
  { intros x Hx. unfold st0. rewrite init_distances.
    by rewrite bool_decide_true. }
  assert (Hp : ∀ x, x ∈ map node_id nodes → previous st0 !! x = Some None).
  { intros x Hx. unfold st0. rewrite init_previous.
    by rewrite bool_decide_true. }
  split; [constructor |]; cbn [distances previous unvisited].
  - intros x. apply Hu.
  - intros x Hx. destruct (decide (startId = x)) as [-> | ?].
    + rewrite lookup_insert_eq. eauto.
    + rewrite lookup_insert_ne by done. rewrite Hd; eauto.
  - intros x d Hx Hdx. destruct (decide (startId = x)) as [-> | ?].
    + rewrite lookup_insert_eq in Hdx. inversion Hdx; subst d.
      exists [x]. unfold good_chain; cbn [previous unvisited]. split_and!.
      * apply prev_chain_root. by apply Hp.
      * apply wpath_nil.
      * apply NoDup_singleton.
      * intros y Hy. apply list_elem_of_singleton in Hy. by subst.
      * intros y Hy Hyx. by apply list_elem_of_singleton in Hy.
    + rewrite lookup_insert_ne in Hdx by done. by rewrite Hd in Hdx.
  - intros _ x Hx Hxid. rewrite lookup_insert_ne by done. by apply Hd.
  - intros _. by rewrite lookup_insert_eq.
  - intros v Hv Hvu. exfalso. by apply Hvu, Hu.
  - intros He. by apply Hu.
  - intros v dv r u Hv Hvu. exfalso. by apply Hvu, Hu.
Qed.
End Preservation.

(** ** The main loop *)

Lemma foldl_relax_unvisited current dc rs st :
  unvisited (foldl (relax current (Fin dc)) st rs) = unvisited st.
Proof.
  revert st. induction rs as [|r rs IH]; intros st; cbn [foldl]; [done |].
  by rewrite IH, relax_unvisited.
Qed.

Lemma foldl_relax_distances current dc rs st x :
  x ∉ unvisited st →
  distances (foldl (relax current (Fin dc)) st rs) !! x = distances st !! x.
Proof.
  revert st. induction rs as [|r rs IH]; intros st Hx; cbn [foldl]; [done |].
  rewrite IH by by rewrite relax_unvisited.
  by apply relax_distances.
Qed.

Lemma visit_unvisited routes st current dc :
  unvisited (visit routes st current (Fin dc))
  = set_delete current (unvisited st).
Proof. unfold visit. by rewrite foldl_relax_unvisited. Qed.

Lemma visit_distances routes st current dc x :
  x ∉ set_delete current (unvisited st) →
  distances (visit routes st current (Fin dc)) !! x = distances st !! x.
Proof. intros Hx. unfold visit. by rewrite foldl_relax_distances. Qed.

Lemma dijkstra_loop_unfold fuel rfuel routes endId st :
  dijkstra_loop (S fuel) rfuel routes endId st
  = match unvisited st with
    | [] => Done None
    | _ :: _ =>
        match find_smallest (distances st) (unvisited st) with
        | (None, _) => Done None
        | (Some current, minDistance) =>
            if bool_decide (minDistance = Infinity) then Done None
            else if bool_decide (current = endId) then
              path ← reconstruct rfuel (previous st) endId [];
              Done (Some (mkShortestPath path minDistance))
            else dijkstra_loop fuel rfuel routes endId
                   (visit routes st current minDistance)
        end
    end.
Proof. reflexivity. Qed.

(** The loop runs a number of full turns and then either gives up, no
    unvisited node having a finite distance, or selects [endId]. *)
Lemma dijkstra_loop_run fuel rfuel routes endId st :
  (length (unvisited st) ≤ fuel)%nat →
  ∃ st', rtc (step routes endId) st st'
    ∧ ((dijkstra_loop fuel rfuel routes endId st = Done None
        ∧ ∃ m, find_smallest (distances st') (unvisited st') = (None, m))
       ∨ (∃ d, find_smallest (distances st') (unvisited st') = (Some endId, Fin d)
            ∧ dijkstra_loop fuel rfuel routes endId st
              = (path ← reconstruct rfuel (previous st') endId [];
                 Done (Some (mkShortestPath path (Fin d)))))).
Proof.
  revert st. induction fuel as [|fuel IH]; intros st Hlen.
  - exists st. split; [done |]. left.
    destruct (unvisited st) eqn:Hu; [| simpl in Hlen; lia].
    split; [by simpl; rewrite Hu | by exists Infinity].
  - rewrite dijkstra_loop_unfold.
    destruct (find_smallest (distances st) (unvisited st)) as [[c|] m] eqn:Hfs.
    + destruct (find_smallest_Some _ _ _ _ Hfs) as (d & -> & Hc & Hdc & Hmin).
      destruct (unvisited st) as [|z unv] eqn:Hu; [by apply elem_of_nil in Hc |].
      rewrite bool_decide_false by done.
      case_bool_decide as Hce.
      * subst c. exists st. split; [done |]. right. exists d.
        by rewrite Hu.
      * destruct (IH (visit routes st c (Fin d))) as (st' & Hsteps & Hres).
        { rewrite visit_unvisited, Hu.
          pose proof (length_set_delete c (z :: unv) Hc). lia. }
        exists st'. split; [| done].
        eapply rtc_l; [| done]. exists c, d. by rewrite Hu.
    + exists st. split; [done |]. left.
      split; [by destruct (unvisited st) | by exists m].
Qed.

Lemma chain_length nodes routes startId st x d l :
  good_chain nodes routes startId st x d l → (length l ≤ length nodes)%nat.
Proof.
  intros (_ & _ & Hnd & Hids & _).
  rewrite <- (length_map node_id nodes).
  apply submseteq_length, NoDup_submseteq; done.
Qed.

(** What a call of [findShortestPath] with distinct ends does. *)
Lemma findShortestPath_run nodes routes startId endId :
  startId ≠ endId →
  ∃ st', rtc (step routes endId) (dijkstra_init nodes startId) st'
    ∧ Inv nodes routes startId endId st'
    ∧ ((findShortestPath nodes routes startId endId = Done None
        ∧ ∃ m, find_smallest (distances st') (unvisited st') = (None, m))
       ∨ (∃ d l,
            findShortestPath nodes routes startId endId
            = Done (Some (mkShortestPath l (Fin d)))
            ∧ find_smallest (distances st') (unvisited st') = (Some endId, Fin d)
            ∧ good_chain nodes routes startId st' endId d l)).
Proof.
  intros Hne. unfold findShortestPath. rewrite bool_decide_false by done.
  destruct (dijkstra_loop_run (S (length nodes)) (S (length nodes)) routes endId
              (dijkstra_init nodes startId)) as (st' & Hsteps & Hres).
  { unfold dijkstra_init; cbn [unvisited].
    pose proof (init_unvisited_length nodes (mkDijkstra ∅ ∅ [])) as H.
    cbn [unvisited length] in H. lia. }
  pose proof (steps_Inv _ _ _ _ _ _ (init_Inv nodes routes startId endId) Hsteps)
    as HInv.
  exists st'. split_and!; [done | done |].
  destruct Hres as [? | (d & Hfs & Hloop)]; [by left |].
  right. destruct (find_smallest_Some _ _ _ _ Hfs) as (d' & Hd' & He & Hde & _).
  inversion Hd'; subst d'.
  destruct HInv as [HI _].
  destruct (inv_chain _ _ _ _ _ HI endId d) as (l & Hl);
    [by apply (inv_unv _ _ _ _ _ HI) | done |].
  exists d, l. split_and!; [| done | done].
  rewrite Hloop.
  rewrite (prev_chain_reconstruct _ _ l); [by rewrite app_nil_r | apply Hl |].
  pose proof (chain_length _ _ _ _ _ _ _ Hl). lia.
Qed.

(** ** Optimality *)

Section Optimality.
Variables (nodes : list Node) (routes : list Route) (startId endId : Z).
Hypothesis Hknown : endpoints_known nodes routes.
Hypothesis Hnonneg : nonneg_distances routes.

Lemma joins_known r a b :
  r ∈ routes → joins r a b →
  a ∈ map node_id nodes ∧ b ∈ map node_id nodes.
Proof.
  intros Hr Hj. destruct (proj1 (Forall_forall _ _) Hknown r Hr) as [Hs He].
  destruct Hj as [[<- <-] | [<- <-]]; done.
Qed.

(** No path to an unvisited node is shorter than the smallest tentative
    distance [m] of the unvisited nodes. *)
Lemma lower_bound st m :
  Inv nodes routes startId endId st →
  Settled nodes routes startId st →
  (∀ y dy, y ∈ unvisited st → distances st !! y = Some dy → num_le (Fin m) dy) →
  ∀ l y w, wpath routes startId l y w → y ∈ unvisited st → m <= w.
Proof.
  intros [HI HR] HS Hmin l y w Hp.
  induction Hp as [|l x w r y Hp IH Hr Hj]; intros Hy.
  - pose proof (inv_start _ _ _ _ _ HI (inv_unv _ _ _ _ _ HI _ Hy)) as H0.
    apply (Hmin _ _ Hy H0).
  - destruct (joins_known r x y Hr Hj) as [Hx _].
    pose proof (proj1 (Forall_forall _ _) Hnonneg r Hr) as Hr0.
    simpl in Hr0.
    destruct (decide (x ∈ unvisited st)) as [Hxu | Hxu].
    + specialize (IH Hxu). lia.
    + destruct (inv_fin _ _ _ _ _ HI x Hx Hxu) as (dx & Hdx).
      pose proof (HS x dx l w Hx Hxu Hdx Hp) as Hle.
      destruct (HR x dx r y Hx Hxu Hdx Hr Hj Hy) as [[] | (du & Hdu & Hle')].
      specialize (Hmin y _ Hy Hdu). simpl in Hmin. lia.
Qed.

Lemma step_Settled st st' :
  Inv nodes routes startId endId st →
  Settled nodes routes startId st →
  step routes endId st st' →
  Settled nodes routes startId st'.
Proof.
  intros HInv HS (current & dc & Hfs & Hne & ->).
  destruct (find_smallest_Some _ _ _ _ Hfs) as (d & Hd & Hc & Hdc & Hmin).
  inversion Hd; subst d; clear Hd.
  intros v dv l w Hv Hvu Hdv Hp.
  rewrite visit_unvisited in Hvu.
  rewrite visit_distances in Hdv by done.
  destruct (decide (v = current)) as [-> | Hvc].
  - rewrite Hdc in Hdv. inversion Hdv; subst dv.
    by eapply lower_bound.
  - apply (HS v dv l w); try done.
    rewrite elem_of_set_delete in Hvu. tauto.
Qed.

Lemma steps_Settled st st' :
  Inv nodes routes startId endId st →
  Settled nodes routes startId st →
  rtc (step routes endId) st st' →
  Settled nodes routes startId st'.
Proof.
  intros HInv HS Hsteps. induction Hsteps as [|st st1 st' H1 Hsteps IH]; [done |].
  apply IH; [by eapply step_Inv | by eapply step_Settled].
Qed.

Lemma init_Settled : Settled nodes routes startId (dijkstra_init nodes startId).
Proof.
  intros v dv l w Hv Hvu. exfalso. apply Hvu.
  unfold dijkstra_init; cbn [unvisited]. rewrite init_unvisited. by right.
Qed.

(** When the loop gives up, every node that a path from [startId] leads
    to has been visited. *)
Lemma halted_closed st m :
  Inv nodes routes startId endId st →
  find_smallest (distances st) (unvisited st) = (None, m) →
  ∀ l y w, wpath routes startId l y w →
           y ∈ map node_id nodes → y ∉ unvisited st.
Proof.
  intros [HI HR] Hfs l y w Hp.
  pose proof (find_smallest_None _ _ _ Hfs) as Hinf.
  induction Hp as [|l x w r y Hp IH Hr Hj]; intros Hy Hyu.
  - pose proof (inv_start _ _ _ _ _ HI Hy) as H0.
    by specialize (Hinf _ _ Hyu H0).
  - destruct (joins_known r x y Hr Hj) as [Hx _].
    specialize (IH Hx).
    destruct (inv_fin _ _ _ _ _ HI x Hx IH) as (dx & Hdx).
    destruct (HR x dx r y Hx IH Hdx Hr Hj Hyu) as [[] | (du & Hdu & _)].
    by specialize (Hinf _ _ Hyu Hdu).
Qed.

Lemma wpath_target_known l w :
  startId ≠ endId → wpath routes startId l endId w →
  endId ∈ map node_id nodes.
Proof.
  intros Hne Hp. inversion Hp as [|l' x w' r y Hp' Hr Hj]; subst; [done |].
  by destruct (joins_known r x endId Hr Hj).
Qed.
End Optimality.

(** ** Results about [findShortestPath] *)

(** Neither loop of [findShortestPath] runs out of fuel: the function
    returns, whatever the graph. *)
Theorem findShortestPath_terminates nodes routes startId endId :
  ∃ r, findShortestPath nodes routes startId endId = Done r.
Proof.
  destruct (decide (startId = endId)) as [-> | Hne].
  - unfold findShortestPath. rewrite bool_decide_true by done. eauto.
  - destruct (findShortestPath_run nodes routes startId endId Hne)
      as (st' & _ & _ & [[-> _] | (d & l & -> & _)]); eauto.
Qed.

Lemma findShortestPath_same nodes routes startId :
  findShortestPath nodes routes startId startId
  = Done (Some (mkShortestPath [startId] (Fin 0))).
Proof. unfold findShortestPath. by rewrite bool_decide_true. Qed.

(** A returned path is a path of the graph, and the returned distance is
    the sum of the distances of its routes. *)
Lemma findShortestPath_wpath nodes routes startId endId p :
  findShortestPath nodes routes startId endId = Done (Some p) →
  ∃ d, sp_distance p = Fin d ∧ wpath routes startId (sp_path p) endId d.
Proof.
  intros Hf. destruct (decide (startId = endId)) as [-> | Hne].
  - rewrite findShortestPath_same in Hf. inversion Hf; subst p.
    exists 0. split; [done | apply wpath_nil].
  - destruct (findShortestPath_run nodes routes startId endId Hne)
      as (st' & _ & _ & [[Hn _] | (d & l & Hs & _ & Hl)]).
    + rewrite Hn in Hf. done.
    + rewrite Hs in Hf. inversion Hf; subst p. exists d. split; [done |].
      apply Hl.
Qed.

(** A returned path visits no node twice and, unless it is the one-node
    path, stays within the node set. *)
Lemma findShortestPath_NoDup nodes routes startId endId p :
  findShortestPath nodes routes startId endId = Done (Some p) →
  NoDup (sp_path p)
  ∧ (startId ≠ endId → ∀ y, y ∈ sp_path p → y ∈ map node_id nodes).
Proof.
  intros Hf. destruct (decide (startId = endId)) as [-> | Hne].
  - rewrite findShortestPath_same in Hf. inversion Hf; subst p.
    split; [apply NoDup_singleton | done].
  - destruct (findShortestPath_run nodes routes startId endId Hne)
      as (st' & _ & _ & [[Hn _] | (d & l & Hs & _ & Hl)]).
    + rewrite Hn in Hf. done.
    + rewrite Hs in Hf. inversion Hf; subst p.
      destruct Hl as (_ & _ & Hnd & Hids & _). done.
Qed.

(** On a graph whose routes end at known nodes, a reachable target is
    found. *)
Lemma findShortestPath_complete nodes routes startId endId :
  endpoints_known nodes routes →
  reachable routes startId endId →
  ∃ p, findShortestPath nodes routes startId endId = Done (Some p).
Proof.
  intros Hknown (l & w & Hp).
  destruct (decide (startId = endId)) as [-> | Hne].
  - rewrite findShortestPath_same. eauto.
  - destruct (findShortestPath_run nodes routes startId endId Hne)
      as (st' & _ & HInv & [[_ [m Hfs]] | (d & l' & Hs & _)]); [| eauto].
    exfalso.
    pose proof (wpath_target_known nodes routes startId endId Hknown l w Hne Hp)
      as Het.
    apply (halted_closed nodes routes startId endId Hknown st' m HInv Hfs l endId w);
      try done.
    destruct HInv as [HI _]. by apply (inv_end _ _ _ _ _ HI).
Qed.

(** C6: [findShortestPath] on a graph of the data model (routes end at known
    nodes, distances are not negative).  Equal ends give the one-node path
    and distance 0; the result is [null] exactly when the target cannot be
    reached along the routes; the distance of a returned path is the
    smallest total distance of a path between the two nodes.  The call
    always returns. *)
Theorem findShortestPath_correct nodes routes startId endId :
  endpoints_known nodes routes →
  nonneg_distances routes →
  (startId = endId →
   findShortestPath nodes routes startId endId
   = Done (Some (mkShortestPath [startId] (Fin 0))))
  ∧ (findShortestPath nodes routes startId endId = Done None
     ↔ ¬ reachable routes startId endId)
  ∧ (∀ p, findShortestPath nodes routes startId endId = Done (Some p) →
          ∃ d, sp_distance p = Fin d
               ∧ wpath routes startId (sp_path p) endId d
               ∧ ∀ l w, wpath routes startId l endId w → d <= w)
  ∧ (∃ r, findShortestPath nodes routes startId endId = Done r).
Proof.
  intros Hknown Hnonneg. split_and!.
  - intros <-. apply findShortestPath_same.
  - split.
    + intros Hn (l & w & Hp).
      destruct (findShortestPath_complete nodes routes startId endId Hknown)
        as [p Hs]; [by exists l, w |].
      rewrite Hn in Hs. done.
    + intros Hnr.
      destruct (findShortestPath_terminates nodes routes startId endId)
        as [[p|] Hr]; [| done].
      exfalso. apply Hnr.
      destruct (findShortestPath_wpath _ _ _ _ _ Hr) as (d & _ & Hp).
      by exists (sp_path p), d.
  - intros p Hf.
    destruct (findShortestPath_wpath _ _ _ _ _ Hf) as (d & Hd & Hp).
    exists d. split_and!; try done.
    intros l w Hw.
    destruct (decide (startId = endId)) as [-> | Hne].
    + rewrite findShortestPath_same in Hf. inversion Hf; subst p.
      inversion Hd; subst d. by eapply wpath_nonneg.
    + destruct (findShortestPath_run nodes routes startId endId Hne)
        as (st' & Hsteps & HInv & [[Hn _] | (d' & l' & Hs & Hfs & Hl)]).
      * rewrite Hn in Hf. done.
      * rewrite Hs in Hf. inversion Hf; subst p. inversion Hd; subst d'.
        destruct (find_smallest_Some _ _ _ _ Hfs) as (d0 & Hd0 & Hu & _ & Hmin).
        inversion Hd0; subst d0.
        apply (lower_bound nodes routes startId endId Hknown Hnonneg st' d HInv)
          with l endId; try done.
        apply (steps_Settled nodes routes startId endId Hknown Hnonneg
                 (dijkstra_init nodes startId)); try done.
        -- apply init_Inv.
        -- apply init_Settled.
  - apply findShortestPath_terminates.
Qed.

(** C9: a path returned by [findShortestPath] starts at the source, ends at
    the target, and each two consecutive nodes of it are joined by a route
    of the graph. *)
Theorem findShortestPath_valid_path nodes routes startId endId p :
  findShortestPath nodes routes startId endId = Done (Some p) →
  head (sp_path p) = Some startId
  ∧ last (sp_path p) = Some endId
  ∧ ∀ i a b, sp_path p !! i = Some a → sp_path p !! S i = Some b →
             ∃ r, r ∈ routes ∧ joins r a b.
Proof.
  intros Hf. destruct (findShortestPath_wpath _ _ _ _ _ Hf) as (d & _ & Hp).
  split_and!.
  - by eapply wpath_head.
  - by eapply wpath_last.
  - by eapply wpath_linked.
Qed.

(** ** Edge orders *)

Lemma getEdgePermutations_fuel_unfold fuel edges :
  getEdgePermutations_fuel (S fuel) edges
  = if (length edges <=? 1)%nat then [edges]
    else flat_map
           (fun i =>
              match edges !! i with
              | Some current =>
                  map (cons current)
                    (getEdgePermutations_fuel fuel (delete i edges))
              | None => []
              end)
           (seq 0 (length edges)).
Proof.
  cbn [getEdgePermutations_fuel].
  destruct (length edges <=? 1)%nat; [done |].
  apply List.flat_map_ext. intros i.
  destruct (edges !! i); [| done]. by rewrite delete_take_drop.
Qed.

Lemma getEdgePermutations_fuel_small fuel edges :
  (length edges ≤ 1)%nat → getEdgePermutations_fuel fuel edges = [edges].
Proof.
  intros Hlen. destruct fuel; cbn [getEdgePermutations_fuel];
    by rewrite (proj2 (Nat.leb_le _ _) Hlen).
Qed.

Lemma getEdgePermutations_fuel_length fuel edges :
  (length edges ≤ fuel)%nat →
  length (getEdgePermutations_fuel fuel edges) = fact (length edges).
Proof.
  revert edges. induction fuel as [|fuel IH]; intros edges Hlen.
  - rewrite getEdgePermutations_fuel_small by lia.
    destruct edges; [done | simpl in Hlen; lia].
  - destruct (decide (length edges ≤ 1)%nat) as [Hs | Hs].
    + rewrite getEdgePermutations_fuel_small by done.
      destruct edges as [|e [|e' edges]]; [done | done | simpl in Hs; lia].
    + rewrite getEdgePermutations_fuel_unfold.
      rewrite (proj2 (Nat.leb_gt _ _)) by lia.
      rewrite List.flat_map_constant_length with (c := fact (pred (length edges))).
      * rewrite length_seq. destruct (length edges); [lia |]. simpl. lia.
      * intros i Hi. apply in_seq in Hi.
        destruct (lookup_lt_is_Some_2 edges i) as [x Hx]; [lia |].
        rewrite Hx, length_map, IH.
        -- f_equal. rewrite length_delete by eauto. lia.
        -- rewrite length_delete by eauto. lia.
Qed.

Lemma getEdgePermutations_fuel_sound fuel edges p :
  p ∈ getEdgePermutations_fuel fuel edges → edges ≡ₚ p.
Proof.
  revert edges p. induction fuel as [|fuel IH]; intros edges p Hp.
  - cbn [getEdgePermutations_fuel] in Hp.
    destruct (length edges <=? 1)%nat.
    + apply list_elem_of_singleton in Hp. by subst.
    + by apply elem_of_nil in Hp.
  - rewrite getEdgePermutations_fuel_unfold in Hp.
    destruct (length edges <=? 1)%nat.
    + apply list_elem_of_singleton in Hp. by subst.
    + apply list_elem_of_In, in_flat_map in Hp as (i & _ & Hp).
      destruct (edges !! i) as [x|] eqn:Hx; [| done].
      apply in_map_iff in Hp as (p' & <- & Hp').
      apply list_elem_of_In, IH in Hp'.
      rewrite (delete_Permutation edges i x Hx). by constructor.
Qed.

Lemma getEdgePermutations_fuel_complete fuel edges p :
  (length edges ≤ fuel)%nat →
  edges ≡ₚ p → p ∈ getEdgePermutations_fuel fuel edges.
Proof.
  revert edges p. induction fuel as [|fuel IH]; intros edges p Hlen Hp.
  - destruct edges; [| simpl in Hlen; lia].
    apply Permutation_nil_l in Hp. subst p.
    cbn. apply list_elem_of_here.
  - destruct (decide (length edges ≤ 1)%nat) as [Hs | Hs].
    + rewrite getEdgePermutations_fuel_small by done.
      destruct edges as [|e [|e' edges]]; [| | simpl in Hs; lia].
      * apply Permutation_nil_l in Hp. subst p. apply list_elem_of_here.
      * apply Permutation_singleton_l in Hp. subst p. apply list_elem_of_here.
    + rewrite getEdgePermutations_fuel_unfold.
      rewrite (proj2 (Nat.leb_gt _ _)) by lia.
      destruct p as [|x p'].
      { apply Permutation_nil_r in Hp. subst edges. simpl in Hs. lia. }
      assert (Hx : x ∈ edges) by (rewrite Hp; apply list_elem_of_here).
      apply list_elem_of_lookup in Hx as [i Hi].
      apply list_elem_of_In, in_flat_map. exists i. split.
      * apply in_seq. apply lookup_lt_Some in Hi. lia.
      * rewrite Hi. apply in_map, list_elem_of_In, IH.
        -- rewrite length_delete by eauto. lia.
        -- apply (Permutation.Permutation_cons_inv (a := x)).
           by rewrite <- (delete_Permutation edges i x Hi).
Qed.

(** The recursive equation of the source function. *)
Lemma getEdgePermutations_unfold edges :
  getEdgePermutations edges
  = if (length edges <=? 1)%nat then [edges]
    else flat_map
           (fun i =>
              match edges !! i with
              | Some current =>
                  map (cons current) (getEdgePermutations (delete i edges))
              | None => []
              end)
           (seq 0 (length edges)).
Proof.
  unfold getEdgePermutations.
  destruct edges as [|e edges]; [done |].
  cbn [length]. rewrite getEdgePermutations_fuel_unfold. cbn [length].
  destruct (S (length edges) <=? 1)%nat; [done |].
  rewrite !flat_map_concat_map. f_equal.
  apply List.map_ext_in. intros i Hi. apply in_seq in Hi.
  destruct ((e :: edges) !! i) eqn:Hx; [| done].
  rewrite length_delete by eauto. cbn [length].
  by rewrite Nat.sub_1_r.
Qed.

Lemma insert_by_Permutation cmp x l : insert_by cmp x l ≡ₚ x :: l.
Proof.
  induction l as [|y l IH]; cbn [insert_by]; [done |].
  destruct (cmp x y <=? 0); [done |].
  rewrite IH. apply perm_swap.
Qed.

Lemma sort_by_Permutation cmp l : sort_by cmp l ≡ₚ l.
Proof.
  unfold sort_by. induction l as [|x l IH]; cbn [foldr]; [done |].
  by rewrite insert_by_Permutation, IH.
Qed.

Lemma flat_map_bind {A B} (f : A → list B) (l : list A) :
  flat_map f l = l ≫= f.
Proof. induction l as [|x l IH]; [done |]. cbn. by rewrite IH. Qed.

Lemma getEdgePermutations_fuel_NoDup fuel edges :
  NoDup edges → NoDup (getEdgePermutations_fuel fuel edges).
Proof.
  revert edges. induction fuel as [|fuel IH]; intros edges Hnd.
  - cbn [getEdgePermutations_fuel].
    destruct (length edges <=? 1)%nat; [apply NoDup_singleton | apply NoDup_nil_2].
  - rewrite getEdgePermutations_fuel_unfold.
    destruct (length edges <=? 1)%nat; [apply NoDup_singleton |].
    rewrite flat_map_bind. apply NoDup_bind; [| | apply NoDup_seq].
    + intros i1 i2 y _ _ H1 H2.
      destruct (edges !! i1) as [x1|] eqn:Hx1; [| by apply elem_of_nil in H1].
      destruct (edges !! i2) as [x2|] eqn:Hx2; [| by apply elem_of_nil in H2].
      apply list_elem_of_In, in_map_iff in H1 as (p1 & <- & _).
      apply list_elem_of_In, in_map_iff in H2 as (p2 & Heq & _).
      inversion Heq; subst x2. by eapply NoDup_lookup.
    + intros i _. destruct (edges !! i) as [x|]; [| apply NoDup_nil_2].
      apply (NoDup_fmap_2 (cons x)), IH.
      eapply sublist_NoDup; [done | apply sublist_delete].
Qed.

Lemma getAllEdgePermutations_sound shuffle edges p :
  (∀ i l, l ≡ₚ shuffle i l) →
  p ∈ getAllEdgePermutations shuffle edges → edges ≡ₚ p.
Proof.
  intros Hshuffle Hp. unfold getAllEdgePermutations in Hp.
  destruct (length edges <=? 1)%nat.
  { apply list_elem_of_singleton in Hp. by subst. }
  destruct (8 <? length edges)%nat.
  - unfold generateSmartEdgeOrders in Hp.
    apply elem_of_app in Hp as [Hp | Hp].
    + apply elem_of_cons in Hp as [-> | Hp]; [by rewrite sort_by_Permutation |].
      apply list_elem_of_singleton in Hp as ->.
      by rewrite sort_by_Permutation.
    + apply list_elem_of_In, in_map_iff in Hp as (i & <- & _).
      apply Hshuffle.
  - by eapply getEdgePermutations_fuel_sound.
Qed.

(** C7: the orders handed out by [getAllEdgePermutations].  At most one edge:
    the one trivial order.  From 2 to 8 edges: [n!] orders, among them every
    permutation of the edges (and no order twice when the edges are
    pairwise distinct).  More than 8 edges: 12 orders.  In each case every
    order is a permutation of the edges, that is, holds each edge exactly
    once.  [shuffle] stands for the engine's sort under the random
    comparator, which permutes its input. *)
Theorem getAllEdgePermutations_orders shuffle edges :
  (∀ i l, l ≡ₚ shuffle i l) →
  ((length edges ≤ 1)%nat → getAllEdgePermutations shuffle edges = [edges])
  ∧ ((2 ≤ length edges ≤ 8)%nat →
     length (getAllEdgePermutations shuffle edges) = fact (length edges)
     ∧ (∀ p, edges ≡ₚ p → p ∈ getAllEdgePermutations shuffle edges)
     ∧ (NoDup edges → NoDup (getAllEdgePermutations shuffle edges)))
  ∧ ((8 < length edges)%nat →
     length (getAllEdgePermutations shuffle edges) = 12%nat)
  ∧ (∀ p, p ∈ getAllEdgePermutations shuffle edges → edges ≡ₚ p).
Proof.
  intros Hshuffle. unfold getAllEdgePermutations. split_and!.
  - intros Hlen. by rewrite (proj2 (Nat.leb_le _ _) Hlen).
  - intros [Hlo Hhi].
    rewrite (proj2 (Nat.leb_gt _ _)) by lia.
    rewrite (proj2 (Nat.ltb_ge _ _)) by lia.
    unfold getEdgePermutations. split_and!.
    + by apply getEdgePermutations_fuel_length.
    + intros p Hp. by apply getEdgePermutations_fuel_complete.
    + apply getEdgePermutations_fuel_NoDup.
  - intros Hlen.
    rewrite (proj2 (Nat.leb_gt _ _)) by lia.
    rewrite (proj2 (Nat.ltb_lt _ _)) by lia.
    done.
  - intros p Hp. by eapply getAllEdgePermutations_sound.
Qed.

(** ** The walk builder *)

Lemma getDistanceBetweenNodes_nonneg routes a b :
  nonneg_distances routes → 0 <= getDistanceBetweenNodes routes a b.
Proof.
  intros Hnn. unfold getDistanceBetweenNodes.
  destruct (List.find (connects a b) routes) as [r|] eqn:Hf; [| lia].
  apply find_some in Hf as [Hr _]. apply list_elem_of_In in Hr.
  apply (proj1 (Forall_forall _ _) Hnn r Hr).
Qed.

Lemma append_hops_path routes from rest w :
  path (append_hops routes from rest w) = path w ++ rest.
Proof.
  revert from w. induction rest as [|x rest IH]; intros from w;
    cbn [append_hops].
  - by rewrite app_nil_r.
  - rewrite IH. cbn [path]. by rewrite <- app_assoc.
Qed.

Lemma append_hops_total routes from rest w :
  nonneg_distances routes →
  totalDistance w <= totalDistance (append_hops routes from rest w).
Proof.
  intros Hnn. revert from w. induction rest as [|x rest IH]; intros from w;
    cbn [append_hops]; [lia |].
  etrans; [| apply IH]. cbn [totalDistance].
  pose proof (getDistanceBetweenNodes_nonneg routes from x Hnn). lia.
Qed.

Lemma follow_path routes p w :
  path (follow routes p w) = path w ++ tail p.
Proof.
  destruct p as [|p0 rest]; cbn [follow tail].
  - by rewrite app_nil_r.
  - apply append_hops_path.
Qed.

Lemma follow_total routes p w :
  nonneg_distances routes →
  totalDistance w <= totalDistance (follow routes p w).
Proof.
  intros Hnn. destruct p as [|p0 rest]; cbn [follow]; [lia |].
  by apply append_hops_total.
Qed.

(** The stitching block returns; it only extends the walk. *)
Lemma stitch_returns nodes routes st edge :
  ∃ st', stitch nodes routes st edge = Done st'
         ∧ edgesCovered st' = edgesCovered st
         ∧ (∃ ext, path (walk st') = path (walk st) ++ ext)
         ∧ (nonneg_distances routes →
            totalDistance (walk st) <= totalDistance (walk st')).
Proof.
  assert (Hsame : ∃ st', Done st = Done st'
                         ∧ edgesCovered st' = edgesCovered st
                         ∧ (∃ ext, path (walk st') = path (walk st) ++ ext)
                         ∧ (nonneg_distances routes →
                            totalDistance (walk st) <= totalDistance (walk st'))).
  { exists st. split_and!; try done.
    exists []. by rewrite app_nil_r. }
  unfold stitch.
  destruct (bool_decide (currentNode st ≠ startNodeId edge)
            && bool_decide (currentNode st ≠ endNodeId edge)); [| done].
  destruct (findShortestPath_terminates nodes routes (currentNode st)
              (startNodeId edge)) as [ps ->].
  destruct (findShortestPath_terminates nodes routes (currentNode st)
              (endNodeId edge)) as [pe ->].
  cbn [mbind res_bind].
  destruct (choose_path ps pe) as [cp|]; [| exact Hsame].
  destruct (1 <? length (sp_path cp))%nat; [| exact Hsame].
  eexists. split_and!; [done | done | | ]; cbn [walk].
  - exists (tail (sp_path cp)). apply follow_path.
  - intros Hnn. by apply follow_total.
Qed.

Lemma traverse_edges_returns nodes routes edgeOrder st :
  ∃ st', traverse_edges nodes routes st edgeOrder = Done st'
         ∧ (∃ ext, path (walk st') = path (walk st) ++ ext)
         ∧ (nonneg_distances routes →
            totalDistance (walk st)
            + total_weight (distinct_edges (edgesCovered st) edgeOrder)
            <= totalDistance (walk st')).
Proof.
  revert st. induction edgeOrder as [|edge rest IH]; intros st.
  - exists st. cbn [traverse_edges distinct_edges total_weight foldr].
    split; [done |]. split; [| lia].
    exists []. by rewrite app_nil_r.
  - cbn [traverse_edges distinct_edges]. unfold traverse_edge.
    case_bool_decide as Hcov.
    + cbn. apply IH.
    + destruct (stitch_returns nodes routes st edge)
        as (st1 & -> & Hc1 & [ext1 Hp1] & Ht1).
      cbn.
      match goal with
      | |- ∃ st', traverse_edges _ _ ?s _ = _ ∧ _ =>
          destruct (IH s) as (st' & Hst' & [ext Hp] & Ht)
      end.
      cbn [walk path totalDistance edgesCovered] in Hp, Ht.
      exists st'. split_and!; [done | |].
      * eexists. rewrite Hp, Hp1, <- !app_assoc. done.
      * intros Hnn. specialize (Ht Hnn). specialize (Ht1 Hnn).
        rewrite Hc1 in Ht. cbn [total_weight foldr].
        fold (total_weight
                (distinct_edges ({[route_id edge]} ∪ edgesCovered st) rest)).
        lia.
Qed.

(** The walk builder returns a walk for every start node and edge order:
    it has no failure exit. *)
Lemma traverseEdgesInOrder_returns nodes routes startNodeId edgeOrder :
  ∃ w, traverseEdgesInOrder nodes routes startNodeId edgeOrder = Done (Some w)
       ∧ head (path w) = Some startNodeId
       ∧ (nonneg_distances routes →
          total_weight (distinct_edges ∅ edgeOrder) <= totalDistance w).
Proof.
  unfold traverseEdgesInOrder.
  destruct (traverse_edges_returns nodes routes edgeOrder
              {| walk := {| path := [startNodeId]; totalDistance := 0 |};
                 currentNode := startNodeId;
                 edgesCovered := ∅ |}) as (st & -> & [ext Hp] & Ht).
  cbn [walk path totalDistance edgesCovered] in Hp, Ht.
  cbn [mbind res_bind].
  destruct (findShortestPath_terminates nodes routes (currentNode st) startNodeId)
    as [rp ->].
  cbn [mbind res_bind].
  assert (Hsame : head (path (walk st)) = Some startNodeId
                  ∧ (nonneg_distances routes →
                     total_weight (distinct_edges ∅ edgeOrder)
                     <= totalDistance (walk st))).
  { split; [by rewrite Hp | intros Hnn; specialize (Ht Hnn); lia]. }
  destruct rp as [rp|]; [| eauto].
  destruct (1 <? length (sp_path rp))%nat; [| eauto].
  eexists. split_and!; [done | |].
  - rewrite follow_path, Hp. done.
  - intros Hnn. specialize (Ht Hnn).
    pose proof (follow_total routes (sp_path rp) (walk st) Hnn). lia.
Qed.




(** ** The search *)

Lemma getAllEdgePermutations_exhaustive shuffle edges p :
  (length edges ≤ 8)%nat →
  p ∈ getAllEdgePermutations shuffle edges ↔ edges ≡ₚ p.
Proof.
  intros Hlen. unfold getAllEdgePermutations.
  destruct (decide (length edges ≤ 1)%nat) as [Hs | Hs].
  - rewrite (proj2 (Nat.leb_le _ _) Hs).
    rewrite <- (getEdgePermutations_fuel_small (length edges) edges Hs).
    split; [apply getEdgePermutations_fuel_sound |].
    by apply getEdgePermutations_fuel_complete.
  - rewrite (proj2 (Nat.leb_gt _ _)) by lia.
    rewrite (proj2 (Nat.ltb_ge _ _)) by lia.
    split; [apply getEdgePermutations_fuel_sound |].
    by apply getEdgePermutations_fuel_complete.
Qed.

Lemma getAllEdgePermutations_nonempty shuffle edges :
  ∃ o, o ∈ getAllEdgePermutations shuffle edges.
Proof.
  unfold getAllEdgePermutations.
  destruct (length edges <=? 1)%nat; [eexists; apply list_elem_of_here |].
  destruct (8 <? length edges)%nat; [eexists; apply list_elem_of_here |].
  exists edges. by apply getEdgePermutations_fuel_complete.
Qed.

Lemma try_orders_spec nodes routes startNodeId orders best :
  ∃ best',
    try_orders nodes routes startNodeId best orders = Done best'
    ∧ num_le (best_distance best') (best_distance best)
    ∧ (∀ o w, o ∈ orders →
              traverseEdgesInOrder nodes routes startNodeId o = Done (Some w) →
              num_le (best_distance best') (Fin (totalDistance w)))
    ∧ (best' = best
       ∨ ∃ o w, o ∈ orders
                ∧ traverseEdgesInOrder nodes routes startNodeId o = Done (Some w)
                ∧ best' = mkBestPath (path w) (Fin (totalDistance w))).
Proof.
  revert best. induction orders as [|o0 orders IH]; intros best.
  - exists best. cbn [try_orders]. split_and!; [done | apply num_le_refl | | by left].
    intros o w Ho. by apply elem_of_nil in Ho.
  - cbn [try_orders].
    destruct (traverseEdgesInOrder_returns nodes routes startNodeId o0)
      as (w0 & Hw0 & _). rewrite Hw0. cbn [mbind res_bind].
    destruct (IH (keep_best best (Some w0))) as (best' & -> & Hle & Hmin & Hsel).
    exists best'. split; [done |].
    assert (Hk : num_le (best_distance (keep_best best (Some w0)))
                   (best_distance best)
                 ∧ num_le (best_distance (keep_best best (Some w0)))
                     (Fin (totalDistance w0))).
    { cbn [keep_best].
      destruct (num_ltb (Fin (totalDistance w0)) (best_distance best)) eqn:Hlt.
      - cbn [best_distance].
        split; [by apply num_ltb_true_le | apply num_le_refl].
      - split; [apply num_le_refl | by apply num_ltb_false_le]. }
    destruct Hk as [Hk1 Hk2]. split_and!.
    + by eapply num_le_trans.
    + intros o w Ho Hw. apply elem_of_cons in Ho as [-> | Ho].
      * rewrite Hw0 in Hw. inversion Hw; subst w0. by eapply num_le_trans.
      * by eapply Hmin.
    + destruct Hsel as [-> | (o & w & Ho & Hw & ->)].
      * cbn [keep_best].
        destruct (num_ltb (Fin (totalDistance w0)) (best_distance best));
          [| by left].
        right. exists o0, w0. split_and!; [apply list_elem_of_here | done | done].
      * right. exists o, w. split_and!; [by apply list_elem_of_further | done | done].
Qed.

(** From one start node: the best walk over the generated orders. *)
Lemma findOptimalPathFromStart_spec shuffle nodes routes startNodeId :
  ∃ o w,
    o ∈ getAllEdgePermutations shuffle routes
    ∧ traverseEdgesInOrder nodes routes startNodeId o = Done (Some w)
    ∧ findOptimalPathFromStart shuffle nodes routes startNodeId
      = Done (Some (mkBestPath (path w) (Fin (totalDistance w))))
    ∧ ∀ o' w', o' ∈ getAllEdgePermutations shuffle routes →
               traverseEdgesInOrder nodes routes startNodeId o' = Done (Some w') →
               totalDistance w <= totalDistance w'.
Proof.
  unfold findOptimalPathFromStart.
  destruct (try_orders_spec nodes routes startNodeId
              (getAllEdgePermutations shuffle routes) (mkBestPath [] Infinity))
    as (best' & -> & _ & Hmin & Hsel).
  cbn [mbind res_bind].
  destruct Hsel as [-> | (o & w & Ho & Hw & ->)].
  - exfalso.
    destruct (getAllEdgePermutations_nonempty shuffle routes) as [o Ho].
    destruct (traverseEdgesInOrder_returns nodes routes startNodeId o)
      as (w & Hw & _).
    apply (Hmin o w Ho Hw).
  - exists o, w. split_and!; [done | done | | ].
    + cbn [best_path].
      destruct (traverseEdgesInOrder_returns nodes routes startNodeId o)
        as (w1 & Hw1 & Hhead & _).
      rewrite Hw in Hw1. inversion Hw1; subst w1.
      destruct (path w); [done |]. done.
    + intros o' w' Ho' Hw'. apply (Hmin o' w' Ho' Hw').
Qed.

Lemma try_starts_spec shuffle nodes routes starts best :
  ∃ best',
    try_starts shuffle nodes routes best starts = Done best'
    ∧ num_le (best_distance best') (best_distance best)
    ∧ (∀ s r, s ∈ starts →
              findOptimalPathFromStart shuffle nodes routes (node_id s)
              = Done (Some r) →
              num_le (best_distance best') (best_distance r))
    ∧ (best' = best
       ∨ ∃ s, s ∈ starts
              ∧ findOptimalPathFromStart shuffle nodes routes (node_id s)
                = Done (Some best')).
Proof.
  revert best. induction starts as [|s0 starts IH]; intros best.
  - exists best. cbn [try_starts]. split_and!; [done | apply num_le_refl | | by left].
    intros s r Hs. by apply elem_of_nil in Hs.
  - cbn [try_starts].
    destruct (findOptimalPathFromStart_spec shuffle nodes routes (node_id s0))
      as (o0 & w0 & _ & _ & Hr0 & _).
    rewrite Hr0. cbn [mbind res_bind].
    set (r0 := mkBestPath (path w0) (Fin (totalDistance w0))) in *.
    destruct (IH (keep_global best (Some r0))) as (best' & -> & Hle & Hmin & Hsel).
    exists best'. split; [done |].
    assert (Hk : num_le (best_distance (keep_global best (Some r0)))
                   (best_distance best)
                 ∧ num_le (best_distance (keep_global best (Some r0)))
                     (best_distance r0)).
    { cbn [keep_global].
      destruct (num_ltb (best_distance r0) (best_distance best)) eqn:Hlt.
      - split; [by apply num_ltb_true_le | apply num_le_refl].
      - split; [apply num_le_refl | by apply num_ltb_false_le]. }
    destruct Hk as [Hk1 Hk2]. split_and!.
    + by eapply num_le_trans.
    + intros s r Hs Hr. apply elem_of_cons in Hs as [-> | Hs].
      * rewrite Hr0 in Hr. inversion Hr; subst r. by eapply num_le_trans.
      * by eapply Hmin.
    + destruct Hsel as [-> | (s & Hs & Hr)].
      * cbn [keep_global].
        destruct (num_ltb (best_distance r0) (best_distance best));
          [| by left].
        right. exists s0. split; [apply list_elem_of_here | done].
      * right. exists s. split; [by apply list_elem_of_further | done].
Qed.

(** With 1 to 12 routes and at least one node, the optimizer reports the
    best walk over all start nodes and all generated orders. *)
Lemma optimizeRoute_minimum shuffle nodes routes :
  (1 ≤ length routes ≤ 12)%nat → nodes ≠ [] →
  ∃ s o w,
    s ∈ map node_id nodes
    ∧ o ∈ getAllEdgePermutations shuffle routes
    ∧ traverseEdgesInOrder nodes routes s o = Done (Some w)
    ∧ optimizeRoute shuffle nodes routes
      = Done (Optimized (mkBestPath (path w) (Fin (totalDistance w))))
    ∧ ∀ s' o' w', s' ∈ map node_id nodes →
                  o' ∈ getAllEdgePermutations shuffle routes →
                  traverseEdgesInOrder nodes routes s' o' = Done (Some w') →
                  totalDistance w <= totalDistance w'.
Proof.
  intros [Hlo Hhi] Hnodes. unfold optimizeRoute.
  rewrite (proj2 (Nat.ltb_ge _ _)) by lia.
  rewrite (proj2 (Nat.ltb_ge _ _)) by lia.
  destruct (try_starts_spec shuffle nodes routes nodes (mkBestPath [] Infinity))
    as (best' & -> & _ & Hmin & Hsel).
  cbn [mbind res_bind].
  assert (Hall : ∀ s' o' w', s' ∈ map node_id nodes →
                   o' ∈ getAllEdgePermutations shuffle routes →
                   traverseEdgesInOrder nodes routes s' o' = Done (Some w') →
                   num_le (best_distance best') (Fin (totalDistance w'))).
  { intros s' o' w' Hs' Ho' Hw'.
    apply list_elem_of_In, in_map_iff in Hs' as (n0 & <- & Hn0).
    apply list_elem_of_In in Hn0.
    destruct (findOptimalPathFromStart_spec shuffle nodes routes (node_id n0))
      as (o1 & w1 & _ & _ & Hr1 & Hmin1).
    eapply num_le_trans; [apply (Hmin n0 _ Hn0 Hr1) |].
    cbn [best_distance]. simpl. by eapply Hmin1. }
  destruct Hsel as [-> | (s & Hs & Hr)].
  - exfalso. destruct nodes as [|n0 nodes]; [done |].
    destruct (getAllEdgePermutations_nonempty shuffle routes) as [o Ho].
    destruct (traverseEdgesInOrder_returns (n0 :: nodes) routes (node_id n0) o)
      as (w & Hw & _).
    apply (Hall (node_id n0) o w); [| done | done].
    apply list_elem_of_In, in_map, list_elem_of_In, list_elem_of_here.
  - destruct (findOptimalPathFromStart_spec shuffle nodes routes (node_id s))
      as (o & w & Ho & Hw & Hr' & _).
    rewrite Hr' in Hr. inversion Hr; subst best'.
    exists (node_id s), o, w. split_and!; [| done | done | done |].
    + by apply list_elem_of_In, in_map, list_elem_of_In.
    + intros s' o' w' Hs' Ho' Hw'.
      apply (Hall s' o' w' Hs' Ho' Hw').
Qed.

(** C1: on a valid graph with at most 8 edges the optimizer reports the walk
    of some pair (start node, permutation of the edge list), and no pair of
    a node and a permutation of the edge list gives a walk builder result of
    smaller total distance. *)
Theorem optimizeRoute_exhaustive shuffle nodes routes :
  valid_graph nodes routes →
  (length routes ≤ 8)%nat →
  ∃ p d,
    optimizeRoute shuffle nodes routes = Done (Optimized (mkBestPath p (Fin d)))
    ∧ (∃ s o, s ∈ map node_id nodes ∧ routes ≡ₚ o
              ∧ traverseEdgesInOrder nodes routes s o = Done (Some (mkWalk p d)))
    ∧ (∀ s o, s ∈ map node_id nodes → routes ≡ₚ o →
              ∃ w, traverseEdgesInOrder nodes routes s o = Done (Some w)
                   ∧ d <= totalDistance w).
Proof.
  intros (Hknown & _ & Hlen) H8.
  assert (Hnodes : nodes ≠ []).
  { intros ->. destruct routes as [|r routes]; [simpl in Hlen; lia |].
    apply Forall_cons in Hknown as [[Hs _] _]. by apply elem_of_nil in Hs. }
  destruct (optimizeRoute_minimum shuffle nodes routes Hlen Hnodes)
    as (s & o & w & Hs & Ho & Hw & Hopt & Hmin).
  exists (path w), (totalDistance w). split_and!.
  - done.
  - exists s, o. split_and!; [done | by apply getAllEdgePermutations_exhaustive in Ho |].
    by destruct w.
  - intros s' o' Hs' Ho'.
    destruct (traverseEdgesInOrder_returns nodes routes s' o') as (w' & Hw' & _).
    exists w'. split; [done |].
    apply (Hmin s' o' w' Hs'); [| done].
    by apply getAllEdgePermutations_exhaustive.
Qed.

(** ** Input checks of the optimizer *)

(** C5, as the code has it: the optimizer rejects a route list that is empty
    or longer than 12, before any search, and nothing else: with 1 to 12
    routes it runs the search and reports a result, whatever the route ends
    and distances are. *)
Theorem optimizeRoute_rejects shuffle nodes routes :
  (rejected (optimizeRoute shuffle nodes routes)
   ↔ (length routes < 1 ∨ 12 < length routes)%nat)
  ∧ ((1 ≤ length routes ≤ 12)%nat →
     ∃ result, optimizeRoute shuffle nodes routes = Done (Optimized result)).
Proof.
  unfold rejected, optimizeRoute.
  destruct (length routes <? 1)%nat eqn:H1.
  { apply Nat.ltb_lt in H1. split; [| lia]. split; [auto | eauto]. }
  apply Nat.ltb_ge in H1.
  destruct (12 <? length routes)%nat eqn:H12.
  { apply Nat.ltb_lt in H12. split; [| lia]. split; [auto | eauto]. }
  apply Nat.ltb_ge in H12.
  destruct (try_starts_spec shuffle nodes routes nodes (mkBestPath [] Infinity))
    as (best' & -> & _).
  cbn [mbind res_bind]. split; [| eauto].
  split; [intros [msg Hmsg]; done | lia].
Qed.

(** C5 fails as stated: a route of negative distance and a route to an
    unknown node are not rejected; a walk is computed and reported. *)
Lemma optimizeRoute_accepts_invalid :
  ¬ nonneg_distances negative_routes
  ∧ optimizeRoute no_shuffle pair_nodes negative_routes
    = Done (Optimized (mkBestPath [1; 2; 1] (Fin (-10))))
  ∧ ¬ rejected (optimizeRoute no_shuffle pair_nodes negative_routes)
  ∧ ¬ endpoints_known pair_nodes dangling_routes
  ∧ optimizeRoute no_shuffle pair_nodes dangling_routes
    = Done (Optimized (mkBestPath [1; 7] (Fin 10)))
  ∧ ¬ rejected (optimizeRoute no_shuffle pair_nodes dangling_routes).
Proof.
  assert (H1 : optimizeRoute no_shuffle pair_nodes negative_routes
               = Done (Optimized (mkBestPath [1; 2; 1] (Fin (-10)))))
    by (vm_compute; reflexivity).
  assert (H2 : optimizeRoute no_shuffle pair_nodes dangling_routes
               = Done (Optimized (mkBestPath [1; 7] (Fin 10))))
    by (vm_compute; reflexivity).
  split_and!; try done.
  - intros H. apply Forall_cons in H as [H _]. simpl in H. lia.
  - rewrite H1. intros [msg Hmsg]. done.
  - intros H. apply Forall_cons in H as [[_ H] _].
    apply list_elem_of_In in H. simpl in H. intuition lia.
  - rewrite H2. intros [msg Hmsg]. done.
Qed.

(** ** Connected graphs: the walk is closed and covers the routes *)

Lemma traverses_app p ext r : traverses p r → traverses (p ++ ext) r.
Proof.
  intros (i & a & b & Ha & Hb & Hj). exists i, a, b.
  split_and!; [by apply lookup_app_l_Some | by apply lookup_app_l_Some | done].
Qed.

Lemma traverses_snoc p a b r :
  last p = Some a → joins r a b → traverses (p ++ [b]) r.
Proof.
  intros Hl Hj. rewrite last_lookup in Hl.
  assert (Hlen : (0 < length p)%nat).
  { apply lookup_lt_Some in Hl. lia. }
  exists (pred (length p)), a, b. split_and!; [by apply lookup_app_l_Some | | done].
  rewrite lookup_app_r by lia.
  by replace (S (pred (length p)) - length p)%nat with 0%nat by lia.
Qed.

Lemma List_last_Some (l : list Z) x d : last l = Some x → List.last l d = x.
Proof.
  intros Hl. apply last_Some in Hl as [l' ->]. apply List.last_last.
Qed.

Lemma tail_of_path (p : list Z) x y :
  head p = Some x → last p = Some y → x ≠ y →
  last (tail p) = Some y ∧ (1 <? length p)%nat = true.
Proof.
  intros Hh Hl Hne. destruct p as [|x' [|z p]]; [done | |].
  - cbn in Hh, Hl. congruence.
  - split; [by rewrite last_cons_cons in Hl | done].
Qed.

Section Connected.
Variables (nodes : list Node) (routes : list Route) (start : Z).
Hypothesis Hknown : endpoints_known nodes routes.
Hypothesis Hconn : connected nodes routes.

Lemma findShortestPath_connected a b :
  a ∈ map node_id nodes → b ∈ map node_id nodes →
  ∃ p, findShortestPath nodes routes a b = Done (Some p)
       ∧ head (sp_path p) = Some a ∧ last (sp_path p) = Some b.
Proof.
  intros Ha Hb.
  destruct (findShortestPath_complete nodes routes a b Hknown (Hconn a b Ha Hb))
    as [p Hp].
  destruct (findShortestPath_wpath _ _ _ _ _ Hp) as (d & _ & Hw).
  exists p. split_and!; [done | by eapply wpath_head | by eapply wpath_last].
Qed.

Lemma stitch_connected st edge :
  at_current nodes start st → edge ∈ routes →
  ∃ st', stitch nodes routes st edge = Done st'
         ∧ at_current nodes start st'
         ∧ edgesCovered st' = edgesCovered st
         ∧ (∃ ext, path (walk st') = path (walk st) ++ ext)
         ∧ (currentNode st' = startNodeId edge
            ∨ currentNode st' = endNodeId edge).
Proof.
  intros (Hcur & Hlast & Hhead) Hedge.
  destruct (proj1 (Forall_forall _ _) Hknown edge Hedge) as [Hs He].
  unfold stitch.
  case_bool_decide as H1; [| try apply dec_stable in H1].
  2:{ cbn [andb]. exists st. split_and!; try done; [| by left].
      exists []. by rewrite app_nil_r. }
  case_bool_decide as H2; [| try apply dec_stable in H2].
  2:{ cbn [andb]. exists st. split_and!; try done; [| by right].
      exists []. by rewrite app_nil_r. }
  cbn [andb].
  destruct (findShortestPath_connected (currentNode st) (startNodeId edge))
    as (ps & -> & Hps1 & Hps2); [done | done |].
  destruct (findShortestPath_connected (currentNode st) (endNodeId edge))
    as (pe & -> & Hpe1 & Hpe2); [done | done |].
  cbn [mbind res_bind choose_path].
  assert (Hcp : ∃ cp t,
             (if num_ltb (sp_distance pe) (sp_distance ps) then Some pe else Some ps)
             = Some cp
             ∧ head (sp_path cp) = Some (currentNode st)
             ∧ last (sp_path cp) = Some t
             ∧ t ≠ currentNode st ∧ t ∈ map node_id nodes
             ∧ (t = startNodeId edge ∨ t = endNodeId edge)).
  { destruct (num_ltb (sp_distance pe) (sp_distance ps)).
    - exists pe, (endNodeId edge).
      split_and!; first [done | congruence | by right].
    - exists ps, (startNodeId edge).
      split_and!; first [done | congruence | by left]. }
  destruct Hcp as (cp & t & -> & Hcp1 & Hcp2 & Hne & Ht & Hends).
  destruct (tail_of_path (sp_path cp) (currentNode st) t) as [Htail ->];
    [done | done | congruence |].
  eexists. split; [done |].
  unfold at_current. cbn [walk currentNode edgesCovered].
  rewrite follow_path, (List_last_Some _ t) by done.
  split_and!; try done.
  - rewrite last_app, Htail. done.
  - rewrite head_app, Hhead. done.
  - by eexists.
Qed.

Lemma traverse_edges_connected edgeOrder st :
  at_current nodes start st →
  NoDup (map route_id edgeOrder) →
  (∀ e, e ∈ edgeOrder → route_id e ∉ edgesCovered st) →
  (∀ e, e ∈ edgeOrder → e ∈ routes) →
  ∃ st', traverse_edges nodes routes st edgeOrder = Done st'
         ∧ at_current nodes start st'
         ∧ (∃ ext, path (walk st') = path (walk st) ++ ext)
         ∧ ∀ e, e ∈ edgeOrder → traverses (path (walk st')) e.
Proof.
  revert st. induction edgeOrder as [|edge rest IH]; intros st Hst Hnd Hcov Hin.
  - exists st. cbn [traverse_edges]. split_and!; try done.
    + exists []. by rewrite app_nil_r.
    + intros e He. by apply elem_of_nil in He.
  - cbn [traverse_edges]. unfold traverse_edge.
    rewrite bool_decide_false by apply Hcov, list_elem_of_here.
    assert (Hedge : edge ∈ routes) by apply Hin, list_elem_of_here.
    destruct (stitch_connected st edge Hst Hedge)
      as (st1 & -> & (Hcur1 & Hlast1 & Hhead1) & Hc1 & [ext1 Hp1] & Hend).
    cbn [mbind res_bind].
    set (next := if bool_decide (currentNode st1 = startNodeId edge)
                 then endNodeId edge else startNodeId edge).
    assert (Hj : joins edge (currentNode st1) next).
    { subst next. case_bool_decide as Hs; [by left |].
      destruct Hend as [? | He]; [done | by right]. }
    assert (Hnext : next ∈ map node_id nodes).
    { destruct (proj1 (Forall_forall _ _) Hknown edge Hedge) as [Hs He].
      subst next. by case_bool_decide. }
    cbn [map] in Hnd. apply NoDup_cons in Hnd as [Hfresh Hnd].
    match goal with
    | |- ∃ st', traverse_edges _ _ ?s _ = _ ∧ _ =>
        destruct (IH s) as (st' & Hst' & Hat' & [ext Hp] & Htr)
    end.
    + unfold at_current. cbn [walk path currentNode].
      split_and!; [done | apply last_snoc |].
      rewrite head_app, Hhead1. done.
    + done.
    + intros e He. cbn [edgesCovered]. rewrite Hc1.
      intros Hc. apply elem_of_union in Hc as [Hc | Hc].
      * apply elem_of_singleton in Hc. apply Hfresh.
        rewrite <- Hc. by apply list_elem_of_In, in_map, list_elem_of_In.
      * by apply (Hcov e (list_elem_of_further _ _ _ He)).
    + intros e He. by apply Hin, list_elem_of_further.
    + cbn [walk path] in Hp.
      exists st'. split_and!; [done | done | |].
      * eexists. rewrite Hp, Hp1, <- !app_assoc. done.
      * intros e He. apply elem_of_cons in He as [-> | He]; [| by apply Htr].
        rewrite Hp. apply traverses_app.
        by apply traverses_snoc with (currentNode st1).
Qed.

(** The walk builder on a connected graph: the walk returns to its start
    node and goes along every edge of the order. *)
Lemma traverseEdgesInOrder_connected edgeOrder :
  start ∈ map node_id nodes →
  NoDup (map route_id edgeOrder) →
  (∀ e, e ∈ edgeOrder → e ∈ routes) →
  ∃ w, traverseEdgesInOrder nodes routes start edgeOrder = Done (Some w)
       ∧ closed_walk (path w)
       ∧ covers (path w) edgeOrder.
Proof.
  intros Hstart Hnd Hin. unfold traverseEdgesInOrder.
  destruct (traverse_edges_connected edgeOrder
              {| walk := {| path := [start]; totalDistance := 0 |};
                 currentNode := start;
                 edgesCovered := ∅ |})
    as (st & -> & (Hcur & Hlast & Hhead) & _ & Htr);
    [by unfold at_current | done | | done |].
  { intros e _. cbn [edgesCovered]. set_solver. }
  cbn [mbind res_bind].
  destruct (findShortestPath_connected (currentNode st) start)
    as (rp & -> & Hrp1 & Hrp2); [done | done |].
  cbn [mbind res_bind].
  destruct (decide (currentNode st = start)) as [Heq | Hne].
  - assert (Hsame : closed_walk (path (walk st))
                    ∧ covers (path (walk st)) edgeOrder).
    { split; [| done]. exists start. by rewrite Hlast, Heq. }
    destruct (1 <? length (sp_path rp))%nat eqn:Hlen; [| eauto].
    eexists. split; [done |]. rewrite follow_path. split.
    + exists start. split; [by rewrite head_app, Hhead |].
      rewrite last_app.
      destruct (sp_path rp) as [|x [|y t]]; [done | done |].
      cbn [tail]. by rewrite last_cons_cons in Hrp2; rewrite Hrp2.
    + intros e He. by apply traverses_app, Htr.
  - destruct (tail_of_path (sp_path rp) (currentNode st) start)
      as [Htail ->]; [done | done | done |].
    eexists. split; [done |]. rewrite follow_path. split.
    + exists start. split; [by rewrite head_app, Hhead |].
      by rewrite last_app, Htail.
    + intros e He. by apply traverses_app, Htr.
Qed.
End Connected.

(** X8: On a connected graph whose routes end at known nodes and have pairwise
    distinct identifiers, the walk that the optimizer reports is closed and
    goes along every route. *)
Theorem optimizeRoute_connected shuffle nodes routes :
  (∀ i l, l ≡ₚ shuffle i l) →
  endpoints_known nodes routes →
  connected nodes routes →
  NoDup (map route_id routes) →
  (1 ≤ length routes ≤ 12)%nat →
  ∃ p d, optimizeRoute shuffle nodes routes
         = Done (Optimized (mkBestPath p (Fin d)))
         ∧ closed_walk p
         ∧ covers p routes.
Proof.
  intros Hshuffle Hknown Hconn Hnd Hlen.
  assert (Hnodes : nodes ≠ []).
  { intros ->. destruct routes as [|r routes]; [simpl in Hlen; lia |].
    apply Forall_cons in Hknown as [[Hs _] _]. by apply elem_of_nil in Hs. }
  destruct (optimizeRoute_minimum shuffle nodes routes Hlen Hnodes)
    as (s & o & w & Hs & Ho & Hw & Hopt & _).
  pose proof (getAllEdgePermutations_sound shuffle routes o Hshuffle Ho) as Hperm.
  destruct (traverseEdgesInOrder_connected nodes routes s Hknown Hconn o)
    as (w' & Hw' & Hclosed & Hcovers); [done | by rewrite <- Hperm | |].
  { intros e He. by rewrite Hperm. }
  rewrite Hw in Hw'. inversion Hw'; subst w'.
  exists (path w), (totalDistance w). split_and!; [done | done |].
  intros e He. apply Hcovers. by rewrite <- Hperm.
Qed.

(** ** Graphs that no closed walk covers *)

Lemma apart_known : endpoints_known apart_nodes apart_routes.
Proof. unfold endpoints_known. compute_done. Qed.

Lemma apart_unreachable : ¬ reachable apart_routes 1 3.
Proof.
  intros Hr.
  destruct (findShortestPath_complete apart_nodes apart_routes 1 3 apart_known Hr)
    as [p Hp].
  vm_compute in Hp. done.
Qed.

Lemma open_walk_123 : ¬ closed_walk [1; 2; 3].
Proof. intros (x & Hh & Hl). cbn in Hh, Hl. congruence. Qed.

Lemma uncovered_123 : ¬ traverses [1; 2; 3] (mkRoute 2 3 4 10).
Proof.
  intros (i & a & b & Ha & Hb & Hj).
  destruct i as [|[|[|i]]]; cbn in Ha, Hb; try done;
    inversion Ha; inversion Hb; subst;
    destruct Hj as [[Hs He] | [He Hs]]; cbn in Hs, He; lia.
Qed.

(** C2 at the two routes that share no node: the optimizer reports the node
    sequence [1, 2, 3], which does not return to its first node and never
    goes along the route between 3 and 4. *)
Theorem optimizeRoute_apart :
  optimizeRoute no_shuffle apart_nodes apart_routes
  = Done (Optimized (mkBestPath [1; 2; 3] (Fin 20)))
  ∧ ¬ closed_walk [1; 2; 3]
  ∧ ¬ covers [1; 2; 3] apart_routes.
Proof.
  split_and!.
  - vm_compute. reflexivity.
  - apply open_walk_123.
  - intros Hc. apply uncovered_123, Hc.
    unfold apart_routes. apply list_elem_of_further, list_elem_of_here.
Qed.

(** C4 at the two routes that share no node, start node 1: at node 2 neither
    end of the second route can be reached and, at the end, node 1 cannot be
    reached from node 3; the builder returns a walk all the same. *)
Theorem traverseEdgesInOrder_apart :
  findShortestPath apart_nodes apart_routes 2 3 = Done None
  ∧ findShortestPath apart_nodes apart_routes 2 4 = Done None
  ∧ findShortestPath apart_nodes apart_routes 3 1 = Done None
  ∧ traverseEdgesInOrder apart_nodes apart_routes 1 apart_routes
    = Done (Some (mkWalk [1; 2; 3] 20)).
Proof. split_and!; vm_compute; reflexivity. Qed.

(** C3 at the two routes that share no node: they lie in two components of
    the graph, so that no walk goes along both, and the optimizer reports the
    walk [1, 2, 3], which is not closed and does not go along the second
    route, as its result.  Without any node
    there is no pair of a start node and an order at all, and the optimizer
    reports the empty node sequence as its result. *)
Theorem disconnected_graph_reports_walk :
  ¬ reachable apart_routes 1 3
  ∧ optimizeRoute no_shuffle apart_nodes apart_routes
    = Done (Optimized (mkBestPath [1; 2; 3] (Fin 20)))
  ∧ ¬ closed_walk [1; 2; 3]
  ∧ ¬ covers [1; 2; 3] apart_routes
  ∧ optimizeRoute no_shuffle [] apart_routes
    = Done (Optimized (mkBestPath [] Infinity)).
Proof.
  split_and!.
  - apply apart_unreachable.
  - vm_compute. reflexivity.
  - apply open_walk_123.
  - intros Hc. apply uncovered_123, Hc.
    unfold apart_routes. apply list_elem_of_further, list_elem_of_here.
  - vm_compute. reflexivity.
Qed.

(** ** One route between two nodes *)

Lemma wpath_nonempty routes s l t w : wpath routes s l t w → l ≠ [].
Proof. destruct 1; [done |]. by destruct l. Qed.

Lemma wpath_one routes s x t w : wpath routes s [x] t w → w = 0.
Proof.
  inversion 1 as [|l y w' r z Hp Hr Hj Hl]; [done |].
  destruct l as [|a l].
  - by apply wpath_nonempty in Hp.
  - destruct l; done.
Qed.

Lemma wpath_two r s x t w : wpath [r] s [x; t] t w → w = distance r.
Proof.
  inversion 1 as [|l y w' r' z Hp Hr Hj Hl].
  destruct l as [|a [|b l]]; [done | | destruct l; done].
  apply wpath_one in Hp. apply list_elem_of_singleton in Hr. subst. lia.
Qed.

Section Pair.
Variables (na nb : Node) (r : Route).
Hypothesis Hab : node_id na ≠ node_id nb.
Hypothesis Hr : joins r (node_id na) (node_id nb).

Lemma pair_known : endpoints_known [na; nb] [r].
Proof.
  apply Forall_singleton. cbn [map].
  destruct Hr as [[-> ->] | [-> ->]]; split;
    rewrite !elem_of_cons; tauto.
Qed.

Lemma findShortestPath_pair s t :
  (s = node_id na ∧ t = node_id nb) ∨ (s = node_id nb ∧ t = node_id na) →
  findShortestPath [na; nb] [r] s t
  = Done (Some (mkShortestPath [s; t] (Fin (distance r)))).
Proof.
  intros Hst.
  assert (Hne : s ≠ t) by (destruct Hst as [[-> ->] | [-> ->]]; congruence).
  assert (Hj : joins r s t).
  { destruct Hst as [[-> ->] | [-> ->]]; [done |].
    destruct Hr as [[? ?] | [? ?]]; [by right | by left]. }
  destruct (findShortestPath_complete [na; nb] [r] s t pair_known) as [p Hp].
  { exists ([s] ++ [t]), (0 + distance r).
    apply wpath_snoc with s; [apply wpath_nil | apply list_elem_of_here | done]. }
  rewrite Hp. do 2 f_equal.
  destruct (findShortestPath_wpath _ _ _ _ _ Hp) as (d & Hd & Hw).
  destruct (findShortestPath_NoDup _ _ _ _ _ Hp) as [Hnd Hids].
  specialize (Hids Hne).
  pose proof (wpath_head _ _ _ _ _ Hw) as Hhead.
  pose proof (wpath_last _ _ _ _ _ Hw) as Hlast.
  destruct p as [l dp]. cbn [sp_path sp_distance] in *. subst dp.
  destruct l as [|x l]; [done |]. cbn in Hhead. inversion Hhead; subst x.
  assert (Hl : l = [t]).
  { apply NoDup_cons in Hnd as [Hs Hnd].
    assert (Hall : ∀ y, y ∈ l → y = t).
    { intros y Hy. assert (Hys : y ≠ s) by (by intros ->).
      specialize (Hids y (list_elem_of_further _ _ _ Hy)).
      cbn [map] in Hids. rewrite !elem_of_cons, elem_of_nil in Hids.
      destruct Hst as [[-> ->] | [-> ->]]; tauto. }
    destruct l as [|y l].
    - cbn in Hlast. congruence.
    - rewrite (Hall y) in * by apply list_elem_of_here.
      destruct l as [|z l]; [done |]. exfalso.
      apply NoDup_cons in Hnd as [Ht _]. apply Ht.
      rewrite (Hall z); [apply list_elem_of_here |].
      apply list_elem_of_further, list_elem_of_here. }
  subst l. by rewrite (wpath_two _ _ _ _ _ Hw).
Qed.

Lemma getDistanceBetweenNodes_pair s t :
  joins r s t → getDistanceBetweenNodes [r] t s = distance r.
Proof.
  intros Hj. unfold getDistanceBetweenNodes. cbn [List.find].
  assert (Hc : connects t s r = true).
  { unfold connects. apply orb_true_iff.
    destruct Hj as [[Hs He] | [He Hs]]; [right | left];
      apply andb_true_iff; split; by apply bool_decide_eq_true_2. }
  by rewrite Hc.
Qed.

Lemma traverseEdgesInOrder_pair s t :
  (s = node_id na ∧ t = node_id nb) ∨ (s = node_id nb ∧ t = node_id na) →
  traverseEdgesInOrder [na; nb] [r] s [r]
  = Done (Some (mkWalk [s; t; s] (distance r + distance r))).
Proof.
  intros Hst.
  assert (Hne : s ≠ t) by (destruct Hst as [[-> ->] | [-> ->]]; congruence).
  assert (Hj : joins r s t).
  { destruct Hst as [[-> ->] | [-> ->]]; [done |].
    destruct Hr as [[? ?] | [? ?]]; [by right | by left]. }
  assert (Hts : (t = node_id na ∧ s = node_id nb)
                ∨ (t = node_id nb ∧ s = node_id na)) by tauto.
  unfold traverseEdgesInOrder.
  cbn [traverse_edges]. unfold traverse_edge.
  cbn [edgesCovered currentNode walk].
  rewrite bool_decide_false by set_solver.
  assert (Hstitch : ∀ st, currentNode st = s →
                          stitch [na; nb] [r] st r = Done st).
  { intros st Hcur. unfold stitch. rewrite Hcur.
    destruct Hj as [[Hs He] | [He Hs]].
    - rewrite (bool_decide_false (s ≠ startNodeId r)) by (rewrite Hs; tauto).
      done.
    - rewrite (bool_decide_false (s ≠ endNodeId r)) by (rewrite He; tauto).
      by rewrite andb_false_r. }
  rewrite Hstitch by done. cbn [mbind res_bind currentNode walk path totalDistance].
  assert (Hnext : (if bool_decide (s = startNodeId r) then endNodeId r
                   else startNodeId r) = t).
  { destruct Hj as [[Hs He] | [He Hs]].
    - by rewrite bool_decide_true.
    - rewrite bool_decide_false; [done |]. rewrite Hs. congruence. }
  rewrite Hnext.
  rewrite (findShortestPath_pair t s Hts).
  cbn [mbind res_bind sp_path length Nat.ltb Nat.leb follow append_hops path
         totalDistance app].
  rewrite (getDistanceBetweenNodes_pair s t Hj).
  by rewrite Z.add_0_l.
Qed.
End Pair.

(** C8: with exactly two nodes [a], [b] and one route between them, the
    optimizer reports the walk [a, b, a], [a] being the first node of the
    node list, with total distance twice the distance of the route. *)
Theorem optimizeRoute_single_route shuffle na nb r :
  node_id na ≠ node_id nb →
  joins r (node_id na) (node_id nb) →
  optimizeRoute shuffle [na; nb] [r]
  = Done (Optimized (mkBestPath [node_id na; node_id nb; node_id na]
                       (Fin (2 * distance r)))).
Proof.
  intros Hab Hr.
  unfold optimizeRoute. cbn [length Nat.ltb Nat.leb try_starts].
  unfold findOptimalPathFromStart, getAllEdgePermutations.
  cbn [length Nat.leb try_orders].
  rewrite (traverseEdgesInOrder_pair na nb r Hab Hr (node_id na) (node_id nb))
    by tauto.
  rewrite (traverseEdgesInOrder_pair na nb r Hab Hr (node_id nb) (node_id na))
    by tauto.
  cbn [mbind res_bind keep_best totalDistance path best_distance best_path
         num_ltb length Nat.ltb Nat.leb keep_global].
  rewrite Z.ltb_irrefl.
  by replace (2 * distance r) with (distance r + distance r) by lia.
Qed.

(** ** The results at sample graphs *)

Lemma triangle_valid : valid_graph triangle_nodes triangle_routes.
Proof.
  unfold valid_graph, endpoints_known, nonneg_distances.
  split_and!; [compute_done | compute_done | simpl; lia | simpl; lia].
Defined.

(** The exhaustive search on the triangle. *)
Lemma optimizeRoute_exhaustive_triangle :
  valid_graph triangle_nodes triangle_routes
  ∧ (length triangle_routes ≤ 8)%nat
  ∧ ∃ p d,
      optimizeRoute no_shuffle triangle_nodes triangle_routes
      = Done (Optimized (mkBestPath p (Fin d)))
      ∧ (∃ s o, s ∈ map node_id triangle_nodes ∧ triangle_routes ≡ₚ o
                ∧ traverseEdgesInOrder triangle_nodes triangle_routes s o
                  = Done (Some (mkWalk p d)))
      ∧ (∀ s o, s ∈ map node_id triangle_nodes → triangle_routes ≡ₚ o →
                ∃ w, traverseEdgesInOrder triangle_nodes triangle_routes s o
                     = Done (Some w)
                     ∧ d <= totalDistance w).
Proof.
  split; [apply triangle_valid |]. split; [simpl; lia |].
  apply (optimizeRoute_exhaustive no_shuffle triangle_nodes triangle_routes).
  - apply triangle_valid.
  - simpl; lia.
Defined.

(** The shortest path from [a] to [c] in the triangle. *)
Lemma findShortestPath_correct_triangle :
  endpoints_known triangle_nodes triangle_routes
  ∧ nonneg_distances triangle_routes
  ∧ (1 = 3 →
     findShortestPath triangle_nodes triangle_routes 1 3
     = Done (Some (mkShortestPath [1] (Fin 0))))
  ∧ (findShortestPath triangle_nodes triangle_routes 1 3 = Done None
     ↔ ¬ reachable triangle_routes 1 3)
  ∧ (∀ p, findShortestPath triangle_nodes triangle_routes 1 3 = Done (Some p) →
          ∃ d, sp_distance p = Fin d
               ∧ wpath triangle_routes 1 (sp_path p) 3 d
               ∧ ∀ l w, wpath triangle_routes 1 l 3 w → d <= w)
  ∧ (∃ r, findShortestPath triangle_nodes triangle_routes 1 3 = Done r).
Proof.
  split; [apply triangle_valid |]. split; [apply triangle_valid |].
  apply (findShortestPath_correct triangle_nodes triangle_routes 1 3);
    apply triangle_valid.
Defined.

(** The orders of the three routes of the triangle. *)
Lemma getAllEdgePermutations_orders_triangle :
  (∀ i l, l ≡ₚ no_shuffle i l)
  ∧ ((length triangle_routes ≤ 1)%nat →
     getAllEdgePermutations no_shuffle triangle_routes = [triangle_routes])
  ∧ ((2 ≤ length triangle_routes ≤ 8)%nat →
     length (getAllEdgePermutations no_shuffle triangle_routes)
     = fact (length triangle_routes)
     ∧ (∀ p, triangle_routes ≡ₚ p →
             p ∈ getAllEdgePermutations no_shuffle triangle_routes)
     ∧ (NoDup triangle_routes →
        NoDup (getAllEdgePermutations no_shuffle triangle_routes)))
  ∧ ((8 < length triangle_routes)%nat →
     length (getAllEdgePermutations no_shuffle triangle_routes) = 12%nat)
  ∧ (∀ p, p ∈ getAllEdgePermutations no_shuffle triangle_routes →
          triangle_routes ≡ₚ p).
Proof.
  split; [intros i l; reflexivity |].
  apply (getAllEdgePermutations_orders no_shuffle triangle_routes).
  intros i l. reflexivity.
Defined.

(** One route, stored from [b] to [a]. *)
Lemma optimizeRoute_single_route_pair :
  node_id (mkNode 1 0 0 "a") ≠ node_id (mkNode 2 10 0 "b")
  ∧ joins (mkRoute 1 2 1 10) (node_id (mkNode 1 0 0 "a"))
      (node_id (mkNode 2 10 0 "b"))
  ∧ optimizeRoute no_shuffle [mkNode 1 0 0 "a"; mkNode 2 10 0 "b"]
      [mkRoute 1 2 1 10]
    = Done (Optimized (mkBestPath [1; 2; 1] (Fin (2 * 10)))).
Proof.
  assert (Hab : node_id (mkNode 1 0 0 "a") ≠ node_id (mkNode 2 10 0 "b"))
    by (simpl; lia).
  assert (Hj : joins (mkRoute 1 2 1 10) (node_id (mkNode 1 0 0 "a"))
                 (node_id (mkNode 2 10 0 "b")))
    by (right; simpl; split; reflexivity).
  split; [exact Hab |]. split; [exact Hj |].
  exact (optimizeRoute_single_route no_shuffle (mkNode 1 0 0 "a")
           (mkNode 2 10 0 "b") (mkRoute 1 2 1 10) Hab Hj).
Defined.

(** The path from [c] to [b] in the triangle. *)
Lemma findShortestPath_valid_path_triangle :
  findShortestPath triangle_nodes triangle_routes 3 2
  = Done (Some (mkShortestPath [3; 2] (Fin 10)))
  ∧ head [3; 2] = Some 3
  ∧ last [3; 2] = Some 2
  ∧ ∀ i a b, [3; 2] !! i = Some a → [3; 2] !! S i = Some b →
             ∃ r, r ∈ triangle_routes ∧ joins r a b.
Proof.
  assert (Hf : findShortestPath triangle_nodes triangle_routes 3 2
               = Done (Some (mkShortestPath [3; 2] (Fin 10))))
    by (vm_compute; reflexivity).
  split; [exact Hf |].
  exact (findShortestPath_valid_path triangle_nodes triangle_routes 3 2
           (mkShortestPath [3; 2] (Fin 10)) Hf).
Defined.


(** No route is rejected; a route of negative distance is searched. *)
Lemma optimizeRoute_rejects_samples :
  rejected (optimizeRoute no_shuffle pair_nodes [])
  ∧ ∃ result, optimizeRoute no_shuffle pair_nodes negative_routes
              = Done (Optimized result).
Proof.
  split.
  - apply (proj1 (optimizeRoute_rejects no_shuffle pair_nodes [])).
    left. simpl. lia.
  - apply (proj2 (optimizeRoute_rejects no_shuffle pair_nodes negative_routes)).
    simpl. lia.
Defined.

(** * Further results *)

(** ** More about [findShortestPath] *)

(** X1: Neither [while] loop of [findShortestPath] goes on for ever, whatever the
    nodes, the routes and the two identifiers are. *)
Theorem findShortestPath_never_spins nodes routes startId endId :
  findShortestPath nodes routes startId endId ≠ Spin.
Proof.
  destruct (findShortestPath_terminates nodes routes startId endId) as [r Hr].
  by rewrite Hr.
Qed.

(** X2: An identifier that is not the identifier of a node is neither left nor
    reached: between distinct ends, the result is [null] as soon as one of
    them is unknown. *)
Theorem findShortestPath_unknown_node nodes routes startId endId :
  startId ≠ endId →
  startId ∉ map node_id nodes ∨ endId ∉ map node_id nodes →
  findShortestPath nodes routes startId endId = Done None.
Proof.
  intros Hne Hunknown.
  destruct (findShortestPath_terminates nodes routes startId endId)
    as [[p|] Hr]; [| done].
  exfalso.
  destruct (findShortestPath_NoDup _ _ _ _ _ Hr) as [_ Hids].
  destruct (findShortestPath_wpath _ _ _ _ _ Hr) as (d & _ & Hp).
  specialize (Hids Hne).
  destruct Hunknown as [Hs | He].
  - apply Hs, Hids. apply wpath_head in Hp. by apply head_Some_elem_of.
  - apply He, Hids. apply wpath_last in Hp. by apply last_Some_elem_of.
Qed.

(** X3: A path returned between distinct ends is a simple path: it visits no
    node twice, stays within the node set, and so has at least two and at
    most as many nodes as the graph. *)
Theorem findShortestPath_simple_path nodes routes startId endId p :
  findShortestPath nodes routes startId endId = Done (Some p) →
  startId ≠ endId →
  NoDup (sp_path p)
  ∧ (∀ y, y ∈ sp_path p → y ∈ map node_id nodes)
  ∧ (2 ≤ length (sp_path p) ≤ length nodes)%nat.
Proof.
  intros Hr Hne.
  destruct (findShortestPath_NoDup _ _ _ _ _ Hr) as [Hnd Hids].
  destruct (findShortestPath_wpath _ _ _ _ _ Hr) as (d & _ & Hp).
  specialize (Hids Hne). split_and!; [done | done | |].
  - pose proof (wpath_head _ _ _ _ _ Hp) as Hh.
    pose proof (wpath_last _ _ _ _ _ Hp) as Hl.
    destruct (sp_path p) as [|x [|y l]]; simpl; [done | | lia].
    cbn in Hh, Hl. congruence.
  - rewrite <- (length_map node_id nodes).
    by apply submseteq_length, NoDup_submseteq.
Qed.

Lemma wpath_cons routes r y x l t w :
  r ∈ routes → joins r y x → wpath routes x l t w →
  wpath routes y (y :: l) t (distance r + w).
Proof.
  intros Hr Hj Hp. induction Hp as [|l x' w r' z Hp IH Hr' Hj'].
  - replace (distance r + 0) with (0 + distance r) by lia.
    by apply (wpath_snoc routes y [y] y 0 r x); [apply wpath_nil | |].
  - replace (distance r + (w + distance r')) with (distance r + w + distance r')
      by lia.
    by apply (wpath_snoc routes y (y :: l) x' _ r' z).
Qed.

Lemma joins_sym r a b : joins r a b → joins r b a.
Proof. intros [[? ?] | [? ?]]; [by right | by left]. Qed.

Lemma wpath_rev routes s l t w :
  wpath routes s l t w → wpath routes t (rev l) s w.
Proof.
  induction 1 as [|l x w r y Hp IH Hr Hj]; [apply wpath_nil |].
  rewrite rev_unit.
  replace (w + distance r) with (distance r + w) by lia.
  apply wpath_cons with x; [done | by apply joins_sym | done].
Qed.

Lemma wpath_app routes s l1 t w1 l2 u w2 :
  wpath routes s l1 t w1 → wpath routes t l2 u w2 →
  wpath routes s (l1 ++ tail l2) u (w1 + w2).
Proof.
  intros H1 H2. induction H2 as [|l x w r y Hp IH Hr Hj].
  - cbn [tail]. rewrite app_nil_r. by replace (w1 + 0) with w1 by lia.
  - assert (Htl : tail (l ++ [y]) = tail l ++ [y]).
    { destruct l; [by apply wpath_nonempty in Hp | done]. }
    rewrite Htl, app_assoc.
    replace (w1 + (w + distance r)) with (w1 + w + distance r) by lia.
    by apply wpath_snoc with x.
Qed.

(** X4: The routes have no direction and the search composes: on a graph
    whose routes end at nodes, the search from [b] to [a] fails exactly when
    the search from [a] to [b] fails, and when [b] is found from [a] and [c]
    from [b], then [c] is found from [a]. *)
Theorem findShortestPath_found_symmetric nodes routes a b c :
  endpoints_known nodes routes →
  (findShortestPath nodes routes a b = Done None
   ↔ findShortestPath nodes routes b a = Done None)
  ∧ ((∃ p, findShortestPath nodes routes a b = Done (Some p)) →
     (∃ q, findShortestPath nodes routes b c = Done (Some q)) →
     ∃ r, findShortestPath nodes routes a c = Done (Some r)).
Proof.
  intros Hknown.
  assert (Hnone : ∀ s t, findShortestPath nodes routes s t = Done None →
                         findShortestPath nodes routes t s = Done None).
  { intros s t Hst.
    destruct (findShortestPath_terminates nodes routes t s) as [[q|] Hq];
      [| done].
    exfalso. destruct (findShortestPath_wpath _ _ _ _ _ Hq) as (d & _ & Hp).
    destruct (findShortestPath_complete nodes routes s t Hknown) as [p Hp'].
    - exists (rev (sp_path q)), d. by apply wpath_rev.
    - rewrite Hst in Hp'. done. }
  split; [split; apply Hnone |].
  intros [p Hp] [q Hq].
  destruct (findShortestPath_wpath _ _ _ _ _ Hp) as (dp & _ & Hwp).
  destruct (findShortestPath_wpath _ _ _ _ _ Hq) as (dq & _ & Hwq).
  apply (findShortestPath_complete nodes routes a c Hknown).
  eexists _, _. by eapply wpath_app.
Qed.

(** ** More about the walk builder *)

(** X6: The walk builder has no failure exit and does not loop: for every start
    node and every edge order it returns a walk, which begins at the start
    node. *)
Theorem traverseEdgesInOrder_always_walk nodes routes startNodeId edgeOrder :
  ∃ w, traverseEdgesInOrder nodes routes startNodeId edgeOrder = Done (Some w)
       ∧ head (path w) = Some startNodeId.
Proof.
  destruct (traverseEdgesInOrder_returns nodes routes startNodeId edgeOrder)
    as (w & Hw & Hh & _).
  by exists w.
Qed.

Lemma linked_snoc routes p a b r :
  linked routes p → last p = Some a → r ∈ routes → joins r a b →
  linked routes (p ++ [b]).
Proof.
  intros Hl Hlast Hr Hj i x y Hx Hy.
  assert (Hlen : (S i < length (p ++ [b]))%nat) by by eapply lookup_lt_Some.
  rewrite length_app in Hlen. simpl in Hlen.
  destruct (decide (S i = length p)) as [Heq | Hne].
  - rewrite lookup_app_l in Hx by lia.
    rewrite lookup_app_r in Hy by lia.
    rewrite Heq, Nat.sub_diag in Hy. simpl in Hy. inversion Hy; subst y.
    rewrite last_lookup in Hlast.
    replace (pred (length p)) with i in Hlast by lia.
    rewrite Hx in Hlast. inversion Hlast; subst x. eauto.
  - rewrite lookup_app_l in Hx by lia.
    rewrite lookup_app_l in Hy by lia. eauto.
Qed.

Lemma linked_app routes p q a :
  linked routes p → last p = Some a → linked routes (a :: q) →
  linked routes (p ++ q).
Proof.
  intros Hp Hlast Hq i x y Hx Hy.
  assert (Hlen : (S i < length (p ++ q))%nat) by by eapply lookup_lt_Some.
  rewrite length_app in Hlen.
  destruct (decide (S i < length p)%nat) as [Hlt | Hge].
  - rewrite lookup_app_l in Hx by lia.
    rewrite lookup_app_l in Hy by lia. eauto.
  - destruct (decide (S i = length p)) as [Heq | Hne].
    + rewrite lookup_app_l in Hx by lia.
      rewrite lookup_app_r in Hy by lia.
      rewrite Heq, Nat.sub_diag in Hy.
      rewrite last_lookup in Hlast.
      replace (pred (length p)) with i in Hlast by lia.
      rewrite Hx in Hlast. inversion Hlast; subst x.
      by apply (Hq 0%nat a y).
    + rewrite lookup_app_r in Hx by lia.
      rewrite lookup_app_r in Hy by lia.
      apply (Hq (S (i - length p)) x y); [done |].
      cbn [lookup list_lookup].
      by replace (S (i - length p)) with (S i - length p)%nat by lia.
Qed.

(** Following a path that [findShortestPath] returned from the current node
    keeps the walk linked. *)
Lemma follow_linked nodes routes cur t p w :
  findShortestPath nodes routes cur t = Done (Some p) →
  linked routes (path w) → last (path w) = Some cur →
  linked routes (path (follow routes (sp_path p) w)).
Proof.
  intros Hf Hl Hlast. rewrite follow_path.
  destruct (findShortestPath_wpath _ _ _ _ _ Hf) as (d & _ & Hw).
  pose proof (wpath_head _ _ _ _ _ Hw) as Hh.
  apply linked_app with cur; [done | done |].
  destruct (sp_path p) as [|x l] eqn:Hp; [done |].
  cbn in Hh. inversion Hh; subst x. cbn [tail].
  unfold linked. by eapply wpath_linked.
Qed.

Lemma stitch_linked nodes routes st edge st' :
  stitch nodes routes st edge = Done st' →
  last (path (walk st)) = Some (currentNode st) →
  linked routes (path (walk st)) →
  linked routes (path (walk st')).
Proof.
  intros Hst Hlast Hl. unfold stitch in Hst.
  destruct (bool_decide (currentNode st ≠ startNodeId edge)
            && bool_decide (currentNode st ≠ endNodeId edge));
    [| by inversion Hst; subst].
  destruct (findShortestPath nodes routes (currentNode st) (startNodeId edge))
    as [ps|] eqn:Hps; [| done].
  destruct (findShortestPath nodes routes (currentNode st) (endNodeId edge))
    as [pe|] eqn:Hpe; [| done].
  cbn [mbind res_bind] in Hst.
  destruct (choose_path ps pe) as [cp|] eqn:Hcp; [| by inversion Hst; subst].
  destruct (1 <? length (sp_path cp))%nat; [| by inversion Hst; subst].
  inversion Hst; subst st'. cbn [walk].
  assert (Hfrom : ∃ t, findShortestPath nodes routes (currentNode st) t
                       = Done (Some cp)).
  { unfold choose_path in Hcp. destruct pe as [pe|], ps as [ps|]; try done.
    - destruct (num_ltb (sp_distance pe) (sp_distance ps));
        inversion Hcp; subst; eauto.
    - inversion Hcp; subst; eauto.
    - inversion Hcp; subst; eauto. }
  destruct Hfrom as [t Ht]. by eapply follow_linked.
Qed.

Section ConnectedWalk.
Variables (nodes : list Node) (routes : list Route) (start : Z).
Hypothesis Hknown : endpoints_known nodes routes.
Hypothesis Hconn : connected nodes routes.

Lemma traverse_edges_at_current edgeOrder st st' :
  traverse_edges nodes routes st edgeOrder = Done st' →
  at_current nodes start st →
  (∀ e, e ∈ edgeOrder → e ∈ routes) →
  at_current nodes start st'.
Proof.
  revert st. induction edgeOrder as [|edge rest IH]; intros st Hst Hat Hin.
  - cbn [traverse_edges] in Hst. by inversion Hst; subst.
  - cbn [traverse_edges] in Hst. unfold traverse_edge in Hst.
    assert (Hrest : ∀ e, e ∈ rest → e ∈ routes).
    { intros e He. by apply Hin, list_elem_of_further. }
    case_bool_decide as Hcov.
    { cbn [mbind res_bind] in Hst. by apply (IH st). }
    assert (Hedge : edge ∈ routes) by apply Hin, list_elem_of_here.
    destruct (stitch_connected nodes routes start Hknown Hconn st edge Hat Hedge)
      as (st1 & Hst1 & (Hcur1 & Hlast1 & Hhead1) & Hc1 & _ & Hend).
    rewrite Hst1 in Hst. cbn [mbind res_bind] in Hst.
    apply IH in Hst; [done | | done].
    unfold at_current. cbn [walk path currentNode].
    destruct (proj1 (Forall_forall _ _) Hknown edge Hedge) as [Hs He].
    split_and!; [by case_bool_decide | apply last_snoc |].
    rewrite head_app, Hhead1. done.
Qed.

Lemma traverse_edges_linked edgeOrder st st' :
  traverse_edges nodes routes st edgeOrder = Done st' →
  at_current nodes start st →
  linked routes (path (walk st)) →
  (∀ e, e ∈ edgeOrder → e ∈ routes) →
  linked routes (path (walk st')).
Proof.
  revert st. induction edgeOrder as [|edge rest IH]; intros st Hst Hat Hl Hin.
  - cbn [traverse_edges] in Hst. by inversion Hst; subst.
  - cbn [traverse_edges] in Hst. unfold traverse_edge in Hst.
    assert (Hrest : ∀ e, e ∈ rest → e ∈ routes).
    { intros e He. by apply Hin, list_elem_of_further. }
    case_bool_decide as Hcov.
    { cbn [mbind res_bind] in Hst. by apply (IH st). }
    assert (Hedge : edge ∈ routes) by apply Hin, list_elem_of_here.
    destruct (stitch_connected nodes routes start Hknown Hconn st edge Hat Hedge)
      as (st1 & Hst1 & (Hcur1 & Hlast1 & Hhead1) & Hc1 & _ & Hend).
    pose proof (stitch_linked _ _ _ _ _ Hst1 (proj1 (proj2 Hat)) Hl) as Hl1.
    rewrite Hst1 in Hst. cbn [mbind res_bind] in Hst.
    set (next := if bool_decide (currentNode st1 = startNodeId edge)
                 then endNodeId edge else startNodeId edge) in *.
    assert (Hj : joins edge (currentNode st1) next).
    { subst next. case_bool_decide as Hs; [by left |].
      destruct Hend as [? | He]; [done | by right]. }
    assert (Hnext : next ∈ map node_id nodes).
    { destruct (proj1 (Forall_forall _ _) Hknown edge Hedge) as [Hs He].
      subst next. by case_bool_decide. }
    apply IH in Hst; [done | | | done].
    + unfold at_current. cbn [walk path currentNode].
      split_and!; [done | apply last_snoc |].
      rewrite head_app, Hhead1. done.
    + cbn [walk path]. by apply linked_snoc with (currentNode st1) edge.
Qed.

Lemma traverseEdgesInOrder_linked edgeOrder w :
  traverseEdgesInOrder nodes routes start edgeOrder = Done (Some w) →
  start ∈ map node_id nodes →
  (∀ e, e ∈ edgeOrder → e ∈ routes) →
  linked routes (path w).
Proof.
  intros Hw Hstart Hin. unfold traverseEdgesInOrder in Hw.
  set (st0 := {| walk := {| path := [start]; totalDistance := 0 |};
                 currentNode := start; edgesCovered := ∅ |}) in *.
  assert (Hat0 : at_current nodes start st0) by by unfold at_current.
  assert (Hl0 : linked routes (path (walk st0))).
  { intros i a b Ha Hb. by destruct i. }
  destruct (traverse_edges_returns nodes routes edgeOrder st0)
    as (st & Hst & [ext Hext] & _).
  rewrite Hst in Hw. cbn [mbind res_bind] in Hw.
  pose proof (traverse_edges_linked _ _ _ Hst Hat0 Hl0 Hin) as Hl.
  pose proof (traverse_edges_at_current _ _ _ Hst Hat0 Hin) as (_ & Hlast & _).
  destruct (findShortestPath nodes routes (currentNode st) start)
    as [[rp|]|] eqn:Hrp; cbn [mbind res_bind] in Hw; [| | done].
  - destruct (1 <? length (sp_path rp))%nat; inversion Hw; subst w; [| done].
    by eapply follow_linked.
  - by inversion Hw; subst w.
Qed.
End ConnectedWalk.

(** X7: The walk builder on a connected graph: the returned walk comes back to
    its start node, goes along every edge of the order, and each of its
    steps goes along a route of the graph. *)
Theorem traverseEdgesInOrder_connected_walk nodes routes startNodeId edgeOrder :
  endpoints_known nodes routes →
  connected nodes routes →
  startNodeId ∈ map node_id nodes →
  NoDup (map route_id edgeOrder) →
  (∀ e, e ∈ edgeOrder → e ∈ routes) →
  ∃ w, traverseEdgesInOrder nodes routes startNodeId edgeOrder = Done (Some w)
       ∧ closed_walk (path w)
       ∧ covers (path w) edgeOrder
       ∧ linked routes (path w).
Proof.
  intros Hknown Hconn Hstart Hnd Hin.
  destruct (traverseEdgesInOrder_connected nodes routes startNodeId Hknown Hconn
              edgeOrder Hstart Hnd Hin) as (w & Hw & Hc & Hcov).
  exists w. split_and!; try done.
  by eapply traverseEdgesInOrder_linked.
Qed.

(** ** More about the optimizer *)

(** X9: On a connected graph every step of the reported walk goes along a route
    of the graph, and the walk begins at a node of the graph. *)
Theorem optimizeRoute_connected_linked shuffle nodes routes :
  (∀ i l, l ≡ₚ shuffle i l) →
  endpoints_known nodes routes →
  connected nodes routes →
  (1 ≤ length routes ≤ 12)%nat →
  ∃ p d s, optimizeRoute shuffle nodes routes
           = Done (Optimized (mkBestPath p (Fin d)))
           ∧ head p = Some s ∧ s ∈ map node_id nodes
           ∧ linked routes p.
Proof.
  intros Hshuffle Hknown Hconn Hlen.
  assert (Hnodes : nodes ≠ []).
  { intros ->. destruct routes as [|r routes]; [simpl in Hlen; lia |].
    apply Forall_cons in Hknown as [[Hs _] _]. by apply elem_of_nil in Hs. }
  destruct (optimizeRoute_minimum shuffle nodes routes Hlen Hnodes)
    as (s & o & w & Hs & Ho & Hw & Hopt & _).
  pose proof (getAllEdgePermutations_sound shuffle routes o Hshuffle Ho) as Hperm.
  destruct (traverseEdgesInOrder_returns nodes routes s o) as (w' & Hw' & Hh & _).
  rewrite Hw in Hw'. inversion Hw'; subst w'.
  exists (path w), (totalDistance w), s. split_and!; try done.
  apply (traverseEdgesInOrder_linked nodes routes s Hknown Hconn o w Hw Hs).
  intros e He. by rewrite Hperm.
Qed.

Lemma getAllEdgePermutations_shuffle shuffle1 shuffle2 edges :
  (length edges ≤ 8)%nat →
  getAllEdgePermutations shuffle1 edges = getAllEdgePermutations shuffle2 edges.
Proof.
  intros Hlen. unfold getAllEdgePermutations.
  destruct (length edges <=? 1)%nat; [done |].
  by rewrite (proj2 (Nat.ltb_ge _ _)) by lia.
Qed.

(** X10: With at most 8 routes the random source plays no part: the optimizer
    reports the same result whatever the shuffles would have returned. *)
Theorem optimizeRoute_no_randomness shuffle1 shuffle2 nodes routes :
  (length routes ≤ 8)%nat →
  optimizeRoute shuffle1 nodes routes = optimizeRoute shuffle2 nodes routes.
Proof.
  intros Hlen. unfold optimizeRoute.
  destruct (length routes <? 1)%nat; [done |].
  destruct (12 <? length routes)%nat; [done |].
  assert (Hstart : ∀ s, findOptimalPathFromStart shuffle1 nodes routes s
                        = findOptimalPathFromStart shuffle2 nodes routes s).
  { intros s. unfold findOptimalPathFromStart.
    by rewrite (getAllEdgePermutations_shuffle shuffle1 shuffle2). }
  assert (Hstarts : ∀ starts best,
             try_starts shuffle1 nodes routes best starts
             = try_starts shuffle2 nodes routes best starts).
  { induction starts as [|s0 starts IH]; intros best; cbn [try_starts]; [done |].
    rewrite Hstart.
    destruct (findOptimalPathFromStart shuffle2 nodes routes (node_id s0));
      cbn [mbind res_bind]; [apply IH | done]. }
  by rewrite Hstarts.
Qed.

(** ** Routes between two nodes *)

Lemma connects_joins a b r : connects a b r = true ↔ joins r a b.
Proof.
  unfold connects, joins.
  rewrite orb_true_iff, !andb_true_iff, !bool_decide_eq_true. tauto.
Qed.

Lemma connects_sym a b r : connects a b r = connects b a r.
Proof. unfold connects. apply orb_comm. Qed.

(** X12: [routeExists] and [getDistanceBetweenNodes] do not depend on the order of
    the two nodes.  [routeExists] tells whether some route joins them; if
    so [getDistanceBetweenNodes] is the distance of such a route (the first
    in the list), and otherwise it is 0. *)
Theorem getDistanceBetweenNodes_routeExists routes a b :
  routeExists routes a b = routeExists routes b a
  ∧ getDistanceBetweenNodes routes a b = getDistanceBetweenNodes routes b a
  ∧ (routeExists routes a b = true ↔ ∃ r, r ∈ routes ∧ joins r a b)
  ∧ (routeExists routes a b = true →
     ∃ r, r ∈ routes ∧ joins r a b
          ∧ getDistanceBetweenNodes routes a b = distance r)
  ∧ (routeExists routes a b = false → getDistanceBetweenNodes routes a b = 0).
Proof.
  unfold routeExists, getDistanceBetweenNodes.
  assert (Hext : ∀ l, List.find (connects a b) l = List.find (connects b a) l
                      ∧ existsb (connects a b) l = existsb (connects b a) l).
  { induction l as [|r l [IH1 IH2]]; [done |]. cbn [List.find existsb].
    rewrite (connects_sym a b r), IH1, IH2. done. }
  split_and!.
  - apply Hext.
  - by rewrite (proj1 (Hext routes)).
  - rewrite existsb_exists. split.
    + intros (r & Hr & Hc). exists r.
      split; [by apply list_elem_of_In | by apply connects_joins].
    + intros (r & Hr & Hj). exists r.
      split; [by apply list_elem_of_In | by apply connects_joins].
  - intros He.
    destruct (List.find (connects a b) routes) as [r|] eqn:Hf.
    + apply find_some in Hf as [Hr Hc]. exists r.
      split_and!; [by apply list_elem_of_In | by apply connects_joins | done].
    + apply existsb_exists in He as (r & Hr & Hc).
      by rewrite (find_none _ _ Hf r Hr) in Hc.
  - intros He.
    destruct (List.find (connects a b) routes) as [r|] eqn:Hf; [| done].
    apply find_some in Hf as [Hr Hc].
    assert (existsb (connects a b) routes = true) as Ht
      by (apply existsb_exists; eauto).
    congruence.
Qed.

(** ** The heuristic orders *)

Section SortBy.
Variable cmp : Route → Route → Z.
Hypothesis cmp_total : ∀ x y, cmp x y <= 0 ∨ cmp y x <= 0.
Hypothesis cmp_trans : ∀ x y z, cmp x y <= 0 → cmp y z <= 0 → cmp x z <= 0.

Lemma insert_by_sorted x l :
  StronglySorted (fun a b => cmp a b <= 0) l →
  StronglySorted (fun a b => cmp a b <= 0) (insert_by cmp x l).
Proof.
  induction 1 as [|y l Hs IH Hy]; cbn [insert_by].
  - repeat constructor.
  - destruct (cmp x y <=? 0) eqn:Hc.
    + apply Z.leb_le in Hc. constructor; [by constructor |].
      constructor; [done |].
      eapply Forall_impl; [exact Hy |]. intros z Hz. by eapply cmp_trans.
    + apply Z.leb_gt in Hc. constructor; [done |].
      rewrite insert_by_Permutation. constructor; [| done].
      destruct (cmp_total x y); [lia | done].
Qed.

Lemma sort_by_sorted l : StronglySorted (fun a b => cmp a b <= 0) (sort_by cmp l).
Proof.
  unfold sort_by. induction l as [|x l IH]; cbn [foldr]; [constructor |].
  by apply insert_by_sorted.
Qed.
End SortBy.

Lemma StronglySorted_weaken {A} (R R' : A → A → Prop) l :
  (∀ a b, R a b → R' a b) → StronglySorted R l → StronglySorted R' l.
Proof.
  intros HR. induction 1 as [|x l Hs IH Hx]; constructor; [done |].
  eapply Forall_impl; [exact Hx | auto].
Qed.

(** X13: The first of the heuristic orders lists the edges from the shortest to
    the longest, the second from the longest to the shortest; ten more
    orders follow. *)
Theorem generateSmartEdgeOrders_sorted shuffle edges :
  ∃ shortestFirst longestFirst samples,
    generateSmartEdgeOrders shuffle edges
    = shortestFirst :: longestFirst :: samples
    ∧ length samples = 10%nat
    ∧ shortestFirst ≡ₚ edges
    ∧ StronglySorted (fun a b => distance a <= distance b) shortestFirst
    ∧ longestFirst ≡ₚ edges
    ∧ StronglySorted (fun a b => distance b <= distance a) longestFirst.
Proof.
  eexists _, _, _. unfold generateSmartEdgeOrders. cbn [app].
  split_and!; [done | done | apply sort_by_Permutation | |
               apply sort_by_Permutation |].
  - eapply StronglySorted_weaken;
      [| apply (sort_by_sorted (fun a b => distance a - distance b))].
    + intros a b. cbn. lia.
    + intros x y. lia.
    + intros x y z. lia.
  - eapply StronglySorted_weaken;
      [| apply (sort_by_sorted (fun a b => distance b - distance a))].
    + intros a b. cbn. lia.
    + intros x y. lia.
    + intros x y z. lia.
Qed.

(** ** Node labels *)

Lemma getNodeLabel_length index :
  length (getNodeLabel index)
  = if index <? 26 then 1%nat else if index <? 702 then 2%nat else 3%nat.
Proof.
  unfold getNodeLabel, fromCharCode.
  destruct (index <? 26); [done |]. by destruct (index <? 702).
Qed.

(** X14: Labels of one, two and three code units: one below index 26, two below
    702, three from there on.  They consist of the letters [a] to [z] exactly
    up to index 18277; from 18278 on the first code unit lies beyond [z]
    (as long as the code unit does not wrap around twice, which takes more
    than 44 million nodes). *)
Theorem getNodeLabel_letters index :
  0 <= index < 44303038 →
  length (getNodeLabel index)
  = (if index <? 26 then 1%nat else if index <? 702 then 2%nat else 3%nat)
  ∧ (Forall lowercase (getNodeLabel index) ↔ index < 18278).
Proof.
  intros H0. split; [apply getNodeLabel_length |].
  unfold getNodeLabel, fromCharCode, lowercase.
  destruct (index <? 26) eqn:H26.
  { apply Z.ltb_lt in H26. rewrite Forall_singleton.
    rewrite Z.mod_small by lia. lia. }
  apply Z.ltb_ge in H26.
  destruct (index <? 702) eqn:H702.
  { apply Z.ltb_lt in H702. cbn [app].
    rewrite !Forall_cons, Forall_nil.
    rewrite !Z.mod_small; Z.to_euclidean_division_equations; lia. }
  apply Z.ltb_ge in H702. cbn [app].
  rewrite !Forall_cons, Forall_nil.
  split.
  - intros (H1 & _).
    destruct (decide (index < 18278)) as [|Hbig]; [done |]. exfalso.
    assert (Hq : 26 <= (index - 702) / 676 < 65536)
      by (Z.to_euclidean_division_equations; lia).
    revert H1 Hq. generalize ((index - 702) / 676). intros q H1 Hq.
    destruct (decide (q < 65439)) as [Hsmall | Hhuge].
    + rewrite Z.mod_small in H1 by lia. lia.
    + replace (97 + q) with ((q - 65439) + 1 * 65536) in H1 by lia.
      rewrite Z.mod_add, Z.mod_small in H1 by lia. lia.
  - intros Hlt.
    rewrite !Z.mod_small; Z.to_euclidean_division_equations; lia.
Qed.

Lemma fromCharCode_inj a b :
  0 <= a < 65536 → 0 <= b < 65536 →
  (97 + a) mod 65536 = (97 + b) mod 65536 → a = b.
Proof.
  intros Ha Hb H.
  destruct (decide (a < 65439)), (decide (b < 65439)).
  - rewrite !Z.mod_small in H by lia. lia.
  - rewrite (Z.mod_small (97 + a)) in H by lia.
    replace (97 + b) with ((b - 65439) + 1 * 65536) in H by lia.
    rewrite Z.mod_add, Z.mod_small in H by lia. lia.
  - rewrite (Z.mod_small (97 + b)) in H by lia.
    replace (97 + a) with ((a - 65439) + 1 * 65536) in H by lia.
    rewrite Z.mod_add, Z.mod_small in H by lia. lia.
  - replace (97 + a) with ((a - 65439) + 1 * 65536) in H by lia.
    replace (97 + b) with ((b - 65439) + 1 * 65536) in H by lia.
    rewrite !Z.mod_add, !Z.mod_small in H by lia. lia.
Qed.

Lemma getNodeLabel_injective i j :
  0 <= i < 44303038 → 0 <= j < 44303038 →
  getNodeLabel i = getNodeLabel j → i = j.
Proof.
  intros Hi Hj Heq.
  pose proof (f_equal length Heq) as Hlen.
  rewrite !getNodeLabel_length in Hlen.
  unfold getNodeLabel, fromCharCode in Heq.
  destruct (i <? 26) eqn:Hi26, (j <? 26) eqn:Hj26;
    try (destruct (j <? 702); discriminate Hlen);
    try (destruct (i <? 702); discriminate Hlen).
  { apply Z.ltb_lt in Hi26, Hj26. inversion Heq as [H1].
    apply fromCharCode_inj in H1; lia. }
  apply Z.ltb_ge in Hi26, Hj26.
  destruct (i <? 702) eqn:Hi702, (j <? 702) eqn:Hj702; try discriminate Hlen.
  { apply Z.ltb_lt in Hi702, Hj702. cbn [app] in Heq.
    inversion Heq as [[H1 H2]].
    apply fromCharCode_inj in H1;
      [| Z.to_euclidean_division_equations; lia
       | Z.to_euclidean_division_equations; lia].
    apply fromCharCode_inj in H2;
      [| Z.to_euclidean_division_equations; lia
       | Z.to_euclidean_division_equations; lia].
    Z.to_euclidean_division_equations; lia. }
  apply Z.ltb_ge in Hi702, Hj702. cbn [app] in Heq.
  inversion Heq as [[H1 H2 H3]].
  apply fromCharCode_inj in H1;
    [| Z.to_euclidean_division_equations; lia
     | Z.to_euclidean_division_equations; lia].
  apply fromCharCode_inj in H2;
    [| Z.to_euclidean_division_equations; lia
     | Z.to_euclidean_division_equations; lia].
  apply fromCharCode_inj in H3;
    [| Z.to_euclidean_division_equations; lia
     | Z.to_euclidean_division_equations; lia].
  Z.to_euclidean_division_equations; lia.
Qed.

(** X15: Different indices get different labels (below 44303038, where the first
    code unit of a three-unit label would wrap around). *)
Theorem getNodeLabel_inj i j :
  0 <= i < 44303038 → 0 <= j < 44303038 →
  getNodeLabel i = getNodeLabel j → i = j.
Proof. apply getNodeLabel_injective. Qed.

Lemma getNodeLabel_lowercase index :
  0 <= index < 18278 → Forall lowercase (getNodeLabel index).
Proof.
  intros H0. unfold getNodeLabel, fromCharCode, lowercase.
  destruct (index <? 26) eqn:H26.
  { apply Z.ltb_lt in H26. rewrite Forall_singleton.
    rewrite Z.mod_small by lia. lia. }
  apply Z.ltb_ge in H26.
  destruct (index <? 702) eqn:H702.
  { apply Z.ltb_lt in H702. cbn [app].
    rewrite !Forall_cons, Forall_nil.
    rewrite !Z.mod_small; Z.to_euclidean_division_equations; lia. }
  apply Z.ltb_ge in H702. cbn [app].
  rewrite !Forall_cons, Forall_nil.
  rewrite !Z.mod_small; Z.to_euclidean_division_equations; lia.
Qed.

(** ** Highlighting and enabling *)

Lemma some_indexed_true {A} (f : A → nat → bool) (l : list A) :
  some_indexed f l = true ↔ ∃ i x, l !! i = Some x ∧ f x i = true.
Proof.
  unfold some_indexed. rewrite existsb_exists. split.
  - intros ([i x] & Hin & Hf). apply list_elem_of_In in Hin.
    apply list_elem_of_lookup in Hin as [k Hk].
    rewrite list_lookup_imap in Hk.
    destruct (l !! k) as [y|] eqn:Hy; [| done].
    cbn in Hk. inversion Hk; subst. eauto.
  - intros (i & x & Hx & Hf). exists (i, x). split; [| done].
    apply list_elem_of_In, list_elem_of_lookup. exists i.
    rewrite list_lookup_imap, Hx. done.
Qed.

Lemma equals_at_true x l i : equals_at x l i = true ↔ l !! i = Some x.
Proof.
  unfold equals_at. destruct (l !! i) as [y|]; [| done].
  rewrite bool_decide_eq_true. split; congruence.
Qed.

Lemma isOptimizedRoute_iff optimizedPath route :
  isOptimizedRoute optimizedPath route = true ↔ traverses optimizedPath route.
Proof.
  unfold isOptimizedRoute, traverses, joins.
  rewrite andb_true_iff, some_indexed_true. split.
  - intros (_ & i & x & Hx & Hf).
    apply andb_true_iff in Hf as [_ Hf].
    apply orb_true_iff in Hf as [Hf | Hf];
      apply andb_true_iff in Hf as [H1 H2];
      apply bool_decide_eq_true in H1; apply equals_at_true in H2;
      replace (i + 1)%nat with (S i) in H2 by lia; subst x.
    + exists i, (startNodeId route), (endNodeId route). by split_and!; [| | left].
    + exists i, (endNodeId route), (startNodeId route). by split_and!; [| | right].
  - intros (i & a & b & Ha & Hb & Hj).
    pose proof (lookup_lt_Some _ _ _ Hb) as Hlen.
    split; [apply Nat.ltb_lt; lia |].
    exists i, a. split; [done |].
    apply andb_true_iff. split; [apply Z.ltb_lt; lia |].
    apply orb_true_iff.
    destruct Hj as [[Hs He] | [He Hs]]; [left | right];
      apply andb_true_iff; split;
      try (by apply bool_decide_eq_true);
      apply equals_at_true; replace (i + 1)%nat with (S i) by lia; congruence.
Qed.

(** X16: A route is drawn as a part of the optimized path exactly when two
    consecutive nodes of the path are its two ends, in either direction. *)
Theorem isOptimizedRoute_traverses optimizedPath route :
  isOptimizedRoute optimizedPath route = true ↔ traverses optimizedPath route.
Proof. apply isOptimizedRoute_iff. Qed.

(** X17: On a connected graph with known route ends and pairwise distinct route
    identifiers, every route is drawn as a part of the path that the
    optimizer reports. *)
Theorem optimizeRoute_highlights_all shuffle nodes routes :
  (∀ i l, l ≡ₚ shuffle i l) →
  endpoints_known nodes routes →
  connected nodes routes →
  NoDup (map route_id routes) →
  (1 ≤ length routes ≤ 12)%nat →
  ∃ result, optimizeRoute shuffle nodes routes = Done (Optimized result)
            ∧ ∀ r, r ∈ routes → isOptimizedRoute (best_path result) r = true.
Proof.
  intros Hshuffle Hknown Hconn Hnd Hlen.
  assert (Hnodes : nodes ≠ []).
  { intros ->. destruct routes as [|r routes]; [simpl in Hlen; lia |].
    apply Forall_cons in Hknown as [[Hs _] _]. by apply elem_of_nil in Hs. }
  destruct (optimizeRoute_minimum shuffle nodes routes Hlen Hnodes)
    as (s & o & w & Hs & Ho & Hw & Hopt & _).
  pose proof (getAllEdgePermutations_sound shuffle routes o Hshuffle Ho) as Hperm.
  destruct (traverseEdgesInOrder_connected nodes routes s Hknown Hconn o)
    as (w' & Hw' & _ & Hcovers); [done | by rewrite <- Hperm | |].
  { intros e He. by rewrite Hperm. }
  rewrite Hw in Hw'. inversion Hw'; subst w'.
  eexists. split; [done |]. cbn [best_path].
  intros r Hr. apply isOptimizedRoute_iff, Hcovers.
  by rewrite <- Hperm.
Qed.

(** X18: When the optimize button is shown (at least two nodes and one route), a
    click on it never raises the alert about a missing route: it either
    raises the alert about more than 12 routes or reports a walk, which is
    not empty, begins at a node of the graph and has a finite total
    distance. *)
Theorem canOptimize_optimizeRoute shuffle nodes routes :
  canOptimize nodes routes = true →
  ((12 < length routes)%nat →
   optimizeRoute shuffle nodes routes
   = Done (Alert "Optimization is limited to 12 or fewer routes to ensure reasonable computation time."))
  ∧ ((length routes ≤ 12)%nat →
     ∃ p d s, optimizeRoute shuffle nodes routes
              = Done (Optimized (mkBestPath p (Fin d)))
              ∧ head p = Some s ∧ s ∈ map node_id nodes).
Proof.
  unfold canOptimize. intros Hcan.
  apply andb_true_iff in Hcan as [Hn Hr].
  apply Nat.leb_le in Hn, Hr. split.
  - intros Hlen. unfold optimizeRoute.
    rewrite (proj2 (Nat.ltb_ge _ _)) by lia.
    by rewrite (proj2 (Nat.ltb_lt _ _)) by lia.
  - intros Hlen.
    assert (Hnodes : nodes ≠ []) by (intros ->; simpl in Hn; lia).
    destruct (optimizeRoute_minimum shuffle nodes routes (conj Hr Hlen) Hnodes)
      as (s & o & w & Hs & Ho & Hw & Hopt & _).
    destruct (traverseEdgesInOrder_returns nodes routes s o)
      as (w' & Hw' & Hh & _).
    rewrite Hw in Hw'. inversion Hw'; subst w'.
    by exists (path w), (totalDistance w), s.
Qed.

(** ** The graph editor *)

Lemma foldr_max_ge x l : x ∈ l → x <= foldr Z.max 0 l.
Proof.
  induction l as [|y l IH]; intros Hx; [by apply elem_of_nil in Hx |].
  cbn [foldr]. apply elem_of_cons in Hx as [-> | Hx]; [lia |].
  specialize (IH Hx). lia.
Qed.

Lemma foldr_max_le m l :
  0 <= m → (∀ x, x ∈ l → x <= m) → foldr Z.max 0 l <= m.
Proof.
  intros Hm. induction l as [|y l IH]; intros Hl; cbn [foldr]; [done |].
  pose proof (Hl y (list_elem_of_here _ _)).
  assert (foldr Z.max 0 l <= m).
  { apply IH. intros x Hx. by apply Hl, list_elem_of_further. }
  lia.
Qed.

Lemma next_id_fresh ids x : x ∈ ids → x < next_id ids.
Proof. intros Hx. pose proof (foldr_max_ge x ids Hx). unfold next_id. lia. Qed.

Lemma next_id_seqZ k : next_id (seqZ 1 (Z.of_nat k)) = Z.of_nat k + 1.
Proof.
  unfold next_id.
  enough (foldr Z.max 0 (seqZ 1 (Z.of_nat k)) = Z.of_nat k) by lia.
  apply Z.le_antisymm.
  - apply foldr_max_le; [lia |]. intros x Hx. apply elem_of_seqZ in Hx. lia.
  - destruct k as [|k]; [by vm_compute |].
    apply (foldr_max_ge (Z.of_nat (S k))), elem_of_seqZ. lia.
Qed.

Lemma find_node_Some nodes id n :
  find_node nodes id = Some n → n ∈ nodes ∧ node_id n = id.
Proof.
  intros Hf. apply find_some in Hf as [Hin Hid].
  split; [by apply list_elem_of_In | by apply bool_decide_eq_true in Hid].
Qed.

Lemma find_node_known nodes id :
  id ∈ map node_id nodes → ∃ n, find_node nodes id = Some n.
Proof.
  intros Hid. apply list_elem_of_In, in_map_iff in Hid as (n & Hn & Hin).
  destruct (find_node nodes id) as [m|] eqn:Hf; [eauto |].
  pose proof (find_none _ _ Hf n Hin) as Hnone. cbn in Hnone.
  by rewrite bool_decide_true in Hnone.
Qed.

Lemma findNearestNode_elem geo nodes x y n :
  findNearestNode geo nodes x y = Some n → n ∈ nodes.
Proof.
  unfold findNearestNode.
  assert (Hgen : ∀ acc,
             fst (foldl
                    (fun acc node =>
                       if calculateDistance geo x y (node_x node) (node_y node)
                          <? snd acc
                       then (Some node,
                             calculateDistance geo x y (node_x node) (node_y node))
                       else acc) acc nodes) = Some n →
             fst acc = Some n ∨ n ∈ nodes).
  { induction nodes as [|m nodes IH]; intros acc Hf; cbn [foldl] in Hf;
      [by left |].
    apply IH in Hf as [Hf | Hf]; [| right; by apply list_elem_of_further].
    destruct (calculateDistance geo x y (node_x m) (node_y m) <? snd acc).
    - cbn in Hf. inversion Hf; subst. right. apply list_elem_of_here.
    - by left. }
  intros Hf. by destruct (Hgen (None, 10) Hf).
Qed.

Lemma findNearestRoute_elem geo nodes routes x y route insertPoint :
  findNearestRoute geo nodes routes x y = Some (route, insertPoint) →
  route ∈ routes.
Proof.
  induction routes as [|r routes IH]; cbn [findNearestRoute]; [done |].
  intros Hf.
  destruct (find_node nodes (startNodeId r)) as [s|];
    [| by apply list_elem_of_further, IH].
  destruct (find_node nodes (endNodeId r)) as [e|];
    [| by apply list_elem_of_further, IH].
  destruct (insert_point geo x y s e) as [pt|];
    [| by apply list_elem_of_further, IH].
  inversion Hf; subst. apply list_elem_of_here.
Qed.

Lemma slice_to_take {A} (l : list A) e :
  0 <= e → slice_to l e = take (Z.to_nat e) l.
Proof. intros He. unfold slice_to. by rewrite (proj2 (Z.ltb_ge _ _)) by lia. Qed.

Lemma sublist_map {A B} (f : A → B) l k :
  sublist l k → sublist (map f l) (map f k).
Proof. induction 1; cbn [map]; by constructor. Qed.

Lemma Forall_filter_sub {A} (Q R : A → Prop) `{∀ x, Decision (Q x)} l :
  Forall R l → Forall R (filter Q l).
Proof.
  rewrite !Forall_forall. intros HR x Hx.
  apply list_elem_of_filter in Hx as [_ Hx]. by apply HR.
Qed.

Lemma isTooCloseToExistingNodes_false geo nodes x y a :
  isTooCloseToExistingNodes geo nodes x y = false → a ∈ nodes →
  16 <= calculateDistance geo x y (node_x a) (node_y a).
Proof.
  intros Hfar Ha. unfold isTooCloseToExistingNodes in Hfar.
  destruct (Z.ltb_spec (calculateDistance geo x y (node_x a) (node_y a)) 16)
    as [Hlt | Hge]; [| done].
  assert (Hex : existsb
                  (fun node =>
                     calculateDistance geo x y (node_x node) (node_y node) <? 16)
                  nodes = true).
  { apply existsb_exists. exists a. split; [by apply list_elem_of_In |].
    by apply Z.ltb_lt. }
  congruence.
Qed.

Lemma spaced_snoc geo nodes n :
  spaced geo nodes →
  isTooCloseToExistingNodes geo nodes (node_x n) (node_y n) = false →
  spaced geo (nodes ++ [n]).
Proof.
  intros Hsp Hfar i j a b Hij Ha Hb.
  apply lookup_app_Some in Hb as [Hb | [Hlen Hb]].
  - apply (Hsp i j a b Hij); [| done].
    rewrite lookup_app_l in Ha; [done |].
    apply lookup_lt_Some in Hb. lia.
  - apply list_lookup_singleton_Some in Hb as [Hj <-].
    rewrite lookup_app_l in Ha by lia.
    apply (isTooCloseToExistingNodes_false geo nodes); [done |].
    by eapply list_elem_of_lookup_2.
Qed.

Section GraphOk.
Variables (geo : geometry) (P : Z → Prop).
Hypothesis HP : ∀ a b c d, P (calculateDistance geo a b c d).

Lemma graph_ok_known_ids nodes routes x :
  graph_ok geo P nodes routes →
  x ∈ map node_id nodes ↔ 1 <= x <= Z.of_nat (length nodes).
Proof. intros (Hids & _). rewrite Hids, elem_of_seqZ. lia. Qed.

Lemma graph_ok_next_node nodes routes :
  graph_ok geo P nodes routes →
  next_id (map node_id nodes) = Z.of_nat (length nodes) + 1.
Proof. intros (Hids & _). by rewrite Hids, next_id_seqZ. Qed.

Lemma endpoints_known_app nodes routes n :
  endpoints_known nodes routes → endpoints_known (nodes ++ [n]) routes.
Proof.
  unfold endpoints_known. intros Hknown.
  eapply Forall_impl; [exact Hknown |]. cbn beta. intros r [Hs He].
  rewrite map_app, !elem_of_app. tauto.
Qed.

Lemma graph_ok_empty : graph_ok geo P [] [].
Proof.
  unfold graph_ok, endpoints_known.
  split_and!; first [done | apply NoDup_nil_2 | apply Forall_nil_2].
Qed.

Lemma graph_ok_add_node nodes routes x y :
  graph_ok geo P nodes routes →
  isTooCloseToExistingNodes geo nodes x y = false →
  graph_ok geo P (nodes ++ [new_node nodes x y]) routes.
Proof.
  intros Hok Hfar. pose proof (graph_ok_next_node nodes routes Hok) as Hnext.
  destruct Hok as (Hids & Hlab & Hrid & Hknown & Hloop & HPd & Hsp).
  apply (endpoints_known_app _ _ (new_node nodes x y)) in Hknown.
  apply (spaced_snoc geo nodes (new_node nodes x y)) in Hsp; [| done].
  unfold graph_ok. rewrite !map_app, length_app. cbn [length map].
  replace (length nodes + 1)%nat with (S (length nodes)) by lia.
  rewrite !seqZ_S, map_app. cbn [map new_node node_id label].
  split_and!; try done.
  - rewrite Hnext, Hids. do 2 f_equal. lia.
  - rewrite Hlab. by rewrite Z.add_0_l.
Qed.

Lemma graph_ok_add_route nodes routes r :
  graph_ok geo P nodes routes →
  (∀ i, i ∈ map route_id routes → i < route_id r) →
  startNodeId r ∈ map node_id nodes →
  endNodeId r ∈ map node_id nodes →
  startNodeId r ≠ endNodeId r →
  P (distance r) →
  graph_ok geo P nodes (routes ++ [r]).
Proof.
  intros (Hids & Hlab & Hrid & Hknown & Hloop & HPd & Hsp) Hfresh Hs He Hne Hd.
  unfold graph_ok, endpoints_known. rewrite map_app, !Forall_app, !Forall_singleton.
  split_and!; try done.
  apply NoDup_app. split_and!; [done | | apply NoDup_singleton].
  intros i Hi Hi'. apply list_elem_of_singleton in Hi'.
  specialize (Hfresh i Hi). cbn in Hi'. lia.
Qed.

Lemma graph_ok_filter nodes routes (Q : Route → Prop) `{∀ r, Decision (Q r)} :
  graph_ok geo P nodes routes → graph_ok geo P nodes (filter Q routes).
Proof.
  intros (Hids & Hlab & Hrid & Hknown & Hloop & HPd & Hsp).
  unfold graph_ok, endpoints_known. split_and!; try done.
  - eapply sublist_NoDup; [exact Hrid |].
    apply sublist_map, sublist_filter.
  - by apply Forall_filter_sub.
  - by apply Forall_filter_sub.
  - by apply Forall_filter_sub.
Qed.

Lemma graph_ok_new_route nodes0 nodes routes selected target r :
  graph_ok geo P nodes routes →
  new_route geo nodes0 routes selected target = Some r →
  selected ∈ map node_id nodes →
  node_id target ∈ map node_id nodes →
  selected ≠ node_id target →
  graph_ok geo P nodes (routes ++ [r]).
Proof.
  intros Hok Hr Hs Ht Hne. unfold new_route in Hr.
  destruct (find_node nodes0 selected) as [s|]; [| done].
  inversion Hr; subst r; clear Hr.
  apply graph_ok_add_route; cbn [route_id startNodeId endNodeId distance];
    try done.
  intros i Hi. by apply next_id_fresh.
Qed.

Lemma new_route_Some nodes ids selected target :
  selected ∈ map node_id nodes →
  ∃ r, new_route geo nodes ids selected target = Some r
       ∧ startNodeId r = selected ∧ endNodeId r = node_id target.
Proof.
  intros Hs. unfold new_route.
  destruct (find_node_known nodes selected Hs) as [s ->]. eauto.
Qed.

Lemma splitRoute_Some nodes routes route newNode :
  endpoints_known nodes routes → route ∈ routes →
  ∃ routes', splitRoute geo nodes routes route newNode = Some routes'.
Proof.
  intros Hknown Hr.
  destruct (proj1 (Forall_forall _ _) Hknown route Hr) as [Hs He].
  unfold splitRoute.
  destruct (find_node_known nodes _ Hs) as [s ->].
  destruct (find_node_known nodes _ He) as [e ->]. eauto.
Qed.

Lemma graph_ok_split nodes routes route x y routes' :
  graph_ok geo P nodes routes → route ∈ routes →
  isTooCloseToExistingNodes geo nodes x y = false →
  splitRoute geo nodes routes route (new_node nodes x y) = Some routes' →
  graph_ok geo P (nodes ++ [new_node nodes x y]) routes'
  ∧ (∀ i, i ∈ map route_id routes' → i < next_id (map route_id routes) + 2).
Proof.
  intros Hok Hroute Hfar Hsplit.
  pose proof (graph_ok_next_node nodes routes Hok) as Hnext.
  pose proof Hok as (Hids & Hlab & Hrid & Hknown & Hloop & HPd & Hsp).
  destruct (proj1 (Forall_forall _ _) Hknown route Hroute) as [Hs He].
  assert (Hnew : node_id (new_node nodes x y) ∉ map node_id nodes).
  { intros Hin. apply next_id_fresh in Hin. cbn [new_node node_id] in Hin. lia. }
  assert (Hnew_in : node_id (new_node nodes x y)
                    ∈ map node_id (nodes ++ [new_node nodes x y])).
  { rewrite map_app, elem_of_app. right. apply list_elem_of_here. }
  assert (Hold_in : ∀ i, i ∈ map node_id nodes →
                         i ∈ map node_id (nodes ++ [new_node nodes x y])).
  { intros i Hi. rewrite map_app, elem_of_app. by left. }
  unfold splitRoute in Hsplit.
  destruct (find_node nodes (startNodeId route)) as [s|]; [| done].
  destruct (find_node nodes (endNodeId route)) as [e|]; [| done].
  inversion Hsplit; subst routes'; clear Hsplit.
  assert (Hfilter : ∀ i, i ∈ map route_id
                             (filter (fun r => route_id r ≠ route_id route) routes) →
                         i < next_id (map route_id routes)).
  { intros i Hi. apply next_id_fresh.
    apply list_elem_of_In, in_map_iff in Hi as (r & <- & Hr).
    apply list_elem_of_In, list_elem_of_filter in Hr as [_ Hr].
    by apply list_elem_of_In, in_map, list_elem_of_In. }
  split.
  - change [?a; ?b] with ([a] ++ [b]). rewrite app_assoc.
    apply graph_ok_add_route; cbn [route_id startNodeId endNodeId distance];
      try done.
    + apply graph_ok_add_route; cbn [route_id startNodeId endNodeId distance];
        try done.
      * apply graph_ok_add_node; [| done]. by apply graph_ok_filter.
      * by apply Hold_in.
      * intros Heq. apply Hnew. cbn [new_node node_id]. by rewrite <- Heq.
    + intros i Hi. rewrite map_app, elem_of_app in Hi. destruct Hi as [Hi | Hi].
      * specialize (Hfilter i Hi). lia.
      * apply list_elem_of_singleton in Hi. cbn in Hi. lia.
    + by apply Hold_in.
    + intros Heq. apply Hnew. cbn [new_node node_id]. by rewrite Heq.
  - intros i Hi. rewrite map_app, elem_of_app in Hi. destruct Hi as [Hi | Hi].
    + specialize (Hfilter i Hi). lia.
    + cbn [map route_id] in Hi. rewrite !elem_of_cons, elem_of_nil in Hi. lia.
Qed.
End GraphOk.

Lemma routeExists_false routes a b :
  (∀ r, r ∈ routes → startNodeId r ≠ b ∧ endNodeId r ≠ b) →
  routeExists routes a b = false.
Proof.
  intros Hfresh. unfold routeExists.
  destruct (existsb (connects a b) routes) eqn:Hex; [| done].
  apply existsb_exists in Hex as (r & Hr & Hc).
  apply list_elem_of_In, Hfresh in Hr as [Hs He].
  apply connects_joins in Hc as [[_ Hc] | [_ Hc]]; congruence.
Qed.

Ltac unchanged_graph :=
  eexists; split; [reflexivity |];
  split;
  [ unfold editor_ok;
    cbn [ed_nodes ed_routes selectedNode history currentStep isDrawingEnabled];
    split_and!; try done; try lia
  | split; [done | by left] ].

Section EditorOk.
Variables (geo : geometry) (P : Z → Prop).
Hypothesis HP : ∀ a b c d, P (calculateDistance geo a b c d).

Lemma saveToHistory_eq st nodes' routes' :
  0 <= currentStep st < Z.of_nat (length (history st)) →
  saveToHistory st nodes' routes'
  = (take (Z.to_nat (currentStep st) + 1) (history st)
     ++ [mkSnapshot nodes' routes'], currentStep st + 1).
Proof.
  intros Hcs. unfold saveToHistory. rewrite slice_to_take by lia.
  replace (Z.to_nat (currentStep st + 1))
    with (Z.to_nat (currentStep st) + 1)%nat by lia.
  f_equal. rewrite length_app, length_take. cbn [length]. lia.
Qed.

Lemma editor_ok_saved st nodes' saved routes' sel d :
  editor_ok geo P st →
  graph_ok geo P nodes' saved →
  graph_ok geo P nodes' routes' →
  (∀ s, sel = Some s → s ∈ map node_id nodes') →
  editor_ok geo P
    (mkEditor nodes' routes' sel
       (take (Z.to_nat (currentStep st) + 1) (history st)
        ++ [mkSnapshot nodes' saved])
       (currentStep st + 1) d).
Proof.
  intros (Hg & Hsel & Hcs & Hh) Hsaved Hnew Hsel'.
  unfold editor_ok.
  cbn [ed_nodes ed_routes selectedNode history currentStep isDrawingEnabled].
  split_and!; try done.
  - lia.
  - rewrite length_app, length_take. cbn [length]. lia.
  - apply Forall_app. split; [by apply Forall_take |].
    by apply Forall_singleton.
Qed.

(** The possible results of a click. *)
Lemma handleCanvasClick_cases st x y :
  editor_ok geo P st →
  ∃ st',
    handleCanvasClick geo st x y = Rendered st'
    ∧ editor_ok geo P st'
    ∧ isDrawingEnabled st' = isDrawingEnabled st
    ∧ ((ed_nodes st' = ed_nodes st ∧ ed_routes st' = ed_routes st
        ∧ history st' = history st ∧ currentStep st' = currentStep st)
       ∨ ∃ saved,
           history st'
           = take (Z.to_nat (currentStep st) + 1) (history st)
             ++ [mkSnapshot (ed_nodes st') saved]
           ∧ currentStep st' = currentStep st + 1
           ∧ (ed_routes st' = saved
              ∨ (splits_with_selection geo st x y
                 ∧ ∃ r, ed_routes st' = saved ++ [r]))).
Proof.
  intros Hok. pose proof Hok as (Hg & Hsel & Hcs & Hh).
  pose proof Hg as (Hids & Hlab & Hrid & Hknown & Hloop & HPd & Hsp).
  assert (Hfresh : next_id (map node_id (ed_nodes st))
                   ∉ map node_id (ed_nodes st)).
  { intros Hin. apply next_id_fresh in Hin. lia. }
  assert (Hmore : ∀ n i, i ∈ map node_id (ed_nodes st) →
                         i ∈ map node_id (ed_nodes st ++ [n])).
  { intros n i Hi. rewrite map_app, elem_of_app. by left. }
  assert (Hlast : ∀ n, node_id n ∈ map node_id (ed_nodes st ++ [n])).
  { intros n. rewrite map_app, elem_of_app. right. apply list_elem_of_here. }
  unfold handleCanvasClick. cbv zeta.
  destruct (isDrawingEnabled st) eqn:Hen; cbn [negb];
    [| exists st; split_and!; auto].
  destruct (findNearestNode geo (ed_nodes st) x y) as [clicked|] eqn:Hc.
  - apply findNearestNode_elem in Hc.
    assert (Hcid : node_id clicked ∈ map node_id (ed_nodes st))
      by by apply list_elem_of_In, in_map, list_elem_of_In.
    destruct (selectedNode st) as [sel|] eqn:Hs.
    + specialize (Hsel sel eq_refl). case_bool_decide as Heq.
      * unchanged_graph.
      * destruct (routeExists (ed_routes st) sel (node_id clicked));
          cbn [negb].
        -- unchanged_graph.
        -- destruct (new_route_Some geo (ed_nodes st) (ed_routes st) sel clicked
                       Hsel) as (r & Hr & _).
           rewrite Hr, saveToHistory_eq by done. cbn [fst snd].
           assert (graph_ok geo P (ed_nodes st) (ed_routes st ++ [r]))
             by by eapply graph_ok_new_route.
           eexists. split; [reflexivity |].
           split; [by apply editor_ok_saved |].
           split; [done |]. right. eexists. split_and!; [done..|]. by left.
    + unchanged_graph. by intros s [= <-].
  - destruct (findNearestRoute geo (ed_nodes st) (ed_routes st) x y)
      as [[route pt]|] eqn:Hr.
    + destruct (isTooCloseToExistingNodes geo (ed_nodes st) (fst pt) (snd pt))
        eqn:Hfar; cbn [negb]; [exists st; split_and!; auto |].
      pose proof Hr as Hfound. apply findNearestRoute_elem in Hr.
      destruct (splitRoute_Some geo (ed_nodes st) (ed_routes st) route
                  (new_node (ed_nodes st) (fst pt) (snd pt)) Hknown Hr)
        as [routes' Hsplit].
      rewrite Hsplit, saveToHistory_eq by done. cbn [fst snd].
      destruct (graph_ok_split geo P HP _ _ _ _ _ _ Hg Hr Hfar Hsplit)
        as [Hg' _].
      destruct (selectedNode st) as [sel|] eqn:Hs.
      * specialize (Hsel sel eq_refl).
        destruct (routeExists (ed_routes st) sel
                    (node_id (new_node (ed_nodes st) (fst pt) (snd pt))));
          cbn [negb].
        -- eexists. split; [reflexivity |].
           split; [by apply editor_ok_saved |].
           split; [done |]. right. exists routes'. split_and!; [done..|].
           by left.
        -- destruct (new_route_Some geo (ed_nodes st) routes' sel
                       (new_node (ed_nodes st) (fst pt) (snd pt)) Hsel)
             as (r & Hnr & _).
           rewrite Hnr.
           assert (graph_ok geo P
                     (ed_nodes st ++ [new_node (ed_nodes st) (fst pt) (snd pt)])
                     (routes' ++ [r])).
           { eapply graph_ok_new_route; [done | done | exact Hnr | auto | auto |].
             intros ->. by apply Hfresh. }
           eexists. split; [reflexivity |].
           split; [by apply editor_ok_saved |].
           split; [done |]. right. exists routes'. split_and!; [done..|].
           right. split; [| by exists r].
           unfold splits_with_selection. rewrite Hen, Hs, Hc.
           split_and!; [done | by eexists | done |].
           by exists route, pt.
      * eexists. split; [reflexivity |].
        split; [apply editor_ok_saved; try done; intros s [= <-];
               apply (Hlast (new_node _ _ _)) |].
        split; [done |]. right. exists routes'. split_and!; [done..|]. by left.
    + destruct (selectedNode st) as [sel|] eqn:Hs.
      * specialize (Hsel sel eq_refl).
        destruct (isTooCloseToExistingNodes geo (ed_nodes st) x y) eqn:Hfar;
          cbn [negb].
        -- unchanged_graph.
        -- destruct (new_route_Some geo (ed_nodes st) (ed_routes st) sel
                       (new_node (ed_nodes st) x y) Hsel) as (r & Hnr & _).
           rewrite Hnr, saveToHistory_eq by done. cbn [fst snd].
           assert (graph_ok geo P (ed_nodes st ++ [new_node (ed_nodes st) x y])
                     (ed_routes st ++ [r])).
           { eapply graph_ok_new_route;
               [done | by apply graph_ok_add_node | exact Hnr | auto | auto |].
             intros ->. by apply Hfresh. }
           eexists. split; [reflexivity |].
           split; [by apply editor_ok_saved |].
           split; [done |]. right. eexists. split_and!; [done..|]. by left.
      * destruct (isTooCloseToExistingNodes geo (ed_nodes st) x y) eqn:Hfar;
          cbn [negb]; [exists st; split_and!; auto |].
        rewrite saveToHistory_eq by done. cbn [fst snd].
        assert (graph_ok geo P (ed_nodes st ++ [new_node (ed_nodes st) x y])
                  (ed_routes st)) by by apply graph_ok_add_node.
        eexists. split; [reflexivity |].
        split; [apply editor_ok_saved; try done; intros s [= <-];
               apply (Hlast (new_node _ _ _)) |].
        split; [done |]. right. eexists. split_and!; [done..|]. by left.
Qed.
End EditorOk.

Section EditorEvents.
Variables (geo : geometry) (P : Z → Prop).
Hypothesis HP : ∀ a b c d, P (calculateDistance geo a b c d).

Lemma init_history_ok st : editor_ok geo P st → init_history st = st.
Proof.
  intros (_ & _ & Hcs & _). unfold init_history.
  destruct (history st); [cbn [length] in Hcs; lia | done].
Qed.

Lemma editor_ok_mounted : editor_ok geo P mounted.
Proof.
  unfold mounted, init_history, editor_ok.
  cbn [history length Nat.eqb ed_nodes ed_routes selectedNode currentStep].
  split_and!; try done; [apply graph_ok_empty |].
  apply Forall_singleton, graph_ok_empty.
Qed.

Lemma undo_ok st :
  editor_ok geo P st →
  ∃ st', undo st = Rendered st' ∧ editor_ok geo P st'
         ∧ history st' = history st
         ∧ (st' = st
            ∨ currentStep st' = currentStep st - 1
              ∧ history st !! Z.to_nat (currentStep st')
                = Some (mkSnapshot (ed_nodes st') (ed_routes st'))).
Proof.
  intros Hok. pose proof Hok as (Hg & Hsel & Hcs & Hh). unfold undo.
  destruct (Z.ltb_spec 0 (currentStep st)) as [Hpos | Hle]; [| eauto 6].
  destruct (lookup_lt_is_Some_2 (history st) (Z.to_nat (currentStep st - 1)))
    as [prev Hprev]; [lia |].
  rewrite Hprev. eexists. split; [reflexivity |].
  pose proof (Forall_lookup_1 _ _ _ _ Hh Hprev) as Hgp.
  unfold editor_ok.
  cbn [ed_nodes ed_routes selectedNode history currentStep isDrawingEnabled].
  split_and!; try done; try lia.
  right. split; [done |]. by destruct prev.
Qed.

Lemma dispatch_ok st ev :
  editor_ok geo P st →
  ∃ st', dispatch geo st ev = Rendered st' ∧ editor_ok geo P st'.
Proof.
  intros Hok. unfold dispatch. destruct ev as [x y | | |].
  - destruct (handleCanvasClick_cases geo P HP st x y Hok)
      as (st' & -> & Hok' & _).
    rewrite init_history_ok by done. eauto.
  - destruct ((currentStep st <=? 0) || negb (isDrawingEnabled st)).
    + rewrite init_history_ok by done. eauto.
    + destruct (undo_ok st Hok) as (st' & -> & Hok' & _).
      rewrite init_history_ok by done. eauto.
  - eexists. split; [reflexivity |]. apply editor_ok_mounted.
  - assert (Hok' : editor_ok geo P (toggleDrawing st)).
    { destruct Hok as (Hg & Hsel & Hcs & Hh). unfold toggleDrawing, editor_ok.
      cbn [ed_nodes ed_routes selectedNode history currentStep isDrawingEnabled].
      split_and!; try done; try lia.
      intros s Hs. apply Hsel. by destruct (isDrawingEnabled st). }
    rewrite init_history_ok by done. eauto.
Qed.

Lemma editable_ok st : editable geo st → editor_ok geo P st.
Proof.
  induction 1 as [|st ev st' _ IH Hd]; [apply editor_ok_mounted |].
  destruct (dispatch_ok st ev IH) as (st'' & Hd' & Hok).
  rewrite Hd in Hd'. by inversion Hd'; subst.
Qed.
End EditorEvents.

Lemma editable_ok_True geo st : editable geo st → editor_ok geo (fun _ => True) st.
Proof. by apply editable_ok. Qed.

(** X19: The [!] of the handlers never meets [undefined] and [undo] never reads
    past the history: in every state of the editor each event is handled to
    its end, and [currentStep] is an index of [history]. *)
Theorem editor_never_throws geo st :
  editable geo st →
  (∀ ev, ∃ st', dispatch geo st ev = Rendered st')
  ∧ (∀ x y, ∃ st', handleCanvasClick geo st x y = Rendered st')
  ∧ (∃ st', undo st = Rendered st')
  ∧ 0 <= currentStep st < Z.of_nat (length (history st)).
Proof.
  intros Hok%editable_ok_True. split_and!.
  - intros ev. destruct (dispatch_ok geo (fun _ => True) (fun _ _ _ _ => I) st ev Hok)
      as (st' & Hd & _). eauto.
  - intros x y.
    destruct (handleCanvasClick_cases geo (fun _ => True) (fun _ _ _ _ => I)
                st x y Hok) as (st' & Hd & _). eauto.
  - destruct (undo_ok geo (fun _ => True) st Hok) as (st' & Hd & _). eauto.
  - by destruct Hok as (_ & _ & [? ?] & _).
  - by destruct Hok as (_ & _ & [? ?] & _).
Qed.

(** X20: The graph of the editor: the nodes have the identifiers [1, ..., n] in
    the order of the list, the routes have pairwise distinct identifiers, both
    ends of every route are nodes, no route joins a node to itself, and the
    selected node is a node. *)
Theorem editor_graph_wellformed geo st :
  editable geo st →
  map node_id (ed_nodes st) = seqZ 1 (Z.of_nat (length (ed_nodes st)))
  ∧ NoDup (map route_id (ed_routes st))
  ∧ endpoints_known (ed_nodes st) (ed_routes st)
  ∧ Forall (fun r => startNodeId r ≠ endNodeId r) (ed_routes st)
  ∧ (∀ s, selectedNode st = Some s → s ∈ map node_id (ed_nodes st)).
Proof.
  intros ((Hids & _ & Hrid & Hknown & Hloop & _) & Hsel & _)%editable_ok_True.
  by split_and!.
Qed.

(** X21: No node is placed nearer than 16 to a node that is already there. *)
Theorem editor_nodes_spaced geo st :
  editable geo st → spaced geo (ed_nodes st).
Proof.
  by intros ((_ & _ & _ & _ & _ & _ & Hsp) & _)%editable_ok_True.
Qed.

(** X22: Every route of the editor, and of every snapshot of its history, has a
    distance that [calculateDistance] returned; so no distance is negative as
    long as [calculateDistance] returns none. *)
Theorem editor_distances_nonneg geo st :
  (∀ a b c d, 0 <= calculateDistance geo a b c d) →
  editable geo st →
  nonneg_distances (ed_routes st)
  ∧ Forall (fun h => nonneg_distances (snap_routes h)) (history st).
Proof.
  intros Hgeo Hed.
  destruct (editable_ok geo (fun d => 0 <= d) Hgeo st Hed)
    as ((_ & _ & _ & _ & _ & Hd & _) & _ & _ & Hh).
  split; [done |].
  eapply Forall_impl; [exact Hh |]. cbn beta.
  by intros h (_ & _ & _ & _ & _ & Hd' & _).
Qed.

(** X23: A graph drawn in the editor meets what the optimizer relies on: if it is
    connected and has 1 to 12 routes, the optimizer reports a closed walk
    along every route. *)
Theorem editor_graph_optimized shuffle geo st :
  (∀ i l, l ≡ₚ shuffle i l) →
  editable geo st →
  connected (ed_nodes st) (ed_routes st) →
  (1 ≤ length (ed_routes st) ≤ 12)%nat →
  ∃ p d, optimizeRoute shuffle (ed_nodes st) (ed_routes st)
         = Done (Optimized (mkBestPath p (Fin d)))
         ∧ closed_walk p
         ∧ covers p (ed_routes st).
Proof.
  intros Hshuffle ((_ & _ & Hnd & Hknown & _) & _)%editable_ok_True Hconn Hlen.
  assert (Hnodes : ed_nodes st ≠ []).
  { intros Hnil. rewrite Hnil in Hknown.
    destruct (ed_routes st) as [|r routes]; [simpl in Hlen; lia |].
    apply Forall_cons in Hknown as [[Hs _] _]. by apply elem_of_nil in Hs. }
  destruct (optimizeRoute_minimum shuffle _ _ Hlen Hnodes)
    as (s & o & w & Hs & Ho & Hw & Hopt & _).
  pose proof (getAllEdgePermutations_sound shuffle _ o Hshuffle Ho) as Hperm.
  destruct (traverseEdgesInOrder_connected _ _ s Hknown Hconn o)
    as (w' & Hw' & Hclosed & Hcovers); [done | by rewrite <- Hperm | |].
  { intros e He. by rewrite Hperm. }
  rewrite Hw in Hw'. inversion Hw'; subst w'.
  exists (path w), (totalDistance w). split_and!; [done | done |].
  intros e He. apply Hcovers. by rewrite <- Hperm.
Qed.

(** ** Labels of the nodes *)

Lemma label_text_inj u v :
  Forall (fun c => 0 <= c < 256) u → Forall (fun c => 0 <= c < 256) v →
  label_text u = label_text v → u = v.
Proof.
  unfold label_text. intros Hu Hv Heq.
  apply (f_equal String.list_ascii_of_string) in Heq.
  rewrite !String.list_ascii_of_string_of_list_ascii in Heq.
  revert v Hv Heq. induction Hu as [|c u Hc Hu IH]; intros v Hv Heq.
  - by destruct v.
  - destruct Hv as [|d v Hd Hv]; [done |].
    cbn [map] in Heq. injection Heq as Hcd Heq.
    apply (f_equal Ascii.N_of_ascii) in Hcd.
    rewrite !Ascii.N_ascii_embedding in Hcd by lia.
    f_equal; [lia | by apply IH].
Qed.

(** X24: Node number [i] of the list (from 0) carries the label of index [i], and
    while there are at most 18278 nodes (the labels [a] to [zzz]) no two nodes
    have the same label. *)
Theorem editor_labels_distinct geo st :
  editable geo st →
  Z.of_nat (length (ed_nodes st)) <= 18278 →
  (∀ i n, ed_nodes st !! i = Some n →
          label n = label_text (getNodeLabel (Z.of_nat i)))
  ∧ NoDup (map label (ed_nodes st)).
Proof.
  intros ((_ & Hlab & _) & _)%editable_ok_True Hlen. split.
  - intros i n Hn.
    assert (Hi : map label (ed_nodes st) !! i = Some (label n))
      by by rewrite list_lookup_fmap, Hn.
    rewrite Hlab, list_lookup_fmap in Hi.
    destruct (seqZ 0 (Z.of_nat (length (ed_nodes st))) !! i) as [k|] eqn:Hk;
      [| done].
    apply lookup_seqZ in Hk as [-> _]. rewrite Z.add_0_l in Hi.
    by inversion Hi.
  - rewrite Hlab.
    apply (NoDup_fmap_2_strong (fun k => label_text (getNodeLabel k)));
      [| apply NoDup_seqZ].
    intros a b Ha Hb Heq. apply elem_of_seqZ in Ha, Hb.
    apply getNodeLabel_injective; [lia | lia |].
    apply label_text_inj; [| | done].
    + eapply Forall_impl; [apply (getNodeLabel_lowercase a); lia |].
      unfold lowercase. cbn beta. lia.
    + eapply Forall_impl; [apply (getNodeLabel_lowercase b); lia |].
      unfold lowercase. cbn beta. lia.
Qed.

(** ** The history *)

(** X25: A click that changes the graph can be undone: [undo] right after it shows
    the graph from before the click again, with no node selected. *)
Theorem undo_after_change geo st x y st' :
  editable geo st →
  history_current st →
  handleCanvasClick geo st x y = Rendered st' →
  ed_nodes st' ≠ ed_nodes st ∨ ed_routes st' ≠ ed_routes st →
  ∃ st'', undo st' = Rendered st''
          ∧ ed_nodes st'' = ed_nodes st
          ∧ ed_routes st'' = ed_routes st
          ∧ selectedNode st'' = None.
Proof.
  intros Hok%editable_ok_True Hcur Hclick Hchanged.
  destruct (handleCanvasClick_cases geo (fun _ => True) (fun _ _ _ _ => I)
              st x y Hok) as (st1 & Hclick' & _ & _ & Hcases).
  rewrite Hclick in Hclick'. inversion Hclick'; subst st1; clear Hclick'.
  destruct Hok as (_ & _ & Hcs & _).
  destruct Hcases as [(Hn & Hr & _) | (saved & Hh & Hstep & _)];
    [by destruct Hchanged |].
  unfold undo. rewrite Hstep, Hh.
  rewrite (proj2 (Z.ltb_lt _ _)) by lia.
  replace (currentStep st + 1 - 1) with (currentStep st) by lia.
  rewrite lookup_app_l by (rewrite length_take; lia).
  rewrite lookup_take_lt by lia.
  unfold history_current in Hcur. rewrite Hcur. eauto.
Qed.

(** X26: The entry of the history at [currentStep] stays the graph on the screen
    under every event but one: a click that splits a route while a node is
    selected. *)
Theorem history_current_preserved geo st ev st' :
  editable geo st →
  history_current st →
  dispatch geo st ev = Rendered st' →
  (∀ x y, ev = Click x y → ¬ splits_with_selection geo st x y) →
  history_current st'.
Proof.
  intros Hok%editable_ok_True Hcur Hd Hev. unfold dispatch in Hd.
  destruct ev as [x y | | |].
  - destruct (handleCanvasClick_cases geo (fun _ => True) (fun _ _ _ _ => I)
                st x y Hok) as (st1 & Hclick & Hok1 & _ & Hcases).
    rewrite Hclick, (init_history_ok geo (fun _ => True)) in Hd by done.
    inversion Hd; subst st1; clear Hd.
    destruct Hok as (_ & _ & Hcs & _).
    unfold history_current in *.
    destruct Hcases as [(-> & -> & -> & ->) | (saved & Hh & -> & Hr)]; [done |].
    destruct Hr as [Hr | [Hsplit _]]; [| by destruct (Hev x y eq_refl)].
    rewrite Hh, Hr, lookup_app_r by (rewrite length_take; lia).
    rewrite length_take.
    replace (Z.to_nat (currentStep st + 1)
             - (Z.to_nat (currentStep st) + 1) `min` length (history st))%nat
      with 0%nat by lia.
    done.
  - destruct ((currentStep st <=? 0) || negb (isDrawingEnabled st)).
    + rewrite (init_history_ok geo (fun _ => True)) in Hd by done. by inversion Hd; subst.
    + destruct (undo_ok geo (fun _ => True) st Hok)
        as (st1 & Hundo & Hok1 & Hh & Hcases).
      rewrite Hundo, (init_history_ok geo (fun _ => True)) in Hd by done.
      inversion Hd; subst st1; clear Hd.
      destruct Hcases as [-> | [_ Hl]]; [done |].
      unfold history_current. by rewrite Hh.
  - by inversion Hd; subst.
  - rewrite (init_history_ok geo (fun _ => True)) in Hd.
    + by inversion Hd; subst.
    + destruct Hok as (Hg & Hsel & Hcs & Hh). unfold toggleDrawing, editor_ok.
      cbn [ed_nodes ed_routes selectedNode history currentStep isDrawingEnabled].
      split_and!; try done; try lia.
      intros s Hs. apply Hsel. by destruct (isDrawingEnabled st).
Qed.

Lemma handleCanvasClick_split_selected geo st x y sel route pt :
  editor_ok geo (fun _ => True) st →
  isDrawingEnabled st = true →
  selectedNode st = Some sel →
  findNearestNode geo (ed_nodes st) x y = None →
  findNearestRoute geo (ed_nodes st) (ed_routes st) x y = Some (route, pt) →
  isTooCloseToExistingNodes geo (ed_nodes st) (fst pt) (snd pt) = false →
  let newNode := new_node (ed_nodes st) (fst pt) (snd pt) in
  ∃ updatedRoutes r,
    splitRoute geo (ed_nodes st) (ed_routes st) route newNode
    = Some updatedRoutes
    ∧ new_route geo (ed_nodes st) updatedRoutes sel newNode = Some r
    ∧ handleCanvasClick geo st x y
      = Rendered
          (mkEditor (ed_nodes st ++ [newNode]) (updatedRoutes ++ [r]) None
             (take (Z.to_nat (currentStep st) + 1) (history st)
              ++ [mkSnapshot (ed_nodes st ++ [newNode]) updatedRoutes])
             (currentStep st + 1) true).
Proof.
  intros Hok Hen Hs Hc Hr Hfar newNode.
  pose proof Hok as (Hg & Hsel & Hcs & Hh).
  pose proof Hg as (Hids & _ & _ & Hknown & _).
  pose proof (findNearestRoute_elem _ _ _ _ _ _ _ Hr) as Hin.
  destruct (splitRoute_Some geo (ed_nodes st) (ed_routes st) route newNode
              Hknown Hin) as [routes' Hsplit].
  destruct (new_route_Some geo (ed_nodes st) routes' sel newNode (Hsel sel Hs))
    as (r & Hnr & _).
  assert (Hnone : routeExists (ed_routes st) sel (node_id newNode) = false).
  { apply routeExists_false. intros r' Hr'.
    destruct (proj1 (Forall_forall _ _) Hknown r' Hr') as [Hs' He'].
    apply next_id_fresh in Hs', He'. cbn [newNode new_node node_id]. lia. }
  exists routes', r. split_and!; [done | done |].
  unfold handleCanvasClick. cbv zeta. fold newNode.
  rewrite Hen, Hc, Hr, Hfar. cbn [negb]. fold newNode.
  rewrite Hsplit, Hs, Hnone, Hnr. cbn [negb].
  by rewrite saveToHistory_eq by done.
Qed.

(** X27: A click that splits a route while a node is selected saves the graph
    without the route from the selected node to the new node, which it then
    adds to the routes on the screen: the history entry at [currentStep] is
    not the graph on the screen. *)
Theorem split_with_selection_history geo st x y :
  editable geo st →
  splits_with_selection geo st x y →
  ∃ st' saved r,
    handleCanvasClick geo st x y = Rendered st'
    ∧ history st' !! Z.to_nat (currentStep st')
      = Some (mkSnapshot (ed_nodes st') saved)
    ∧ ed_routes st' = saved ++ [r]
    ∧ selectedNode st = Some (startNodeId r)
    ∧ endNodeId r = Z.of_nat (length (ed_nodes st')).
Proof.
  intros Hok%editable_ok_True (Hen & [sel Hs] & Hc & route & pt & Hr & Hfar).
  destruct (handleCanvasClick_split_selected geo st x y sel route pt
              Hok Hen Hs Hc Hr Hfar) as (routes' & r & _ & Hnr & Hclick).
  destruct Hok as ((Hids & _) & _ & Hcs & _).
  unfold new_route in Hnr.
  destruct (find_node (ed_nodes st) sel); [| done].
  inversion Hnr; subst r; clear Hnr.
  eexists _, routes', _. split; [exact Hclick |].
  cbn [ed_nodes ed_routes selectedNode history currentStep isDrawingEnabled
       startNodeId endNodeId].
  split_and!; [| done | done |].
  - rewrite lookup_app_r by (rewrite length_take; lia).
    rewrite length_take.
    replace (Z.to_nat (currentStep st + 1)
             - (Z.to_nat (currentStep st) + 1) `min` length (history st))%nat
      with 0%nat by lia.
    done.
  - rewrite length_app. cbn [new_node node_id length].
    rewrite Hids, next_id_seqZ. cbn [endNodeId]. lia.
Qed.

(** X28: The test [routeExists] reads the routes from before the split: when the
    selected node is an end of the route that the click splits, the click
    leaves two routes with different identifiers between the selected node
    and the new node. *)
Theorem split_at_selected_end_doubles_route geo st x y sel route pt :
  editable geo st →
  isDrawingEnabled st = true →
  selectedNode st = Some sel →
  findNearestNode geo (ed_nodes st) x y = None →
  findNearestRoute geo (ed_nodes st) (ed_routes st) x y = Some (route, pt) →
  isTooCloseToExistingNodes geo (ed_nodes st) (fst pt) (snd pt) = false →
  sel = startNodeId route ∨ sel = endNodeId route →
  ∃ st' r1 r2,
    handleCanvasClick geo st x y = Rendered st'
    ∧ r1 ∈ ed_routes st' ∧ r2 ∈ ed_routes st'
    ∧ route_id r1 ≠ route_id r2
    ∧ joins r1 sel (Z.of_nat (length (ed_nodes st')))
    ∧ joins r2 sel (Z.of_nat (length (ed_nodes st'))).
Proof.
  intros Hok%editable_ok_True Hen Hs Hc Hr Hfar Hend.
  destruct (handleCanvasClick_split_selected geo st x y sel route pt
              Hok Hen Hs Hc Hr Hfar) as (routes' & r & Hsplit & Hnr & Hclick).
  destruct Hok as ((Hids & _) & _).
  assert (Hnew : node_id (new_node (ed_nodes st) (fst pt) (snd pt))
                 = Z.of_nat (length (ed_nodes st ++
                                     [new_node (ed_nodes st) (fst pt) (snd pt)]))).
  { rewrite length_app. cbn [new_node node_id length].
    rewrite Hids, next_id_seqZ. lia. }
  unfold new_route in Hnr.
  destruct (find_node (ed_nodes st) sel); [| done].
  inversion Hnr; subst r; clear Hnr.
  unfold splitRoute in Hsplit.
  destruct (find_node (ed_nodes st) (startNodeId route)) as [s|]; [| done].
  destruct (find_node (ed_nodes st) (endNodeId route)) as [e|]; [| done].
  inversion Hsplit as [Hroutes]; clear Hsplit.
  match type of Hroutes with
  | ?old ++ [?a; ?b] = _ => set (route1 := a) in *; set (route2 := b) in *
  end.
  assert (H1 : route1 ∈ routes').
  { rewrite <- Hroutes. apply elem_of_app. right. apply list_elem_of_here. }
  assert (H2 : route2 ∈ routes').
  { rewrite <- Hroutes. apply elem_of_app. right.
    apply list_elem_of_further, list_elem_of_here. }
  match type of Hclick with
  | _ = Rendered (mkEditor _ (_ ++ [?c]) _ _ _ _) => set (r := c) in *
  end.
  assert (Hfresh : ∀ r', r' ∈ routes' → route_id r' ≠ route_id r).
  { intros r' Hr' Heq.
    assert (Hlt : route_id r' < next_id (map route_id routes')).
    { apply next_id_fresh. by apply list_elem_of_In, in_map, list_elem_of_In. }
    cbn [r route_id] in Heq. lia. }
  destruct Hend as [-> | ->].
  - eexists _, route1, r. split; [exact Hclick |].
    cbn [ed_nodes ed_routes]. rewrite <- Hnew.
    split_and!; [| | by apply Hfresh | by left | by left].
    + apply elem_of_app. by left.
    + apply elem_of_app. right. apply list_elem_of_here.
  - eexists _, route2, r. split; [exact Hclick |].
    cbn [ed_nodes ed_routes]. rewrite <- Hnew.
    split_and!; [| | by apply Hfresh | by right | by left].
    + apply elem_of_app. by left.
    + apply elem_of_app. right. apply list_elem_of_here.
Qed.

(** ** Splitting a route *)

Lemma reachable_trans routes a b c :
  reachable routes a b → reachable routes b c → reachable routes a c.
Proof.
  intros (l1 & w1 & H1) (l2 & w2 & H2).
  exists (l1 ++ tail l2), (w1 + w2). by eapply wpath_app.
Qed.

Lemma reachable_step routes r a b :
  r ∈ routes → joins r a b → reachable routes a b.
Proof.
  intros Hr Hj. exists ([a] ++ [b]), (0 + distance r).
  eapply wpath_snoc; [apply wpath_nil | done | done].
Qed.

(** X29: Splitting a route keeps every connection: what could be reached along
    the routes before can be reached along the routes after, through the new
    node where the split route was used. *)
Theorem splitRoute_reachable geo nodes routes routeToSplit newNode routes' :
  NoDup (map route_id routes) →
  routeToSplit ∈ routes →
  splitRoute geo nodes routes routeToSplit newNode = Some routes' →
  (∀ a b, reachable routes a b → reachable routes' a b)
  ∧ reachable routes' (startNodeId routeToSplit) (node_id newNode)
  ∧ reachable routes' (node_id newNode) (endNodeId routeToSplit).
Proof.
  intros Hnd Hin Hsplit. unfold splitRoute in Hsplit.
  destruct (find_node nodes (startNodeId routeToSplit)) as [s|]; [| done].
  destruct (find_node nodes (endNodeId routeToSplit)) as [e|]; [| done].
  inversion Hsplit; subst routes'; clear Hsplit.
  match goal with
  | |- context [?old ++ [?r1; ?r2]] =>
      set (route1 := r1); set (route2 := r2); set (kept := old)
  end.
  assert (H1 : route1 ∈ kept ++ [route1; route2]).
  { apply elem_of_app. right. apply list_elem_of_here. }
  assert (H2 : route2 ∈ kept ++ [route1; route2]).
  { apply elem_of_app. right. apply list_elem_of_further, list_elem_of_here. }
  assert (Hfirst : reachable (kept ++ [route1; route2])
                     (startNodeId routeToSplit) (node_id newNode)).
  { apply (reachable_step _ route1); [done | by left]. }
  assert (Hsecond : reachable (kept ++ [route1; route2])
                      (node_id newNode) (endNodeId routeToSplit)).
  { apply (reachable_step _ route2); [done | by left]. }
  split_and!; [| done | done].
  intros a b (l & w & Hp).
  induction Hp as [|l x w r y Hp IH Hr Hj].
  { exists [a], 0. apply wpath_nil. }
  apply (reachable_trans _ a x y); [done |].
  destruct (decide (route_id r = route_id routeToSplit)) as [Hid | Hid].
  - assert (r = routeToSplit) as ->.
    { apply list_elem_of_lookup in Hr as [i Hi], Hin as [j Hj'].
      assert (i = j) as ->; [| congruence].
      apply (NoDup_lookup (map route_id routes) i j (route_id r)); [done | |].
      - by rewrite list_lookup_fmap, Hi.
      - by rewrite list_lookup_fmap, Hj', Hid. }
    destruct Hj as [[<- <-] | [<- <-]].
    + by apply (reachable_trans _ _ (node_id newNode)).
    + apply (reachable_trans _ _ (node_id newNode)).
      * destruct Hsecond as (l2 & w2 & Hp2). eexists _, _.
        by apply wpath_rev in Hp2.
      * destruct Hfirst as (l1 & w1 & Hp1). eexists _, _.
        by apply wpath_rev in Hp1.
  - apply (reachable_step _ r); [| done].
    apply elem_of_app. left. by apply list_elem_of_filter.
Qed.

(** ** Picking a node *)

Lemma findNearestNode_fold geo x y nodes o t :
  let d := fun n => calculateDistance geo x y (node_x n) (node_y n) in
  let res :=
    foldl (fun acc node =>
             if d node <? snd acc then (Some node, d node) else acc)
      (o, t) nodes in
  (∀ m, m ∈ nodes → snd res <= d m)
  ∧ ((fst res = o ∧ snd res = t)
     ∨ ∃ n, n ∈ nodes ∧ fst res = Some n ∧ snd res = d n ∧ d n < t).
Proof.
  intros d. revert o t. induction nodes as [|n nodes IH]; intros o t res.
  { split; [by intros m Hm%elem_of_nil | by left]. }
  subst res. cbn [foldl snd].
  destruct (Z.ltb_spec (d n) t) as [Hlt | Hge].
  - destruct (IH (Some n) (d n)) as [Hmin Hres]. split.
    + intros m [-> | Hm]%elem_of_cons; [| by apply Hmin].
      destruct Hres as [[_ ->] | (n' & _ & _ & -> & ?)]; lia.
    + right. destruct Hres as [[Hf Hs] | (n' & Hn' & Hf & Hs & Hd)].
      * exists n. split_and!; [apply list_elem_of_here | done | done | done].
      * exists n'. split_and!; [by apply list_elem_of_further | done | done | lia].
  - destruct (IH o t) as [Hmin Hres]. split.
    + intros m [-> | Hm]%elem_of_cons; [| by apply Hmin].
      destruct Hres as [[_ ->] | (n' & _ & _ & -> & ?)]; lia.
    + destruct Hres as [? | (n' & Hn' & Hf & Hs & Hd)]; [by left |].
      right. exists n'. split_and!; [by apply list_elem_of_further | done..].
Qed.

(** X30: [findNearestNode] returns a node nearer than 10 to the click that no
    node is nearer than, and [null] exactly when no node is nearer than
    10. *)
Theorem findNearestNode_nearest geo nodes x y :
  let d := fun n => calculateDistance geo x y (node_x n) (node_y n) in
  match findNearestNode geo nodes x y with
  | Some n => n ∈ nodes ∧ d n < 10 ∧ ∀ m, m ∈ nodes → d n <= d m
  | None => ∀ m, m ∈ nodes → 10 <= d m
  end.
Proof.
  intros d. unfold findNearestNode.
  destruct (findNearestNode_fold geo x y nodes None 10) as [Hmin Hres].
  cbv zeta in Hmin, Hres. fold d in Hmin, Hres.
  destruct Hres as [[-> Hs] | (n & Hn & -> & Hs & Hd)].
  - intros m Hm. specialize (Hmin m Hm). by rewrite Hs in Hmin.
  - split_and!; [done | done |].
    intros m Hm. specialize (Hmin m Hm). by rewrite Hs in Hmin.
Qed.

(** ** Examples *)

Lemma connected_search nodes routes :
  forallb
    (fun a =>
       forallb
         (fun b =>
            match findShortestPath nodes routes a b with
            | Done (Some _) => true
            | _ => false
            end)
         (map node_id nodes))
    (map node_id nodes) = true →
  connected nodes routes.
Proof.
  intros Hall a b Ha Hb.
  rewrite forallb_forall in Hall.
  specialize (Hall a (proj1 (list_elem_of_In _ _) Ha)).
  rewrite forallb_forall in Hall.
  specialize (Hall b (proj1 (list_elem_of_In _ _) Hb)).
  destruct (findShortestPath nodes routes a b) as [[p|]|] eqn:Hf; try done.
  destruct (findShortestPath_wpath _ _ _ _ _ Hf) as (d & _ & Hp).
  by exists (sp_path p), d.
Defined.

Lemma triangle_connected : connected triangle_nodes triangle_routes.
Proof. apply connected_search. by vm_compute. Defined.

Lemma triangle_distinct : NoDup (map route_id triangle_routes).
Proof. compute_done. Defined.

Lemma no_shuffle_Permutation : ∀ i l, l ≡ₚ no_shuffle i l.
Proof. by intros i l. Defined.

Lemma run_events_editable geo st events st' :
  editable geo st → run_events geo st events = Rendered st' → editable geo st'.
Proof.
  revert st. induction events as [|ev events IH]; intros st Hst Hrun;
    cbn [run_events] in Hrun.
  - by inversion Hrun; subst.
  - destruct (dispatch geo st ev) as [st1|] eqn:Hd; [| done].
    apply (IH st1); [| done]. by apply (editable_event geo st ev).
Defined.

Lemma line_drawn_editable : editable sample_geometry line_drawn.
Proof.
  apply (run_events_editable _ mounted [Click 0 0; Click 100 0]);
    [apply editable_mounted | by vm_compute].
Defined.

Lemma line_selected_editable : editable sample_geometry line_selected.
Proof.
  apply (run_events_editable _ mounted [Click 0 0; Click 100 0; Click 0 0]);
    [apply editable_mounted | by vm_compute].
Defined.

Lemma line_drawn_connected :
  connected (ed_nodes line_drawn) (ed_routes line_drawn).
Proof. apply connected_search. by vm_compute. Defined.

Lemma sample_geometry_nonneg a b c d :
  0 <= calculateDistance sample_geometry a b c d.
Proof. apply Z.sqrt_nonneg. Defined.

Lemma line_selected_splits : splits_with_selection sample_geometry line_selected 50 0.
Proof.
  unfold splits_with_selection.
  split_and!; [by vm_compute | by exists 1 | by vm_compute |].
  exists line_route, (50, 0). split; by vm_compute.
Defined.

Lemma findShortestPath_unknown_node_triangle :
  1 ≠ 7
  ∧ (1 ∉ map node_id triangle_nodes ∨ 7 ∉ map node_id triangle_nodes)
  ∧ findShortestPath triangle_nodes triangle_routes 1 7 = Done None.
Proof.
  assert (H1 : 1 ≠ 7) by done.
  assert (H2 : 1 ∉ map node_id triangle_nodes ∨ 7 ∉ map node_id triangle_nodes)
    by (right; compute_done).
  split_and!; [done | done |].
  exact (findShortestPath_unknown_node triangle_nodes triangle_routes 1 7 H1 H2).
Defined.

Lemma findShortestPath_simple_path_triangle :
  findShortestPath triangle_nodes triangle_routes 1 3
  = Done (Some (mkShortestPath [1; 3] (Fin 14)))
  ∧ 1 ≠ 3
  ∧ NoDup [1; 3]
  ∧ (∀ y, y ∈ [1; 3] → y ∈ map node_id triangle_nodes)
  ∧ (2 ≤ length [1; 3] ≤ length triangle_nodes)%nat.
Proof.
  assert (H1 : findShortestPath triangle_nodes triangle_routes 1 3
               = Done (Some (mkShortestPath [1; 3] (Fin 14)))) by by vm_compute.
  assert (H2 : 1 ≠ 3) by done.
  split_and!; [done | done | ..];
    apply (findShortestPath_simple_path triangle_nodes triangle_routes 1 3
             (mkShortestPath [1; 3] (Fin 14)) H1 H2).
Defined.

Lemma findShortestPath_found_symmetric_triangle :
  endpoints_known triangle_nodes triangle_routes
  ∧ (findShortestPath triangle_nodes triangle_routes 1 2 = Done None
     ↔ findShortestPath triangle_nodes triangle_routes 2 1 = Done None)
  ∧ ((∃ p, findShortestPath triangle_nodes triangle_routes 1 2
           = Done (Some p)) →
     (∃ q, findShortestPath triangle_nodes triangle_routes 2 3
           = Done (Some q)) →
     ∃ r, findShortestPath triangle_nodes triangle_routes 1 3 = Done (Some r)).
Proof.
  split; [apply triangle_valid |].
  apply (findShortestPath_found_symmetric triangle_nodes triangle_routes 1 2 3).
  apply triangle_valid.
Defined.

Lemma traverseEdgesInOrder_connected_walk_triangle :
  endpoints_known triangle_nodes triangle_routes
  ∧ connected triangle_nodes triangle_routes
  ∧ 1 ∈ map node_id triangle_nodes
  ∧ NoDup (map route_id triangle_routes)
  ∧ (∀ e, e ∈ triangle_routes → e ∈ triangle_routes)
  ∧ ∃ w, traverseEdgesInOrder triangle_nodes triangle_routes 1 triangle_routes
         = Done (Some w)
         ∧ closed_walk (path w)
         ∧ covers (path w) triangle_routes
         ∧ linked triangle_routes (path w).
Proof.
  assert (H1 : 1 ∈ map node_id triangle_nodes) by compute_done.
  split_and!;
    [apply triangle_valid | apply triangle_connected | done
    | apply triangle_distinct | done |].
  apply (traverseEdgesInOrder_connected_walk triangle_nodes triangle_routes 1
           triangle_routes);
    [apply triangle_valid | apply triangle_connected | done
    | apply triangle_distinct | done].
Defined.

Lemma optimizeRoute_connected_triangle :
  (∀ i l, l ≡ₚ no_shuffle i l)
  ∧ endpoints_known triangle_nodes triangle_routes
  ∧ connected triangle_nodes triangle_routes
  ∧ NoDup (map route_id triangle_routes)
  ∧ (1 ≤ length triangle_routes ≤ 12)%nat
  ∧ ∃ p d, optimizeRoute no_shuffle triangle_nodes triangle_routes
           = Done (Optimized (mkBestPath p (Fin d)))
           ∧ closed_walk p
           ∧ covers p triangle_routes.
Proof.
  split_and!;
    [apply no_shuffle_Permutation | apply triangle_valid
    | apply triangle_connected | apply triangle_distinct
    | apply triangle_valid | apply triangle_valid |].
  apply (optimizeRoute_connected no_shuffle triangle_nodes triangle_routes);
    [apply no_shuffle_Permutation | apply triangle_valid
    | apply triangle_connected | apply triangle_distinct | apply triangle_valid].
Defined.

Lemma optimizeRoute_connected_linked_triangle :
  (∀ i l, l ≡ₚ no_shuffle i l)
  ∧ endpoints_known triangle_nodes triangle_routes
  ∧ connected triangle_nodes triangle_routes
  ∧ (1 ≤ length triangle_routes ≤ 12)%nat
  ∧ ∃ p d s, optimizeRoute no_shuffle triangle_nodes triangle_routes
             = Done (Optimized (mkBestPath p (Fin d)))
             ∧ head p = Some s ∧ s ∈ map node_id triangle_nodes
             ∧ linked triangle_routes p.
Proof.
  split_and!;
    [apply no_shuffle_Permutation | apply triangle_valid
    | apply triangle_connected | apply triangle_valid | apply triangle_valid |].
  apply (optimizeRoute_connected_linked no_shuffle triangle_nodes triangle_routes);
    [apply no_shuffle_Permutation | apply triangle_valid
    | apply triangle_connected | apply triangle_valid].
Defined.

Lemma optimizeRoute_no_randomness_triangle :
  (length triangle_routes ≤ 8)%nat
  ∧ optimizeRoute no_shuffle triangle_nodes triangle_routes
    = optimizeRoute (fun _ l => rev l) triangle_nodes triangle_routes.
Proof.
  assert (H1 : (length triangle_routes ≤ 8)%nat) by (cbn; lia).
  split; [done |].
  exact (optimizeRoute_no_randomness no_shuffle (fun _ l => rev l)
           triangle_nodes triangle_routes H1).
Defined.

Lemma getNodeLabel_letters_ab :
  0 <= 27 < 44303038
  ∧ length (getNodeLabel 27) = 2%nat
  ∧ (Forall lowercase (getNodeLabel 27) ↔ 27 < 18278).
Proof.
  assert (H1 : 0 <= 27 < 44303038) by lia.
  split; [done |]. exact (getNodeLabel_letters 27 H1).
Defined.

Lemma getNodeLabel_inj_ab :
  0 <= 27 < 44303038 ∧ getNodeLabel 27 = getNodeLabel (26 + 1) ∧ 27 = 26 + 1.
Proof.
  assert (H1 : 0 <= 27 < 44303038) by lia.
  assert (H2 : getNodeLabel 27 = getNodeLabel (26 + 1)) by done.
  split; [done |]. split; [done |].
  exact (getNodeLabel_inj 27 (26 + 1) H1 H1 H2).
Defined.

Lemma optimizeRoute_highlights_all_triangle :
  (∀ i l, l ≡ₚ no_shuffle i l)
  ∧ endpoints_known triangle_nodes triangle_routes
  ∧ connected triangle_nodes triangle_routes
  ∧ NoDup (map route_id triangle_routes)
  ∧ (1 ≤ length triangle_routes ≤ 12)%nat
  ∧ ∃ result,
      optimizeRoute no_shuffle triangle_nodes triangle_routes
      = Done (Optimized result)
      ∧ ∀ r, r ∈ triangle_routes → isOptimizedRoute (best_path result) r = true.
Proof.
  split_and!;
    [apply no_shuffle_Permutation | apply triangle_valid
    | apply triangle_connected | apply triangle_distinct
    | apply triangle_valid | apply triangle_valid |].
  apply (optimizeRoute_highlights_all no_shuffle triangle_nodes triangle_routes);
    [apply no_shuffle_Permutation | apply triangle_valid
    | apply triangle_connected | apply triangle_distinct | apply triangle_valid].
Defined.

Lemma canOptimize_optimizeRoute_triangle :
  canOptimize triangle_nodes triangle_routes = true
  ∧ ((length triangle_routes ≤ 12)%nat →
     ∃ p d s, optimizeRoute no_shuffle triangle_nodes triangle_routes
              = Done (Optimized (mkBestPath p (Fin d)))
              ∧ head p = Some s ∧ s ∈ map node_id triangle_nodes).
Proof.
  assert (H1 : canOptimize triangle_nodes triangle_routes = true) by done.
  split; [done |].
  exact (proj2 (canOptimize_optimizeRoute no_shuffle triangle_nodes
                  triangle_routes H1)).
Defined.

Lemma editor_never_throws_line :
  editable sample_geometry line_drawn
  ∧ (∀ ev, ∃ st', dispatch sample_geometry line_drawn ev = Rendered st')
  ∧ (∀ x y, ∃ st', handleCanvasClick sample_geometry line_drawn x y = Rendered st')
  ∧ (∃ st', undo line_drawn = Rendered st')
  ∧ 0 <= currentStep line_drawn < Z.of_nat (length (history line_drawn)).
Proof.
  split; [apply line_drawn_editable |].
  exact (editor_never_throws sample_geometry line_drawn line_drawn_editable).
Defined.

Lemma editor_graph_wellformed_line :
  editable sample_geometry line_selected
  ∧ map node_id (ed_nodes line_selected)
    = seqZ 1 (Z.of_nat (length (ed_nodes line_selected)))
  ∧ NoDup (map route_id (ed_routes line_selected))
  ∧ endpoints_known (ed_nodes line_selected) (ed_routes line_selected)
  ∧ Forall (fun r => startNodeId r ≠ endNodeId r) (ed_routes line_selected)
  ∧ (∀ s, selectedNode line_selected = Some s →
          s ∈ map node_id (ed_nodes line_selected)).
Proof.
  split; [apply line_selected_editable |].
  exact (editor_graph_wellformed sample_geometry line_selected
           line_selected_editable).
Defined.

Lemma editor_nodes_spaced_line :
  editable sample_geometry line_drawn
  ∧ spaced sample_geometry (ed_nodes line_drawn).
Proof.
  split; [apply line_drawn_editable |].
  exact (editor_nodes_spaced sample_geometry line_drawn line_drawn_editable).
Defined.

Lemma editor_distances_nonneg_line :
  (∀ a b c d, 0 <= calculateDistance sample_geometry a b c d)
  ∧ editable sample_geometry line_drawn
  ∧ nonneg_distances (ed_routes line_drawn)
  ∧ Forall (fun h => nonneg_distances (snap_routes h)) (history line_drawn).
Proof.
  split; [apply sample_geometry_nonneg |].
  split; [apply line_drawn_editable |].
  exact (editor_distances_nonneg sample_geometry line_drawn
           sample_geometry_nonneg line_drawn_editable).
Defined.

Lemma editor_graph_optimized_line :
  (∀ i l, l ≡ₚ no_shuffle i l)
  ∧ editable sample_geometry line_drawn
  ∧ connected (ed_nodes line_drawn) (ed_routes line_drawn)
  ∧ (1 ≤ length (ed_routes line_drawn) ≤ 12)%nat
  ∧ ∃ p d, optimizeRoute no_shuffle (ed_nodes line_drawn) (ed_routes line_drawn)
           = Done (Optimized (mkBestPath p (Fin d)))
           ∧ closed_walk p
           ∧ covers p (ed_routes line_drawn).
Proof.
  assert (H1 : (1 ≤ length (ed_routes line_drawn) ≤ 12)%nat)
    by (vm_compute; lia).
  split_and!;
    [apply no_shuffle_Permutation | apply line_drawn_editable
    | apply line_drawn_connected | apply H1 | apply H1 |].
  exact (editor_graph_optimized no_shuffle sample_geometry line_drawn
           no_shuffle_Permutation line_drawn_editable line_drawn_connected H1).
Defined.

Lemma editor_labels_distinct_line :
  editable sample_geometry line_drawn
  ∧ Z.of_nat (length (ed_nodes line_drawn)) <= 18278
  ∧ (∀ i n, ed_nodes line_drawn !! i = Some n →
            label n = label_text (getNodeLabel (Z.of_nat i)))
  ∧ NoDup (map label (ed_nodes line_drawn)).
Proof.
  assert (H1 : Z.of_nat (length (ed_nodes line_drawn)) <= 18278) by by vm_compute.
  split; [apply line_drawn_editable |]. split; [done |].
  exact (editor_labels_distinct sample_geometry line_drawn
           line_drawn_editable H1).
Defined.

Lemma undo_after_change_line :
  editable sample_geometry line_drawn
  ∧ history_current line_drawn
  ∧ handleCanvasClick sample_geometry line_drawn 50 50 = Rendered line_and_node
  ∧ (ed_nodes line_and_node ≠ ed_nodes line_drawn
     ∨ ed_routes line_and_node ≠ ed_routes line_drawn)
  ∧ ∃ st'', undo line_and_node = Rendered st''
            ∧ ed_nodes st'' = ed_nodes line_drawn
            ∧ ed_routes st'' = ed_routes line_drawn
            ∧ selectedNode st'' = None.
Proof.
  assert (H1 : history_current line_drawn) by by vm_compute.
  assert (H2 : handleCanvasClick sample_geometry line_drawn 50 50
               = Rendered line_and_node) by by vm_compute.
  assert (H3 : ed_nodes line_and_node ≠ ed_nodes line_drawn
               ∨ ed_routes line_and_node ≠ ed_routes line_drawn)
    by (left; by vm_compute).
  split; [apply line_drawn_editable |].
  split; [done |]. split; [done |]. split; [done |].
  exact (undo_after_change sample_geometry line_drawn 50 50 line_and_node
           line_drawn_editable H1 H2 H3).
Defined.

Lemma history_current_preserved_line :
  editable sample_geometry line_drawn
  ∧ history_current line_drawn
  ∧ dispatch sample_geometry line_drawn (Click 50 50) = Rendered line_and_node
  ∧ (∀ x y, Click 50 50 = Click x y →
            ¬ splits_with_selection sample_geometry line_drawn x y)
  ∧ history_current line_and_node.
Proof.
  assert (H1 : history_current line_drawn) by by vm_compute.
  assert (H2 : dispatch sample_geometry line_drawn (Click 50 50)
               = Rendered line_and_node) by by vm_compute.
  assert (H3 : ∀ x y, Click 50 50 = Click x y →
                      ¬ splits_with_selection sample_geometry line_drawn x y).
  { intros x y _ (_ & [s Hs] & _). by vm_compute in Hs. }
  split; [apply line_drawn_editable |].
  split; [done |]. split; [done |]. split; [done |].
  exact (history_current_preserved sample_geometry line_drawn (Click 50 50)
           line_and_node line_drawn_editable H1 H2 H3).
Defined.

Lemma split_with_selection_history_line :
  editable sample_geometry line_selected
  ∧ splits_with_selection sample_geometry line_selected 50 0
  ∧ ∃ st' saved r,
      handleCanvasClick sample_geometry line_selected 50 0 = Rendered st'
      ∧ history st' !! Z.to_nat (currentStep st')
        = Some (mkSnapshot (ed_nodes st') saved)
      ∧ ed_routes st' = saved ++ [r]
      ∧ selectedNode line_selected = Some (startNodeId r)
      ∧ endNodeId r = Z.of_nat (length (ed_nodes st')).
Proof.
  split; [apply line_selected_editable |].
  split; [apply line_selected_splits |].
  exact (split_with_selection_history sample_geometry line_selected 50 0
           line_selected_editable line_selected_splits).
Defined.

Lemma split_at_selected_end_doubles_route_line :
  editable sample_geometry line_selected
  ∧ isDrawingEnabled line_selected = true
  ∧ selectedNode line_selected = Some 1
  ∧ findNearestNode sample_geometry (ed_nodes line_selected) 50 0 = None
  ∧ findNearestRoute sample_geometry (ed_nodes line_selected)
      (ed_routes line_selected) 50 0 = Some (line_route, (50, 0))
  ∧ isTooCloseToExistingNodes sample_geometry (ed_nodes line_selected) 50 0
    = false
  ∧ (1 = startNodeId line_route ∨ 1 = endNodeId line_route)
  ∧ ∃ st' r1 r2,
      handleCanvasClick sample_geometry line_selected 50 0 = Rendered st'
      ∧ r1 ∈ ed_routes st' ∧ r2 ∈ ed_routes st'
      ∧ route_id r1 ≠ route_id r2
      ∧ joins r1 1 (Z.of_nat (length (ed_nodes st')))
      ∧ joins r2 1 (Z.of_nat (length (ed_nodes st'))).
Proof.
  assert (H1 : isDrawingEnabled line_selected = true) by by vm_compute.
  assert (H2 : selectedNode line_selected = Some 1) by by vm_compute.
  assert (H3 : findNearestNode sample_geometry (ed_nodes line_selected) 50 0
               = None) by by vm_compute.
  assert (H4 : findNearestRoute sample_geometry (ed_nodes line_selected)
                 (ed_routes line_selected) 50 0 = Some (line_route, (50, 0)))
    by by vm_compute.
  assert (H5 : isTooCloseToExistingNodes sample_geometry
                 (ed_nodes line_selected) 50 0 = false) by by vm_compute.
  assert (H6 : 1 = startNodeId line_route ∨ 1 = endNodeId line_route)
    by by left.
  split; [apply line_selected_editable |].
  do 6 (split; [done |]).
  exact (split_at_selected_end_doubles_route sample_geometry line_selected 50 0
           1 line_route (50, 0) line_selected_editable H1 H2 H3 H4 H5 H6).
Defined.

Lemma splitRoute_reachable_line :
  NoDup (map route_id [line_route])
  ∧ line_route ∈ [line_route]
  ∧ splitRoute sample_geometry (ed_nodes line_drawn) [line_route] line_route
      (mkNode 3 50 0 "c")
    = Some [mkRoute 2 1 3 50; mkRoute 3 3 2 50]
  ∧ (∀ a b, reachable [line_route] a b →
            reachable [mkRoute 2 1 3 50; mkRoute 3 3 2 50] a b)
  ∧ reachable [mkRoute 2 1 3 50; mkRoute 3 3 2 50] 1 3
  ∧ reachable [mkRoute 2 1 3 50; mkRoute 3 3 2 50] 3 2.
Proof.
  assert (H1 : NoDup (map route_id [line_route])) by compute_done.
  assert (H2 : line_route ∈ [line_route]) by apply list_elem_of_here.
  assert (H3 : splitRoute sample_geometry (ed_nodes line_drawn) [line_route]
                 line_route (mkNode 3 50 0 "c")
               = Some [mkRoute 2 1 3 50; mkRoute 3 3 2 50]) by by vm_compute.
  split; [done |]. split; [done |]. split; [done |].
  exact (splitRoute_reachable sample_geometry (ed_nodes line_drawn)
           [line_route] line_route (mkNode 3 50 0 "c")
           [mkRoute 2 1 3 50; mkRoute 3 3 2 50] H1 H2 H3).
Defined.
